(** * Canonical Huffman codes: a shallow embedding of package [huffman]

    The development follows the Go sources file by file:
    - [symbol.go], [code.go], [util.go]: symbols, bit strings, bit reversal;
    - [decoder.go]: [Decoder.Init], [fillTable], [Decoder.Decode];
    - [encoder.go]: [Encoder.Init], [Encoder.InitFromSizes], [firstPass],
      [secondPass], the frequency heap and the (size, symbol) sort.

    Conventions.  A [byte] and a [uint32] are integers of [Z]; every
    arithmetic operation of the source that can wrap is written with its
    wrap-around ([u8], [u32]).  A [Symbol] is an [int32], also in [Z].
    Slices and fixed-size arrays are lists, read and written through
    [index] and [store], which panic out of range as Go does.  A Go [map]
    is a [gmap].  A function that can return an [error] or panic returns
    a [result]. Slices handed to the package hold fewer than [2^31]
    entries, so that the conversion [Symbol(len(sizes))] is exact and the
    loops [for symbol := 0; symbol < numSymbols; symbol++] visit every
    entry in order; they are written as folds over the slice. *)

From Stdlib Require Import ZArith Lia String Ascii.
From stdpp Require Import base numbers option list sorting strings gmap.

Local Open Scope Z_scope.

(** ** Machine integers *)

Definition u8 (x : Z) : Z := x mod 2 ^ 8.
Definition u32 (x : Z) : Z := x mod 2 ^ 32.

Definition MinInt32 : Z := - 2 ^ 31.
Definition MaxInt32 : Z := 2 ^ 31 - 1.
Definition MaxUint32 : Z := 2 ^ 32 - 1.

(** ** Errors and panics *)

(** One constructor per [fmt.Errorf] format string of the package. *)
Inductive error : Type :=
| ErrInvalidLength (got max : Z)
    (* invalid bit length while constructing Huffman tree: got %d, max %d *)
| ErrDegenerate (expected got : Z)
    (* degenerate Huffman tree: expected %d, got %d *)
| ErrTooMany (size : Z).
    (* too many symbols have a code length of %d *)

Inductive panic : Type :=
| IndexOutOfRange (i len : Z)   (* runtime error: index out of range *)
| PanicErr (e : error)          (* panic(err) *)
| AssertFailed.                 (* assert.Assertf *)

Inductive result (A : Type) : Type :=
| Ok (a : A)
| Err (e : error)
| Panic (p : panic).
Arguments Ok {A} a.
Arguments Err {A} e.
Arguments Panic {A} p.

Global Instance result_ret : MRet result := fun A a => Ok a.
Global Instance result_bind : MBind result := fun A B k r =>
  match r with
  | Ok a => k a
  | Err e => Err e
  | Panic p => Panic p
  end.

(** A [for] loop over a slice whose body may fail. *)
Fixpoint forM {A St} (body : St → A → result St) (l : list A) (st : St)
  : result St :=
  match l with
  | [] => Ok st
  | x :: l' => st' ← body st x ; forM body l' st'
  end.

(** [a[i]] and [a[i] = v] with Go's bounds check. *)
Definition index {A} (a : list A) (i : Z) : result A :=
  if bool_decide (0 ≤ i) then
    match a !! Z.to_nat i with
    | Some x => Ok x
    | None => Panic (IndexOutOfRange i (Z.of_nat (length a)))
    end
  else Panic (IndexOutOfRange i (Z.of_nat (length a))).

Definition store {A} (a : list A) (i : Z) (v : A) : result (list A) :=
  if bool_decide (0 ≤ i ∧ i < Z.of_nat (length a)) then
    Ok (<[Z.to_nat i := v]> a)
  else Panic (IndexOutOfRange i (Z.of_nat (length a))).

(** ** symbol.go *)

Definition InvalidSymbol : Z := -1.
Definition MaxSymbol : Z := MaxInt32.

(** ** code.go *)

Record Code : Type := MakeCode { Size : Z; Bits : Z }.

Global Instance Code_eq_dec : EqDecision Code.
Proof. solve_decision. Defined.

Global Instance Code_countable : Countable Code.
Proof.
  refine (inj_countable' (fun hc => (Size hc, Bits hc))
                         (fun p => MakeCode p.1 p.2) _).
  by intros [].
Defined.

(** [math/bits.Reverse32] reverses the 32 bits of its argument.  [Reverse n]
    reverses the low [n] bits: bit [i] of [x] becomes bit [n - 1 - i]. *)
Fixpoint Reverse (n : nat) (x : Z) : Z :=
  match n with
  | O => 0
  | S m => (x mod 2) * 2 ^ Z.of_nat m + Reverse m (x / 2)
  end.

Definition Reverse32 (x : Z) : Z := Reverse 32 x.

(** [mathbits.Reverse32(bits) >> (32 - size)]; the shift count is a [byte],
    and a shift by 32 or more clears a [uint32]. *)
Definition reverseBits (size bits : Z) : Z :=
  Z.shiftr (Reverse32 bits) (u8 (32 - size)).

Definition MakeReversedCode (size bits : Z) : Code :=
  MakeCode size (reverseBits size bits).

Definition Reversed (hc : Code) : Code :=
  MakeReversedCode (Size hc) (Bits hc).

(** The digits printed by [Code.String]: format [%0<Size>b] of [Bits], that
    is, the binary digits of [Bits], most significant first, padded with
    zeros to [Size] digits (the quotes that [strconv.Quote] adds are left
    out). *)
Fixpoint binaryDigits (fuel : nat) (x : Z) (acc : string) : string :=
  match fuel with
  | O => acc
  | S f => if bool_decide (x = 0) then acc
           else binaryDigits f (x / 2)
                  (String (if Z.odd x then "1"%char else "0"%char) acc)
  end.

Fixpoint zeroPad (n : nat) (s : string) : string :=
  match n with
  | O => s
  | S m => String "0"%char (zeroPad m s)
  end.

Definition Code_String (hc : Code) : string :=
  if bool_decide (Size hc = 0) then EmptyString
  else
    let ds := binaryDigits 32 (Bits hc) EmptyString in
    zeroPad (Z.to_nat (Size hc) - String.length ds) ds.

(** ** Constants *)

(** Modelled from the spec: the declaration of the constant
    [maxBitsPerCode] is not among the sources; the specification gives its
    value, 15. *)
Definition maxBitsPerCode : Z := 15.

(** ** decoder.go *)

Record decoderData : Type :=
  mkDD { dd_symbol : Z; dd_minSize : Z; dd_maxSize : Z }.

Global Instance decoderData_eq_dec : EqDecision decoderData.
Proof. solve_decision. Defined.

Record Decoder : Type := mkDecoder {
  d_table : gmap Code decoderData;
  d_sizes : list Z;
  d_minSize : Z;
  d_maxSize : Z
}.

(** The zero value [Decoder{}]. *)
Definition emptyDecoder : Decoder := mkDecoder ∅ [] 0 0.

(** The body of the loop of [fillTable]; [n] is [hc.Size], which the loop
    decrements until it is zero. *)
Fixpoint fillTableLoop (n : nat) (bits : Z) (dd : decoderData)
    (table : gmap Code decoderData) : gmap Code decoderData :=
  match n with
  | O => table
  | S m =>
      let size := Z.of_nat (S m) in
      let bit := u32 (Z.shiftl 1 (size - 1)) in
      let bits := Z.lxor bits bit in
      let ddNew :=
        match table !! MakeCode size bits with
        | Some ddSibling =>
            let mn := if bool_decide (dd_minSize dd > dd_minSize ddSibling)
                      then dd_minSize ddSibling else dd_minSize dd in
            let mx := if bool_decide (dd_maxSize dd < dd_maxSize ddSibling)
                      then dd_maxSize ddSibling else dd_maxSize dd in
            mkDD InvalidSymbol mn mx
        | None => mkDD InvalidSymbol (dd_minSize dd) (dd_maxSize dd)
        end in
      let size := size - 1 in
      let bits := Z.ldiff bits bit in
      let hc := MakeCode size bits in
      if bool_decide (table !! hc = Some ddNew) then table
      else fillTableLoop m bits ddNew (<[hc := ddNew]> table)
  end.

Definition fillTable (table : gmap Code decoderData) (symbol : Z) (hc : Code)
  : gmap Code decoderData :=
  let dd := mkDD symbol (Size hc) (Size hc) in
  fillTableLoop (Z.to_nat (Size hc)) (Bits hc) dd (<[hc := dd]> table).

(** State of the first loop of [Decoder.Init]. *)
Record scanState : Type := mkScan {
  countArray : list Z;
  numSymbolsWithNonZeroSizes : Z;
  sc_minSize : Z;
  sc_maxSize : Z
}.

Definition scanInit : scanState :=
  mkScan (replicate (Z.to_nat maxBitsPerCode) 0) 0 0 0.

Definition scanStep (st : scanState) (size : Z) : result scanState :=
  if bool_decide (size = 0) then Ok st
  else if bool_decide (size > maxBitsPerCode) then
    Err (ErrInvalidLength size maxBitsPerCode)
  else
    let '(mn, mx) :=
      if bool_decide (numSymbolsWithNonZeroSizes st = 0) then (size, size)
      else if bool_decide (sc_minSize st > size) then (size, sc_maxSize st)
      else if bool_decide (sc_maxSize st < size) then (sc_minSize st, size)
      else (sc_minSize st, sc_maxSize st) in
    c ← index (countArray st) size ;
    counts ← store (countArray st) size (u32 (c + 1)) ;
    Ok (mkScan counts (u32 (numSymbolsWithNonZeroSizes st + 1)) mn mx).

(** The loop [for bits := minSize; bits <= maxSize; bits++]; [n] counts the
    iterations that remain. *)
Fixpoint nextCodeLoop (n : nat) (bits : Z) (counts nextCodeArray : list Z)
    (code : Z) : result (list Z * Z) :=
  match n with
  | O => Ok (nextCodeArray, code)
  | S m =>
      c ← index counts (bits - 1) ;
      let code := u32 (Z.shiftl (u32 (code + c)) 1) in
      nextCodeArray ← store nextCodeArray bits code ;
      nextCodeLoop m (bits + 1) counts nextCodeArray code
  end.

(** State of the last loop of [Decoder.Init]. *)
Record assignState : Type := mkAssign {
  as_symbol : Z;
  as_nextCodeArray : list Z;
  as_table : gmap Code decoderData
}.

(** [code := nextCodeArray[size]; nextCodeArray[size]++] *)
Definition takeCode (nextCodeArray : list Z) (size : Z) : result (Z * list Z) :=
  code ← index nextCodeArray size ;
  next ← store nextCodeArray size (u32 (code + 1)) ;
  Ok (code, next).

Definition assignStep (st : assignState) (size : Z) : result assignState :=
  if bool_decide (size = 0) then
    Ok (mkAssign (as_symbol st + 1) (as_nextCodeArray st) (as_table st))
  else
    '(code, next) ← takeCode (as_nextCodeArray st) size ;
    let hc := MakeReversedCode size code in
    Ok (mkAssign (as_symbol st + 1) next
                 (fillTable (as_table st) (as_symbol st) hc)).

(** Everything [Decoder.Init] computes before it allocates the table: the
    scan of the sizes, the first code of every length and the check of the
    consumed code space.  [None] stands for the early return of the code
    with no symbols. *)
Definition validate (sizes : list Z) : result (option (scanState * list Z)) :=
  sc ← forM scanStep sizes scanInit ;
  if bool_decide (numSymbolsWithNonZeroSizes sc = 0) then Ok None
  else
    let minSize := sc_minSize sc in
    let maxSize := sc_maxSize sc in
    '(nextCodeArray, code) ←
      nextCodeLoop (Z.to_nat (maxSize - minSize + 1)) minSize (countArray sc)
                   (replicate (Z.to_nat maxBitsPerCode) 0) 0 ;
    c ← index (countArray sc) maxSize ;
    let code := u32 (code + c) in
    if bool_decide (code = 1 ∧ maxSize = 1) then Ok (Some (sc, nextCodeArray))
    else if bool_decide (code ≠ u32 (Z.shiftl 1 maxSize)) then
      Err (ErrDegenerate (Z.shiftl 1 maxSize) code)
    else Ok (Some (sc, nextCodeArray)).

Definition Decoder_Init (sizes : list Z) : result Decoder :=
  v ← validate sizes ;
  match v with
  | None => Ok emptyDecoder
  | Some (sc, nextCodeArray) =>
      st ← forM assignStep sizes (mkAssign 0 nextCodeArray ∅) ;
      Ok (mkDecoder (as_table st) sizes (sc_minSize sc) (sc_maxSize sc))
  end.

(** The calls [fillTable(d.table, symbol, hc)] that the last loop of
    [Decoder.Init] makes, in order: the transmission-order code that every
    live symbol is given. *)
Fixpoint assignedFrom (sizes : list Z) (symbol : Z) (nextCodeArray : list Z)
  : list (Z * Code) :=
  match sizes with
  | [] => []
  | size :: rest =>
      if bool_decide (size = 0) then assignedFrom rest (symbol + 1) nextCodeArray
      else
        match takeCode nextCodeArray size with
        | Ok (code, next) =>
            (symbol, MakeReversedCode size code)
              :: assignedFrom rest (symbol + 1) next
        | _ => []
        end
  end.

Definition Decoder_codes (sizes : list Z) : list (Z * Code) :=
  match validate sizes with
  | Ok (Some (_, nextCodeArray)) => assignedFrom sizes 0 nextCodeArray
  | _ => []
  end.

Definition Decoder_Decode (d : Decoder) (hc : Code) : Z * Z * Z :=
  match d_table d !! hc with
  | None => (InvalidSymbol, 0, 0)
  | Some dd => (dd_symbol dd, dd_minSize dd, dd_maxSize dd)
  end.

Definition Decoder_MinSize (d : Decoder) : Z := d_minSize d.
Definition Decoder_MaxSize (d : Decoder) : Z := d_maxSize d.
Definition Decoder_SizeBySymbol (d : Decoder) : list Z := d_sizes d.

Definition Decoder_NumSymbols (d : Decoder) : Z := Z.of_nat (length (d_sizes d)).
Definition Decoder_MaxSymbol (d : Decoder) : Z :=
  Z.of_nat (length (d_sizes d)) - 1.

(** The order of [byCode.Less], by which [DebugString] sorts the keys of
    the table. *)
Definition byCode_Less (a b : Code) : bool :=
  if bool_decide (Size a ≠ Size b) then bool_decide (Size a < Size b)
  else bool_decide (Bits a < Bits b).

(** [MarshalJSON] and [UnmarshalJSON] exchange a [[]uint] with
    [encoding/json]: [marshalArray] is the array that [MarshalJSON] hands
    to [json.Marshal], and [unmarshalSizes] is the loop that
    [UnmarshalJSON] runs over the array that [json.Unmarshal] has filled,
    [sizes[i] = byte(size)] unless [size > maxBitsPerCode]. *)
Definition marshalArray (sizes : list Z) : list Z := sizes.

Definition unmarshalStep (st : Z * list Z) (size : Z) : result (Z * list Z) :=
  if bool_decide (size > maxBitsPerCode) then
    Err (ErrInvalidLength size maxBitsPerCode)
  else
    sizes ← store st.2 st.1 (u8 size);
    Ok (st.1 + 1, sizes).

Definition unmarshalSizes (arr : list Z) : result (list Z) :=
  st ← forM unmarshalStep arr (0, replicate (length arr) 0);
  Ok st.2.

Definition Decoder_MarshalJSON (d : Decoder) : list Z :=
  marshalArray (d_sizes d).

Definition Decoder_UnmarshalJSON (arr : list Z) : result Decoder :=
  sizes ← unmarshalSizes arr; Decoder_Init sizes.

(** ** encoder.go *)

Record Encoder : Type := mkEncoder {
  e_codes : list Code;
  e_minSize : Z;
  e_maxSize : Z
}.

(** *** type symbolAndSize, type bySize *)

Record symbolAndSize : Type := mkSS { ss_symbol : Z; ss_size : Z }.

Definition bySize_Less (a b : symbolAndSize) : bool :=
  if bool_decide (ss_size a ≠ ss_size b) then bool_decide (ss_size a < ss_size b)
  else bool_decide (ss_symbol a < ss_symbol b).

(** [sort.Sort] orders the slice by [Less].  No two entries of the slice
    compare equal (their symbols differ), so the sorted slice does not
    depend on the algorithm; it is written here as an insertion sort. *)
Fixpoint bySize_insert (x : symbolAndSize) (l : list symbolAndSize)
  : list symbolAndSize :=
  match l with
  | [] => [x]
  | y :: l' => if bySize_Less y x then y :: bySize_insert x l' else x :: l
  end.

Definition bySize_Sort (l : list symbolAndSize) : list symbolAndSize :=
  foldr bySize_insert [] l.

(** *** secondPass *)

(** [secondPass] writes into the slice it is given and may return early
    with an error; [sp_codes] is the slice as it is left in either case. *)
Record secondPassOut : Type := mkSP { sp_codes : list Code; sp_err : option error }.

(** Step 1: collect the symbols with a nonzero size. *)
Record collectState : Type :=
  mkCollect { co_symbol : Z; co_sorted : list symbolAndSize }.

Definition collectStep (st : collectState) (hc : Code) : result collectState :=
  let size := Size hc in
  if bool_decide (size = 0) then Ok (mkCollect (co_symbol st + 1) (co_sorted st))
  else if bool_decide (size > maxBitsPerCode) then
    Err (ErrInvalidLength size maxBitsPerCode)
  else Ok (mkCollect (co_symbol st + 1)
                     (co_sorted st ++ [mkSS (co_symbol st) size])).

(** Step 2: walk the sorted slice. *)
Record walkState : Type :=
  mkWalk { w_codes : list Code; w_lastSize : Z; w_nextCode : Z }.

(** [codes[symbol].Bits = bits] *)
Definition setBits (codes : list Code) (symbol bits : Z) : result (list Code) :=
  hc ← index codes symbol; store codes symbol (MakeCode (Size hc) bits).

(** [codes[symbol].Size = size] *)
Definition setSize (codes : list Code) (symbol size : Z) : result (list Code) :=
  hc ← index codes symbol; store codes symbol (MakeCode size (Bits hc)).

Fixpoint assignLoop (sorted : list symbolAndSize) (st : walkState)
  : result secondPassOut :=
  match sorted with
  | [] => Ok (mkSP (w_codes st) None)
  | item :: rest =>
      let '(nextCode, lastSize) :=
        if bool_decide (ss_size item > w_lastSize st) then
          (u32 (Z.shiftl (w_nextCode st) (u8 (ss_size item - w_lastSize st))),
           ss_size item)
        else (w_nextCode st, w_lastSize st) in
      let mask := u32 (u32 (Z.shiftl 1 (ss_size item)) - 1) in
      if bool_decide (Z.ldiff nextCode mask ≠ 0) then
        Ok (mkSP (w_codes st) (Some (ErrTooMany (ss_size item))))
      else
        codes ← setBits (w_codes st) (ss_symbol item)
                        (reverseBits (ss_size item) nextCode);
        assignLoop rest (mkWalk codes lastSize (u32 (nextCode + 1)))
  end.

Definition secondPass (codes : list Code) : result secondPassOut :=
  match forM collectStep codes (mkCollect 0 []) with
  | Err e => Ok (mkSP codes (Some e))
  | Panic p => Panic p
  | Ok st =>
      let sorted := bySize_Sort (co_sorted st) in
      first ← index sorted 0;
      assignLoop sorted (mkWalk codes (ss_size first) 0)
  end.

(** *** type symbolAndFreq, type freqHeap *)

Record symbolAndFreq : Type := mkSF { sf_symbol : Z; sf_freq : Z }.

Global Instance symbolAndFreq_inhabited : Inhabited symbolAndFreq :=
  populate (mkSF 0 0).

Definition freqHeap_Less (a b : symbolAndFreq) : bool :=
  if bool_decide (sf_freq a ≠ sf_freq b) then bool_decide (sf_freq a < sf_freq b)
  else bool_decide (u32 (sf_symbol a) < u32 (sf_symbol b)).

(** [h.Less(i, j)] and [h.Swap(i, j)] on the slice of the heap.  The
    functions of [container/heap] below call them with indices inside the
    slice only. *)
Definition hLess (h : list symbolAndFreq) (i j : nat) : bool :=
  freqHeap_Less (h !!! i) (h !!! j).

Definition hSwap (h : list symbolAndFreq) (i j : nat) : list symbolAndFreq :=
  <[j := h !!! i]> (<[i := h !!! j]> h).

(** [container/heap.down(h, i0, n)].  The index [i] grows at every
    iteration and the loop stops when [2*i+1 >= n]; [fuel] is at least
    [n - i], so that when it is used up the loop has stopped as well. *)
Fixpoint heap_down (fuel : nat) (h : list symbolAndFreq) (i n : nat)
  : list symbolAndFreq :=
  match fuel with
  | O => h
  | S f =>
      let j1 := (2 * i + 1)%nat in
      if bool_decide (n ≤ j1)%nat then h
      else
        let j2 := (j1 + 1)%nat in
        let j := if bool_decide (j2 < n)%nat && hLess h j2 j1 then j2 else j1 in
        if negb (hLess h j i) then h
        else heap_down f (hSwap h i j) j n
  end.

(** [container/heap.up(h, j)].  The parent of [j] is [(j-1)/2], and the loop
    stops at the root; [fuel] is at least [j]. *)
Fixpoint heap_up (fuel : nat) (h : list symbolAndFreq) (j : nat)
  : list symbolAndFreq :=
  match fuel with
  | O => h
  | S f =>
      let i := ((j - 1) / 2)%nat in
      if bool_decide (i = j) || negb (hLess h j i) then h
      else heap_up f (hSwap h i j) i
  end.

(** [container/heap.Init]: [for i := n/2 - 1; i >= 0; i-- { down(h, i, n) }];
    [k] is [i + 1]. *)
Fixpoint heap_InitLoop (k : nat) (h : list symbolAndFreq) (n : nat)
  : list symbolAndFreq :=
  match k with
  | O => h
  | S i => heap_InitLoop i (heap_down n h i n) n
  end.

Definition heap_Init (h : list symbolAndFreq) : list symbolAndFreq :=
  let n := length h in heap_InitLoop (n / 2) h n.

(** [container/heap.Push] after [freqHeap.Push]. *)
Definition heap_Push (h : list symbolAndFreq) (x : symbolAndFreq)
  : list symbolAndFreq :=
  let h := h ++ [x] in heap_up (length h - 1) h (length h - 1).

(** [container/heap.Pop] followed by [freqHeap.Pop].  On an empty slice
    [Swap(0, -1)] fails on [h.list[0]]. *)
Definition heap_Pop (h : list symbolAndFreq)
  : result (symbolAndFreq * list symbolAndFreq) :=
  match length h with
  | O => Panic (IndexOutOfRange 0 0)
  | S n =>
      let h := hSwap h 0 n in
      let h := heap_down n h 0 n in
      x ← index h (Z.of_nat n);
      Ok (x, take n h)
  end.

(** *** firstPass *)

(** Saturating addition of two frequencies, as [firstPass] writes it. *)
Definition freqSum (a b : Z) : Z :=
  let s := u32 (a + b) in
  if bool_decide (s < a) then MaxUint32 else s.

Record syntheticSymbol : Type := mkSyn { syn_left : Z; syn_right : Z }.

(** The loop [for h.Len() > 1]; every iteration shortens the heap by one,
    [n] is [h.Len() - 1]. *)
Fixpoint mergeLoop (n : nat) (h : list symbolAndFreq)
    (syntheticSymbols : list syntheticSymbol) (nextSyntheticSymbol : Z)
  : result (list symbolAndFreq * list syntheticSymbol) :=
  match n with
  | O => Ok (h, syntheticSymbols)
  | S m =>
      '(a, h) ← heap_Pop h;
      '(b, h) ← heap_Pop h;
      let s := freqSum (sf_freq a) (sf_freq b) in
      let syntheticSymbols :=
        syntheticSymbols ++ [mkSyn (sf_symbol a) (sf_symbol b)] in
      let h := heap_Push h (mkSF nextSyntheticSymbol s) in
      mergeLoop m h syntheticSymbols (nextSyntheticSymbol + 1)
  end.

Record stackItem : Type := mkItem { it_s : Z; it_x : Z }.

(** The variables the closures of [firstPass] share.  The stack grows at
    its end, as the slice does. *)
Record treeWalk : Type := mkTree {
  tw_stack : list stackItem;
  tw_codes : list Code;
  tw_hasMinMax : bool;
  tw_minSize : Z;
  tw_maxSize : Z
}.

Definition stackLen (tw : treeWalk) : Z := Z.of_nat (length (tw_stack tw)).

Definition stackPush (tw : treeWalk) (symbol : Z) : treeWalk :=
  mkTree (tw_stack tw ++ [mkItem symbol 0]) (tw_codes tw) (tw_hasMinMax tw)
         (tw_minSize tw) (tw_maxSize tw).

Definition stackPop (tw : treeWalk) : treeWalk :=
  mkTree (take (length (tw_stack tw) - 1) (tw_stack tw)) (tw_codes tw)
         (tw_hasMinMax tw) (tw_minSize tw) (tw_maxSize tw).

Definition leftChild (syntheticSymbols : list syntheticSymbol) (item : stackItem)
  : result Z :=
  syn ← index syntheticSymbols (it_s item - MinInt32); Ok (syn_left syn).

Definition rightChild (syntheticSymbols : list syntheticSymbol) (item : stackItem)
  : result Z :=
  syn ← index syntheticSymbols (it_s item - MinInt32); Ok (syn_right syn).

Definition processChild (tw : treeWalk) (child : Z) : result treeWalk :=
  if bool_decide (child < 0) then Ok (stackPush tw child)
  else
    let size := u8 (stackLen tw) in
    codes ← setSize (tw_codes tw) child size;
    let '(mn, mx) :=
      if negb (tw_hasMinMax tw) then (size, size)
      else if bool_decide (tw_minSize tw > size) then (size, tw_maxSize tw)
      else if bool_decide (tw_maxSize tw < size) then (tw_minSize tw, size)
      else (tw_minSize tw, tw_maxSize tw) in
    Ok (mkTree (tw_stack tw) codes true mn mx).

(** The tree-walking loop [for stackLen != 0].  A walk of a tree with [k]
    synthetic symbols takes [3 * k] iterations; when [fuel] runs out before
    the stack is empty the model stops with [FuelExhausted]. *)
Inductive walkResult : Type :=
| WalkDone (tw : treeWalk)
| WalkPanic (p : panic)
| FuelExhausted.

Fixpoint walkLoop (fuel : nat) (syntheticSymbols : list syntheticSymbol)
    (tw : treeWalk) : walkResult :=
  if bool_decide (stackLen tw = 0) then WalkDone tw
  else
    match fuel with
    | O => FuelExhausted
    | S f =>
        let r :=
          top ← index (tw_stack tw) (stackLen tw - 1);
          let x := it_x top in
          stack ← store (tw_stack tw) (stackLen tw - 1)
                        (mkItem (it_s top) (u8 (x + 1)));
          let tw := mkTree stack (tw_codes tw) (tw_hasMinMax tw)
                           (tw_minSize tw) (tw_maxSize tw) in
          if bool_decide (x = 0) then
            c ← leftChild syntheticSymbols top; processChild tw c
          else if bool_decide (x = 1) then
            c ← rightChild syntheticSymbols top; processChild tw c
          else if bool_decide (x = 2) then Ok (stackPop tw)
          else Ok tw in
        match r with
        | Ok tw => walkLoop f syntheticSymbols tw
        | Err e => WalkPanic (PanicErr e)
        | Panic p => WalkPanic p
        end
    end.

Definition firstPass (codes : list Code) (nodes : list symbolAndFreq)
    (minSize maxSize : Z) : walkResult :=
  let h := heap_Init nodes in
  match mergeLoop (length h - 1) h [] MinInt32 with
  | Err e => WalkPanic (PanicErr e)
  | Panic p => WalkPanic p
  | Ok (h, syntheticSymbols) =>
      match heap_Pop h with
      | Err e => WalkPanic (PanicErr e)
      | Panic p => WalkPanic p
      | Ok (root, _) =>
          let tw := stackPush (mkTree [] codes false minSize maxSize)
                              (sf_symbol root) in
          walkLoop (3 * length syntheticSymbols) syntheticSymbols tw
      end
  end.

(** *** Init *)

Record nodesState : Type :=
  mkNodes { ns_symbol : Z; ns_nodes : list symbolAndFreq }.

Definition nodesStep (st : nodesState) (freq : Z) : result nodesState :=
  if bool_decide (freq ≠ 0) then
    Ok (mkNodes (ns_symbol st + 1) (ns_nodes st ++ [mkSF (ns_symbol st) freq]))
  else Ok (mkNodes (ns_symbol st + 1) (ns_nodes st)).

(** The loop of the branch [nodeLen <= 2]:
    [codes[node.symbol] = MakeCode(1, index)]. *)
Definition smallStep (st : Z * list Code) (node : symbolAndFreq)
  : result (Z * list Code) :=
  codes ← store st.2 (sf_symbol node) (MakeCode 1 st.1);
  Ok (u32 (st.1 + 1), codes).

(** What a call of [Encoder.Init] can do: return (it has no error result),
    panic, or, in the model only, run out of fuel in the tree walk.
    [io_secondPassErr] records the error of [secondPass] that [Init]
    discards with [_ = secondPass(codes)]. *)
Record initOut : Type :=
  mkInitOut { io_encoder : Encoder; io_secondPassErr : option error }.

Inductive initResult : Type :=
| InitDone (out : initOut)
| InitPanic (p : panic)
| InitFuelExhausted.

Definition Encoder_Init (numSymbols : Z) (frequencies : list Z) : initResult :=
  if negb (bool_decide (1 ≤ numSymbols)) then InitPanic AssertFailed
  else if negb (bool_decide (numSymbols ≤ MaxSymbol)) then InitPanic AssertFailed
  else if negb (bool_decide (Z.of_nat (length frequencies) ≤ numSymbols))
  then InitPanic AssertFailed
  else
    let codes := replicate (Z.to_nat numSymbols) (MakeCode 0 0) in
    match forM nodesStep frequencies (mkNodes 0 []) with
    | Err e => InitPanic (PanicErr e)
    | Panic p => InitPanic p
    | Ok st =>
        let nodes := ns_nodes st in
        let nodeLen := u32 (Z.of_nat (length nodes)) in
        if bool_decide (nodeLen ≤ 2) then
          match forM smallStep nodes (0, codes) with
          | Err e => InitPanic (PanicErr e)
          | Panic p => InitPanic p
          | Ok (_, codes) => InitDone (mkInitOut (mkEncoder codes 1 1) None)
          end
        else
          match firstPass codes nodes 0 0 with
          | FuelExhausted => InitFuelExhausted
          | WalkPanic p => InitPanic p
          | WalkDone tw =>
              match secondPass (tw_codes tw) with
              | Err e => InitPanic (PanicErr e)
              | Panic p => InitPanic p
              | Ok out =>
                  InitDone (mkInitOut
                    (mkEncoder (sp_codes out) (tw_minSize tw) (tw_maxSize tw))
                    (sp_err out))
              end
          end
    end.

(** *** InitFromSizes *)

Record sizesState : Type := mkSizes {
  sz_symbol : Z;
  sz_codes : list Code;
  sz_hasMinMax : bool;
  sz_minSize : Z;
  sz_maxSize : Z
}.

Definition sizesStep (st : sizesState) (size : Z) : result sizesState :=
  if bool_decide (size = 0) then
    Ok (mkSizes (sz_symbol st + 1) (sz_codes st) (sz_hasMinMax st)
                (sz_minSize st) (sz_maxSize st))
  else
    let '(mn, mx) :=
      if negb (sz_hasMinMax st) then (size, size)
      else if bool_decide (sz_minSize st > size) then (size, sz_maxSize st)
      else if bool_decide (sz_maxSize st < size) then (sz_minSize st, size)
      else (sz_minSize st, sz_maxSize st) in
    codes ← setSize (sz_codes st) (sz_symbol st) size;
    Ok (mkSizes (sz_symbol st + 1) codes true mn mx).

Definition Encoder_InitFromSizes (sizes : list Z) : result Encoder :=
  let codes := replicate (length sizes) (MakeCode 0 0) in
  st ← forM sizesStep sizes (mkSizes 0 codes false 0 0);
  out ← secondPass (sz_codes st);
  match sp_err out with
  | Some e => Err e
  | None => Ok (mkEncoder (sp_codes out) (sz_minSize st) (sz_maxSize st))
  end.

Definition Encoder_Encode (e : Encoder) (symbol : Z) : result Code :=
  index (e_codes e) symbol.

Definition Encoder_MinSize (e : Encoder) : Z := e_minSize e.
Definition Encoder_MaxSize (e : Encoder) : Z := e_maxSize e.

Definition Encoder_SizeBySymbol (e : Encoder) : list Z := Size <$> e_codes e.

(** *** Conversions between the two *)

Definition Encoder_InitFromDecoder (d : Decoder) : result Encoder :=
  Encoder_InitFromSizes (Decoder_SizeBySymbol d).

Definition Decoder_InitFromEncoder (e : Encoder) : result Decoder :=
  Decoder_Init (Encoder_SizeBySymbol e).

(** [if err != nil { panic(err) }] *)
Definition must {A} (r : result A) : result A :=
  match r with
  | Err e => Panic (PanicErr e)
  | _ => r
  end.

Definition Decoder_Encoder (d : Decoder) : result Encoder :=
  must (Encoder_InitFromDecoder d).

Definition Encoder_Decoder (e : Encoder) : result Decoder :=
  must (Decoder_InitFromEncoder e).

Definition NewDecoder (sizes : list Z) : result Decoder :=
  must (Decoder_Init sizes).

Definition NewEncoderFromSizes (sizes : list Z) : result Encoder :=
  must (Encoder_InitFromSizes sizes).

Definition NewEncoder (numSymbols : Z) (frequencies : list Z) : initResult :=
  Encoder_Init numSymbols frequencies.

Definition Encoder_NumSymbols (e : Encoder) : Z := Z.of_nat (length (e_codes e)).

Definition Encoder_MarshalJSON (e : Encoder) : list Z :=
  marshalArray (Size <$> e_codes e).

Definition Encoder_UnmarshalJSON (arr : list Z) : result Encoder :=
  sizes ← unmarshalSizes arr; Encoder_InitFromSizes sizes.

(** ** util.go *)

(** [math/bits.Len32]: the number of bits needed to write [x], 0 for
    [x = 0]; [math/bits.LeadingZeros32(x)] is [32 - Len32(x)]. *)
Fixpoint Len (fuel : nat) (x : Z) : Z :=
  match fuel with
  | O => 0
  | S f => if bool_decide (x = 0) then 0 else 1 + Len f (x / 2)
  end.

Definition LeadingZeros32 (x : Z) : Z := 32 - Len 32 x.

Definition log2uint32 (x : Z) : Z :=
  let x := if bool_decide (x = 0) then 1 else x in
  u32 (32 - LeadingZeros32 x).


(** * Vocabulary of the specification *)

(** Codes are read in transmission order: the first bit on the stream is
    the least significant bit of [Bits].  [p] is a bit-prefix of [c] when
    the first [Size p] bits of [c] are the bits of [p]. *)
Definition isPrefix (p c : Code) : Prop :=
  0 ≤ Size p ≤ Size c ∧ Bits p = Bits c mod 2 ^ Size p.

Definition isStrictPrefix (p c : Code) : Prop :=
  isPrefix p c ∧ Size p < Size c.

Global Instance isPrefix_dec p c : Decision (isPrefix p c).
Proof. unfold isPrefix. apply _. Defined.

(** The code of a live symbol of an Encoder. *)
Definition Encoder_code (e : Encoder) (symbol : Z) (hc : Code) : Prop :=
  0 ≤ symbol ∧ e_codes e !! Z.to_nat symbol = Some hc ∧ Size hc ≠ 0.

(** Sums over a length sequence. *)
Definition sumOf (f : Z → Z) (l : list Z) : Z :=
  foldr (fun x acc => f x + acc) 0 l.

(** The code space that a length sequence consumes in a tree of depth
    [maxSize]: the sum of [2^(maxSize - length)] over the live symbols. *)
Definition codeSpace (maxSize : Z) (sizes : list Z) : Z :=
  sumOf (fun size => if bool_decide (size = 0) then 0 else 2 ^ (maxSize - size))
        sizes.

(** The number of live symbols, the number of live symbols of length [b],
    and the weight, in a tree of depth [b], of the symbols with a shorter
    length: the first canonical code of length [b]. *)
Definition live (sizes : list Z) : Z :=
  sumOf (fun size => if bool_decide (size = 0) then 0 else 1) sizes.

Definition cnt (b : Z) (sizes : list Z) : Z :=
  sumOf (fun size => if bool_decide (size = b ∧ size ≠ 0) then 1 else 0) sizes.

Definition firstCode (b : Z) (sizes : list Z) : Z :=
  sumOf (fun size => if bool_decide (0 < size < b) then 2 ^ (b - size) else 0)
        sizes.

(** A length sequence as [Decoder.Init] can process it: every entry indexes
    the arrays of [maxBitsPerCode] counters. *)
Definition inRange (sizes : list Z) : Prop :=
  Forall (fun size => 0 ≤ size < maxBitsPerCode) sizes.

(** What the first loop of [Decoder.Init] has computed when it has read the
    entries [pre]. *)
Definition scanInv (pre : list Z) (st : scanState) : Prop :=
  length (countArray st) = Z.to_nat maxBitsPerCode
  ∧ (∀ b, 0 ≤ b < maxBitsPerCode →
          countArray st !! Z.to_nat b = Some (u32 (cnt b pre)))
  ∧ numSymbolsWithNonZeroSizes st = u32 (live pre)
  ∧ inRange pre
  ∧ (0 < live pre →
     (∀ x, x ∈ pre → x ≠ 0 → sc_minSize st ≤ x ≤ sc_maxSize st)
     ∧ sc_minSize st ∈ pre ∧ sc_maxSize st ∈ pre
     ∧ sc_minSize st ≠ 0 ∧ sc_maxSize st ≠ 0).

(** The error kinds of the specification, and the errors of the package
    that fall under each. *)
Inductive errorKind : Type :=
| InvalidLength
| OversubscribedCode
| UndersubscribedCode.

Definition kindOf (e : error) : errorKind :=
  match e with
  | ErrInvalidLength _ _ => InvalidLength
  | ErrTooMany _ => OversubscribedCode
  | ErrDegenerate expected got =>
      if bool_decide (expected < got) then OversubscribedCode
      else UndersubscribedCode
  end.

Definition fillPair (t : gmap Code decoderData) (p : Z * Code)
  : gmap Code decoderData := fillTable t p.1 p.2.

(** The first-code array while the symbols [pre] have been given their
    codes. *)
Definition nextInv (l pre : list Z) (lo hi : Z) (next : list Z) : Prop :=
  length next = Z.to_nat maxBitsPerCode
  ∧ ∀ b, lo ≤ b ≤ hi →
         next !! Z.to_nat b = Some (u32 (firstCode b l + cnt b pre)).

(** The code, in natural order, of the symbol [i] of length [x]: the first
    code of that length plus the number of earlier symbols of that
    length. *)
Definition naturalCode (l : list Z) (i : nat) (x : Z) : Z :=
  firstCode x l + cnt x (take i l).

(** A code whose [Bits] hold nothing beyond its [Size] bits. *)
Definition normalized (c : Code) : Prop :=
  0 ≤ Size c ∧ 0 ≤ Bits c < 2 ^ Size c.

(** The code without its last bit: what an iteration of [fillTable] moves
    to. *)
Definition parent (c : Code) : Code :=
  MakeCode (Size c - 1) (Bits c mod 2 ^ (Size c - 1)).

(** The codes that can be entered in a table one after the other: distinct
    symbols, no stray bits, none a prefix of another. *)
Definition codesOK (codes : list (Z * Code)) : Prop :=
  NoDup (fst <$> codes)
  ∧ (∀ s c, (s, c) ∈ codes → normalized c ∧ Size c ≤ 32)
  ∧ (∀ s1 c1 s2 c2, (s1, c1) ∈ codes → (s2, c2) ∈ codes → s1 ≠ s2 →
                    ¬ isPrefix c1 c2).

(** The table when the codes [codes] have been entered, the entry of the
    parent of the keys in [skip] being still to be written. *)
Definition tableInvAt (codes : list (Z * Code)) (skip : Code → Prop)
    (t : gmap Code decoderData) : Prop :=
  (∀ s c, (s, c) ∈ codes → t !! c = Some (mkDD s (Size c) (Size c)))
  ∧ (∀ k dd, t !! k = Some dd →
             normalized k ∧ ∃ s c, (s, c) ∈ codes ∧ isPrefix k c)
  ∧ (∀ k dd, t !! k = Some dd → (∀ s c, (s, c) ∈ codes → c ≠ k) →
             dd_symbol dd = InvalidSymbol)
  ∧ (∀ k dd, t !! k = Some dd → 0 < Size k → ¬ skip k →
             ∃ ddp, t !! parent k = Some ddp
                    ∧ dd_minSize ddp ≤ dd_minSize dd
                    ∧ dd_maxSize dd ≤ dd_maxSize ddp).

Definition tableInv (codes : list (Z * Code)) (t : gmap Code decoderData)
  : Prop := tableInvAt codes (fun _ => False) t.

(** [2^19] entries of length 1 followed by [2^14] entries of length 14: the
    code space they consume is [2^32 + 2^14]. *)
Definition overflowSizes : list Z :=
  1 :: 1 :: 1 :: replicate (Z.to_nat 524285) 1 ++ replicate (Z.to_nat 16384) 14.

(** The slice [codes] when the sizes have been copied into it. *)
Definition sizedCodes (sizes : list Z) : list Code :=
  (fun size => MakeCode size 0) <$> sizes.

(** The live symbols with their sizes, in the order of the symbols: the
    slice [sorted] before it is sorted. *)
Fixpoint liveItems (symbol : Z) (sizes : list Z) : list symbolAndSize :=
  match sizes with
  | [] => []
  | size :: rest =>
      (if bool_decide (size = 0) then [] else [mkSS symbol size])
        ++ liveItems (symbol + 1) rest
  end.

(** The order of [bySize.Less], made reflexive. *)
Definition ssLe (a b : symbolAndSize) : Prop :=
  ss_size a < ss_size b
  ∨ (ss_size a = ss_size b ∧ ss_symbol a ≤ ss_symbol b).

(** The code, in natural order, that the walk gives to a symbol of size
    [b] when it has been through the symbols [done]. *)
Definition weight (b : Z) (done : list symbolAndSize) : Z :=
  sumOf (fun x => 2 ^ (b - x)) (ss_size <$> done).

(** The state of the walk when it has been through [done]. *)
Definition walkInv (done : list symbolAndSize) (st : walkState) : Prop :=
  w_nextCode st = weight (w_lastSize st) done
  ∧ (∀ d, d ∈ done → ss_size d ≤ w_lastSize st)
  ∧ 0 ≤ w_lastSize st ≤ maxBitsPerCode
  ∧ w_nextCode st ≤ 2 ^ w_lastSize st.

(** The slice [codes] at the end of a walk that did not fail. *)
Fixpoint walked (codes : list Code) (done rest : list symbolAndSize)
  : list Code :=
  match rest with
  | [] => codes
  | item :: r =>
      walked (<[Z.to_nat (ss_symbol item) :=
                  MakeCode (ss_size item)
                    (reverseBits (ss_size item) (weight (ss_size item) done))]>
                codes)
             (done ++ [item]) r
  end.

(** The symbols of [items] index entries of [codes] that hold their
    sizes. *)
Definition slotsOK (codes : list Code) (items : list symbolAndSize) : Prop :=
  ∀ it, it ∈ items →
        0 ≤ ss_symbol it
        ∧ (Size <$> codes) !! Z.to_nat (ss_symbol it) = Some (ss_size it).

(** The symbols in the order in which [secondPass] walks them. *)
Definition sortedItems (sizes : list Z) : list symbolAndSize :=
  bySize_Sort (liveItems 0 sizes).

(** Every symbol of [rest] finds room for its code. *)
Fixpoint allFit (done rest : list symbolAndSize) : Prop :=
  match rest with
  | [] => True
  | item :: r =>
      weight (ss_size item) done < 2 ^ ss_size item
      ∧ allFit (done ++ [item]) r
  end.

(** The bounds of every entry of the table are the lengths of two of the
    codes below the key. *)
Definition attained (codes : list (Z * Code)) (t : gmap Code decoderData)
  : Prop :=
  ∀ k dd, t !! k = Some dd →
    (∃ s c, (s, c) ∈ codes ∧ isPrefix k c ∧ Size c = dd_minSize dd)
    ∧ (∃ s c, (s, c) ∈ codes ∧ isPrefix k c ∧ Size c = dd_maxSize dd).

(** The room that the symbol [r] takes, in codes of length [x], below the
    code of the symbol [s] of length [x]: [r] comes before [s] in the order
    of [bySize.Less]. *)
Definition before (x s : Z) (r : symbolAndSize) : Z :=
  if bool_decide (ss_size r < x ∨ (ss_size r = x ∧ ss_symbol r < s))
  then 2 ^ (x - ss_size r) else 0.

(** The number that a string of binary digits writes, most significant
    digit first. *)
Fixpoint parseDigits (acc : Z) (s : string) : Z :=
  match s with
  | EmptyString => acc
  | String c s' =>
      parseDigits (2 * acc + (if Ascii.eqb c "1" then 1 else 0)) s'
  end.

(** A tree of symbols: natural symbols at the leaves, synthetic symbols at
    the inner nodes. *)
Inductive tree : Type :=
| Leaf (s : Z)
| Node (s : Z) (l r : tree).

Definition root (t : tree) : Z :=
  match t with
  | Leaf s => s
  | Node s _ _ => s
  end.

Fixpoint leaves (t : tree) : list Z :=
  match t with
  | Leaf s => [s]
  | Node _ l r => leaves l ++ leaves r
  end.

Fixpoint internals (t : tree) : list Z :=
  match t with
  | Leaf _ => []
  | Node s l r => s :: internals l ++ internals r
  end.

(** The leaves of a tree with their depths, from left to right; [d] is the
    depth of the root. *)
Fixpoint depths (d : Z) (t : tree) : list (Z * Z) :=
  match t with
  | Leaf s => [(s, d)]
  | Node _ l r => depths (d + 1) l ++ depths (d + 1) r
  end.

(** The tree [t] is the one that the slice [syntheticSymbols] describes
    below the symbol [root t]. *)
Fixpoint isTree (syn : list syntheticSymbol) (t : tree) : Prop :=
  match t with
  | Leaf s => 0 ≤ s
  | Node s l r =>
      MinInt32 ≤ s < 0
      ∧ syn !! Z.to_nat (s - MinInt32) = Some (mkSyn (root l) (root r))
      ∧ isTree syn l ∧ isTree syn r
  end.

(** The heap of [firstPass] holds the roots of a forest over the symbols
    [syms], whose inner nodes are the synthetic symbols made so far. *)
Definition forestInv (syms : list Z) (h : list symbolAndFreq)
    (syn : list syntheticSymbol) (forest : list tree) : Prop :=
  Forall (isTree syn) forest
  ∧ root <$> forest ≡ₚ sf_symbol <$> h
  ∧ forest ≫= leaves ≡ₚ syms
  ∧ length (forest ≫= internals) = length syn.

Definition withStack (st : list stackItem) (tw : treeWalk) : treeWalk :=
  mkTree st (tw_codes tw) (tw_hasMinMax tw) (tw_minSize tw) (tw_maxSize tw).

(** What [processChild] does for the natural symbol [p.1] when the stack
    holds [p.2] items. *)
Definition leafStep (tw : treeWalk) (p : Z * Z) : result treeWalk :=
  let size := u8 p.2 in
  codes ← setSize (tw_codes tw) p.1 size;
  let '(mn, mx) :=
    if negb (tw_hasMinMax tw) then (size, size)
    else if bool_decide (tw_minSize tw > size) then (size, tw_maxSize tw)
    else if bool_decide (tw_maxSize tw < size) then (tw_minSize tw, size)
    else (tw_minSize tw, tw_maxSize tw) in
  Ok (mkTree (tw_stack tw) codes true mn mx).

(** The sizes when the leaves [D], given with their depths, have been
    visited. *)
Definition sizesOf (sizes : list Z) (D : list (Z * Z)) : list Z :=
  foldl (fun acc p => <[Z.to_nat p.1 := u8 p.2]> acc) sizes D.

(** The nodes that [Encoder.Init] collects: the symbols of nonzero
    frequency, in the order of the symbols. *)
Fixpoint nodesFrom (symbol : Z) (freqs : list Z) : list symbolAndFreq :=
  match freqs with
  | [] => []
  | f :: rest =>
      (if bool_decide (f = 0) then [] else [mkSF symbol f])
        ++ nodesFrom (symbol + 1) rest
  end.

(** The number by which [freqHeap.Less] compares two nodes: the frequency
    first, [uint32(symbol)] second. *)
Definition keyOf (a : symbolAndFreq) : Z :=
  sf_freq a * 2 ^ 32 + u32 (sf_symbol a).

(** The entries [0 .. n-1] of [h] are ordered as a heap below the parents
    [lo] and above: no child is less than its parent [(c-1)/2]. *)
Definition heapFrom (lo n : nat) (h : list symbolAndFreq) : Prop :=
  ∀ c, (0 < c < n)%nat → (lo ≤ (c - 1) / 2)%nat →
       keyOf (h !!! ((c - 1) / 2)%nat) ≤ keyOf (h !!! c).

Definition isHeap (h : list symbolAndFreq) : Prop := heapFrom 0 (length h) h.

(** The heap while [down] holds the entry [i] that may be greater than its
    children. *)
Definition holeDown (lo n : nat) (h : list symbolAndFreq) (i : nat) : Prop :=
  (∀ c, (0 < c < n)%nat → (lo ≤ (c - 1) / 2)%nat → ((c - 1) / 2)%nat ≠ i →
        keyOf (h !!! ((c - 1) / 2)%nat) ≤ keyOf (h !!! c))
  ∧ ((0 < i)%nat → (lo ≤ (i - 1) / 2)%nat →
     ∀ c, (0 < c < n)%nat → ((c - 1) / 2)%nat = i →
          keyOf (h !!! ((i - 1) / 2)%nat) ≤ keyOf (h !!! c)).

(** The heap while [up] holds the entry [j] that may be less than its
    parent. *)
Definition holeUp (n : nat) (h : list symbolAndFreq) (j : nat) : Prop :=
  (∀ c, (0 < c < n)%nat → c ≠ j →
        keyOf (h !!! ((c - 1) / 2)%nat) ≤ keyOf (h !!! c))
  ∧ ((0 < j)%nat →
     ∀ c, (0 < c < n)%nat → ((c - 1) / 2)%nat = j →
          keyOf (h !!! ((j - 1) / 2)%nat) ≤ keyOf (h !!! c)).

(** * The scenarios of the specification *)

Definition scenarioA : list Z := [4; 4; 3; 3; 3; 1].
Definition scenarioB : list Z := [5; 9; 12; 13; 16; 45].

(** Frequencies [1, 1, 2, 4, ..., 2^16], 18 of them: the tree is a chain of
    depth 17. *)
Definition deepFrequencies : list Z :=
  [1; 1; 2; 4; 8; 16; 32; 64; 128; 256; 512; 1024; 2048; 4096; 8192; 16384;
   32768; 65536].

(** C5.  Scenario A: the length sequence [4,4,3,3,3,1] gives symbol 5 the
    code 0, symbols 2, 3, 4 the codes 001, 101, 011 and symbols 0, 1 the
    codes 0111, 1111, with MinSize 1 and MaxSize 4, in the Encoder and in
    the Decoder built from it. *)
Theorem scenario_A_codes :
  (∃ e, Encoder_InitFromSizes scenarioA = Ok e
        ∧ Code_String <$> e_codes e
          = ["0111"; "1111"; "001"; "101"; "011"; "0"]%string
        ∧ e_codes e = [MakeCode 4 7; MakeCode 4 15; MakeCode 3 1;
                       MakeCode 3 5; MakeCode 3 3; MakeCode 1 0]
        ∧ Encoder_MinSize e = 1 ∧ Encoder_MaxSize e = 4)
  ∧ (∃ d, Decoder_Init scenarioA = Ok d
        ∧ Decoder_codes scenarioA
          = [(0, MakeCode 4 7); (1, MakeCode 4 15); (2, MakeCode 3 1);
             (3, MakeCode 3 5); (4, MakeCode 3 3); (5, MakeCode 1 0)]
        ∧ Code_String <$> (snd <$> Decoder_codes scenarioA)
          = ["0111"; "1111"; "001"; "101"; "011"; "0"]%string
        ∧ Decoder_Decode d (MakeCode 1 0) = (5, 1, 1)
        ∧ Decoder_Decode d (MakeCode 3 1) = (2, 3, 3)
        ∧ Decoder_Decode d (MakeCode 3 5) = (3, 3, 3)
        ∧ Decoder_Decode d (MakeCode 3 3) = (4, 3, 3)
        ∧ Decoder_Decode d (MakeCode 4 7) = (0, 4, 4)
        ∧ Decoder_Decode d (MakeCode 4 15) = (1, 4, 4)
        ∧ Decoder_MinSize d = 1 ∧ Decoder_MaxSize d = 4).
Proof.
  split.
  - eexists. split; [vm_compute; reflexivity|]. vm_compute. tauto.
  - eexists. split; [vm_compute; reflexivity|]. vm_compute. tauto.
Qed.

(** C6.  Scenario B: [Encoder.Init] with 6 symbols and the frequencies
    [5,9,12,13,16,45] goes through [firstPass] (more than two live symbols)
    and derives the lengths [4,4,3,3,3,1]. *)
Theorem scenario_B_lengths :
  (∃ tw, firstPass (replicate 6 (MakeCode 0 0))
           [mkSF 0 5; mkSF 1 9; mkSF 2 12; mkSF 3 13; mkSF 4 16; mkSF 5 45] 0 0
         = WalkDone tw
         ∧ Size <$> tw_codes tw = scenarioA
         ∧ tw_minSize tw = 1 ∧ tw_maxSize tw = 4)
  ∧ ∃ e, Encoder_Init 6 scenarioB = InitDone (mkInitOut e None)
         ∧ Encoder_SizeBySymbol e = scenarioA.
Proof.
  split.
  - eexists. split; [vm_compute; reflexivity|]. vm_compute. tauto.
  - eexists. split; [vm_compute; reflexivity|]. vm_compute. reflexivity.
Qed.

(** C3.  A declared length equal to [maxBitsPerCode] lies in
    [0..maxBitsPerCode] and is not rejected by the test
    [size > maxBitsPerCode]; the next statement, [countArray[size]++],
    indexes an array of [maxBitsPerCode] entries with it: [Decoder.Init]
    panics on the sequence [[maxBitsPerCode]]. *)
Theorem Decoder_Init_length_maxBitsPerCode :
  Forall (fun size => 0 ≤ size ≤ maxBitsPerCode) [maxBitsPerCode]
  ∧ bool_decide (maxBitsPerCode > maxBitsPerCode) = false
  ∧ Decoder_Init [maxBitsPerCode]
    = Panic (IndexOutOfRange maxBitsPerCode maxBitsPerCode).
Proof.
  split; [repeat constructor; unfold maxBitsPerCode; lia|].
  split; [apply bool_decide_eq_false_2; lia|].
  vm_compute. reflexivity.
Qed.

(** C4.  With the 18 frequencies [1, 1, 2, 4, ..., 2^16] the derived
    lengths reach 17, above [maxBitsPerCode]; [secondPass] returns the
    error, [Encoder.Init] discards it and returns an Encoder in which no
    code has been assigned. *)
Theorem Encoder_Init_discards_error :
  ∃ e, Encoder_Init 18 deepFrequencies
       = InitDone (mkInitOut e (Some (ErrInvalidLength 17 maxBitsPerCode)))
       ∧ Encoder_SizeBySymbol e
         = [17; 17; 16; 15; 14; 13; 12; 11; 10; 9; 8; 7; 6; 5; 4; 3; 2; 1]
       ∧ Forall (fun hc => Bits hc = 0) (e_codes e)
       ∧ Encoder_MaxSize e = 17
       ∧ maxBitsPerCode < Encoder_MaxSize e.
Proof.
  eexists. split; [vm_compute; reflexivity|].
  split; [vm_compute; reflexivity|].
  split; [repeat constructor|].
  split; [vm_compute; reflexivity|].
  vm_compute. reflexivity.
Qed.

(** C8.  The Encoder that [Encoder.Init] returns for the 18 frequencies
    [1, 1, 2, 4, ..., 2^16] has 18 live symbols, and the code of symbol 17
    is a bit-prefix of the code of symbol 16. *)
Theorem Encoder_Init_not_prefix_free :
  ∃ e err, Encoder_Init 18 deepFrequencies = InitDone (mkInitOut e err)
       ∧ live (Encoder_SizeBySymbol e) = 18
       ∧ Encoder_code e 17 (MakeCode 1 0)
       ∧ Encoder_code e 16 (MakeCode 2 0)
       ∧ isPrefix (MakeCode 1 0) (MakeCode 2 0).
Proof.
  eexists _, _. split; [vm_compute; reflexivity|].
  split; [vm_compute; reflexivity|].
  repeat split; try done.
Qed.

(** C1.  [Decoder.Init] accepts the all-zero sequence [0, 0]; the Decoder
    it leaves has forgotten the sequence, and converting it to an Encoder
    panics on [sorted[0]] in [secondPass]. *)
Theorem roundtrip_all_zero :
  Decoder_Init [0; 0] = Ok emptyDecoder
  ∧ Decoder_SizeBySymbol emptyDecoder ≠ [0; 0]
  ∧ Decoder_Encoder emptyDecoder = Panic (IndexOutOfRange 0 0)
  ∧ Encoder_InitFromSizes [0; 0] = Panic (IndexOutOfRange 0 0).
Proof. repeat split; try (vm_compute; reflexivity). discriminate. Qed.

(** * Saturating addition in the Tree Builder *)




(** * The code with no symbols *)

Lemma forM_sizesStep_zeros sizes st :
  Forall (fun x => x = 0) sizes →
  forM sizesStep sizes st
  = Ok (mkSizes (sz_symbol st + Z.of_nat (length sizes)) (sz_codes st)
                (sz_hasMinMax st) (sz_minSize st) (sz_maxSize st)).
Proof.
  intros H. revert st. induction H as [|x l -> _ IH]; intros st.
  - destruct st; cbn. do 2 f_equal. lia.
  - change (forM sizesStep (0 :: l) st)
      with (forM sizesStep l
              (mkSizes (sz_symbol st + 1) (sz_codes st) (sz_hasMinMax st)
                       (sz_minSize st) (sz_maxSize st))).
    rewrite IH. cbn [sz_symbol sz_codes sz_hasMinMax sz_minSize sz_maxSize length].
    do 2 f_equal. lia.
Qed.

Lemma forM_collectStep_zeros codes st :
  Forall (fun hc => Size hc = 0) codes →
  forM collectStep codes st
  = Ok (mkCollect (co_symbol st + Z.of_nat (length codes)) (co_sorted st)).
Proof.
  intros H. revert st. induction H as [|hc l Hz _ IH]; intros st.
  - destruct st; cbn. do 2 f_equal. lia.
  - assert (collectStep st hc
            = Ok (mkCollect (co_symbol st + 1) (co_sorted st))) as Hstep.
    { unfold collectStep. by rewrite Hz. }
    cbn [forM]. rewrite Hstep.
    change (forM collectStep l (mkCollect (co_symbol st + 1) (co_sorted st))
            = Ok (mkCollect (co_symbol st + Z.of_nat (length (hc :: l)))
                            (co_sorted st))).
    rewrite IH. cbn [co_symbol co_sorted length]. do 2 f_equal. lia.
Qed.

Lemma secondPass_no_symbols codes :
  Forall (fun hc => Size hc = 0) codes →
  secondPass codes = Panic (IndexOutOfRange 0 0).
Proof.
  intros H. unfold secondPass. by rewrite forM_collectStep_zeros.
Qed.

Lemma forM_scanStep_zeros sizes st :
  Forall (fun x => x = 0) sizes → forM scanStep sizes st = Ok st.
Proof.
  intros H. induction H as [|x l -> _ IH]; [done|]. exact IH.
Qed.

Lemma Encoder_InitFromSizes_zeros sizes :
  Forall (fun x => x = 0) sizes →
  Encoder_InitFromSizes sizes = Panic (IndexOutOfRange 0 0).
Proof.
  intros H.
  unfold Encoder_InitFromSizes. rewrite forM_sizesStep_zeros by done. cbn.
  rewrite secondPass_no_symbols; [done|].
  apply Forall_forall. intros hc Hin.
  by apply elem_of_replicate in Hin as [-> _].
Qed.



(** * Loops and arrays *)

Lemma forM_app {A St} (body : St → A → result St) l1 l2 st :
  forM body (l1 ++ l2) st = (st' ← forM body l1 st; forM body l2 st').
Proof.
  revert st. induction l1 as [|x l1 IH]; intros st; [done|].
  cbn [forM app]. destruct (body st x) as [st1| |]; cbn; [apply IH|done|done].
Qed.

(** An invariant that speaks of the entries read so far holds at the end of
    the loop when every iteration keeps it. *)
Lemma forM_inv {A St} (body : St → A → result St) (I : list A → St → Prop) :
  (∀ pre x st st', I pre st → body st x = Ok st' → I (pre ++ [x]) st') →
  ∀ l pre st st', I pre st → forM body l st = Ok st' → I (pre ++ l) st'.
Proof.
  intros Hstep l. induction l as [|x l IH]; intros pre st st' HI Hrun.
  - cbn in Hrun. injection Hrun as <-. by rewrite app_nil_r.
  - cbn [forM] in Hrun. destruct (body st x) as [st1| |] eqn:Hb; try done.
    cbn in Hrun. rewrite (assoc_L (++) pre [x] l : pre ++ x :: l = (pre ++ [x]) ++ l).
    eapply IH; [|exact Hrun]. eapply Hstep; eauto.
Qed.

Lemma index_Ok {A} (a : list A) i x :
  index a i = Ok x ↔ 0 ≤ i ∧ a !! Z.to_nat i = Some x.
Proof.
  unfold index. case_bool_decide as Hi.
  - destruct (a !! Z.to_nat i).
    + split; [intros [= ->]; done|intros [_ [= ->]]; done].
    + split; [done|intros [_ [=]]].
  - split; [done|intros [? _]; done].
Qed.

Lemma store_Ok {A} (a : list A) i v a' :
  store a i v = Ok a' ↔
  0 ≤ i < Z.of_nat (length a) ∧ a' = <[Z.to_nat i := v]> a.
Proof.
  unfold store. case_bool_decide as Hi.
  - split; [intros [= <-]; done|intros [_ ->]; done].
  - split; [done|intros [? _]; done].
Qed.

Lemma bind_Ok {A B} (r : result A) (k : A → result B) b :
  (x ← r; k x) = Ok b ↔ ∃ a, r = Ok a ∧ k a = Ok b.
Proof.
  destruct r as [a| |]; cbn.
  - split; [eauto|intros (a' & [= <-] & H); done].
  - split; [done|intros (a' & [=] & _)].
  - split; [done|intros (a' & [=] & _)].
Qed.

(** * Sums over length sequences *)

Lemma sumOf_nil f : sumOf f [] = 0.
Proof. done. Qed.

Lemma sumOf_cons f x l : sumOf f (x :: l) = f x + sumOf f l.
Proof. done. Qed.

Lemma sumOf_app f l1 l2 : sumOf f (l1 ++ l2) = sumOf f l1 + sumOf f l2.
Proof.
  induction l1 as [|x l1 IH]; [done|].
  cbn [app]. rewrite !sumOf_cons, IH. lia.
Qed.

Lemma sumOf_snoc f l x : sumOf f (l ++ [x]) = sumOf f l + f x.
Proof. rewrite sumOf_app, sumOf_cons, sumOf_nil. lia. Qed.

Lemma sumOf_le f g l :
  (∀ x, x ∈ l → f x ≤ g x) → sumOf f l ≤ sumOf g l.
Proof.
  induction l as [|x l IH]; intros H; [done|].
  rewrite !sumOf_cons.
  assert (f x ≤ g x) by (apply H; left).
  assert (sumOf f l ≤ sumOf g l) by (apply IH; intros; apply H; by right).
  lia.
Qed.

Lemma sumOf_ext f g l :
  (∀ x, x ∈ l → f x = g x) → sumOf f l = sumOf g l.
Proof.
  intros H. apply Z.le_antisymm; apply sumOf_le; intros x Hx;
    rewrite (H x Hx); lia.
Qed.

Lemma sumOf_nonneg f l : (∀ x, x ∈ l → 0 ≤ f x) → 0 ≤ sumOf f l.
Proof.
  intros H. transitivity (sumOf (fun _ => 0) l).
  - clear H. induction l; [done|]. rewrite sumOf_cons. lia.
  - by apply sumOf_le.
Qed.

Lemma sumOf_zero f l : (∀ x, x ∈ l → f x = 0) → sumOf f l = 0.
Proof.
  induction l as [|x l IH]; intros H; [done|].
  rewrite sumOf_cons, (H x) by left. rewrite IH; [done|].
  intros; apply H; by right.
Qed.

Lemma sumOf_scale k f l : sumOf (fun x => k * f x) l = k * sumOf f l.
Proof.
  induction l as [|x l IH]; [cbn; lia|]. rewrite !sumOf_cons, IH. lia.
Qed.

Lemma sumOf_plus f g l :
  sumOf (fun x => f x + g x) l = sumOf f l + sumOf g l.
Proof.
  induction l as [|x l IH]; [done|]. rewrite !sumOf_cons, IH. lia.
Qed.

Lemma sumOf_Permutation f l1 l2 : l1 ≡ₚ l2 → sumOf f l1 = sumOf f l2.
Proof.
  induction 1 as [|x l1 l2 _ IH|x y l|l1 l2 l3 _ IH1 _ IH2].
  - done.
  - rewrite !sumOf_cons. lia.
  - rewrite !sumOf_cons. lia.
  - congruence.
Qed.

Lemma sumOf_repeat f x n : sumOf f (repeat x n) = Z.of_nat n * f x.
Proof.
  induction n as [|n IH]; [done|].
  cbn [repeat]. rewrite sumOf_cons, IH. lia.
Qed.

Lemma sumOf_elem f l x :
  (∀ y, y ∈ l → 0 ≤ f y) → x ∈ l → f x ≤ sumOf f l.
Proof.
  intros Hpos Hin. apply list_elem_of_split in Hin as (l1 & l2 & ->).
  rewrite sumOf_app, sumOf_cons.
  assert (0 ≤ sumOf f l1).
  { apply sumOf_nonneg. intros; apply Hpos. apply elem_of_app. by left. }
  assert (0 ≤ sumOf f l2).
  { apply sumOf_nonneg. intros; apply Hpos. apply elem_of_app. right. by right. }
  lia.
Qed.

(** * Arithmetic of canonical codes *)

Lemma cnt_nonneg b l : 0 ≤ cnt b l.
Proof. apply sumOf_nonneg. intros; case_bool_decide; lia. Qed.

Lemma live_nonneg l : 0 ≤ live l.
Proof. apply sumOf_nonneg. intros; case_bool_decide; lia. Qed.

Lemma firstCode_nonneg b l : 0 ≤ firstCode b l.
Proof. apply sumOf_nonneg. intros; case_bool_decide; lia. Qed.

Lemma cnt_le_live b l : cnt b l ≤ live l.
Proof. apply sumOf_le. intros; repeat case_bool_decide; lia. Qed.

Lemma live_le_length l : live l ≤ Z.of_nat (length l).
Proof.
  induction l as [|x l IH]; [done|].
  unfold live in *. rewrite sumOf_cons. cbn [length]. case_bool_decide; lia.
Qed.

Lemma live_zero l x : live l = 0 → x ∈ l → x = 0.
Proof.
  intros Hz Hin.
  pose proof (sumOf_elem (fun size => if bool_decide (size = 0) then 0 else 1)
                l x) as H.
  cbn beta in H. fold (live l) in H. rewrite Hz in H.
  case_bool_decide; [done|].
  exfalso. apply (Z.lt_irrefl 0), Z.lt_le_trans with 1; [lia|].
  apply H; [|done]. intros; case_bool_decide; lia.
Qed.

Lemma live_pos l x : x ∈ l → x ≠ 0 → 0 < live l.
Proof.
  intros Hin Hx. pose proof (live_nonneg l).
  destruct (decide (live l = 0)) as [Hz|]; [|lia].
  by pose proof (live_zero _ _ Hz Hin).
Qed.

Lemma cnt_elem b l : b ∈ l → b ≠ 0 → 0 < cnt b l.
Proof.
  intros Hin Hb.
  pose proof (sumOf_elem
    (fun size => if bool_decide (size = b ∧ size ≠ 0) then 1 else 0) l b) as H.
  cbn beta in H. fold (cnt b l) in H.
  rewrite bool_decide_eq_true_2 in H by done.
  apply Z.lt_le_trans with 1; [lia|].
  apply H; [|done]. intros; case_bool_decide; lia.
Qed.

Lemma cnt_zero_absent b l : b ∉ l → cnt b l = 0.
Proof.
  intros Hb. apply sumOf_zero.
  intros x Hx. rewrite bool_decide_eq_false_2; [done|].
  intros [-> _]. done.
Qed.

Lemma firstCode_succ b l :
  0 ≤ b → firstCode (b + 1) l = 2 * (firstCode b l + cnt b l).
Proof.
  intros Hb. unfold firstCode, cnt.
  rewrite <- sumOf_plus, <- sumOf_scale. apply sumOf_ext. intros x _.
  repeat case_bool_decide; try lia.
  - replace (b + 1 - x) with (Z.succ (b - x)) by lia.
    rewrite Z.pow_succ_r by lia. lia.
  - replace (b + 1 - x) with 1 by lia. lia.
Qed.

Lemma firstCode_below b l :
  (∀ x, x ∈ l → x ≠ 0 → b ≤ x) → firstCode b l = 0.
Proof.
  intros H. apply sumOf_zero.
  intros x Hx. case_bool_decide as Hc; [|done].
  specialize (H x Hx). lia.
Qed.

Lemma codeSpace_split m l :
  (∀ x, x ∈ l → 0 ≤ x ≤ m) →
  codeSpace m l = firstCode m l + cnt m l.
Proof.
  intros H. unfold codeSpace, firstCode, cnt.
  rewrite <- sumOf_plus. apply sumOf_ext. intros x Hx.
  specialize (H x Hx).
  repeat case_bool_decide; try lia.
  replace (m - x) with 0 by lia. done.
Qed.

Lemma firstCode_bound b l :
  1 ≤ b → (∀ x, x ∈ l → 0 ≤ x) →
  firstCode b l ≤ 2 ^ (b - 1) * live l.
Proof.
  intros Hb H. unfold firstCode, live. rewrite <- sumOf_scale.
  apply sumOf_le. intros x Hx. specialize (H x Hx).
  repeat case_bool_decide; try lia.
  rewrite Z.mul_1_r. apply Z.pow_le_mono_r; lia.
Qed.

Lemma firstCode_mono b1 b2 l :
  0 < b1 < b2 →
  (firstCode b1 l + cnt b1 l) * 2 ^ (b2 - b1) ≤ firstCode b2 l.
Proof.
  intros Hb. unfold firstCode, cnt.
  rewrite <- sumOf_plus, Z.mul_comm, <- sumOf_scale.
  apply sumOf_le. intros x _.
  repeat case_bool_decide; try lia.
  - rewrite Z.add_0_r, <- Z.pow_add_r by lia.
    replace (b2 - b1 + (b1 - x)) with (b2 - x) by lia. done.
  - replace x with b1 by lia. lia.
Qed.

Lemma firstCode_codeSpace b m l :
  0 < b ≤ m →
  (firstCode b l + cnt b l) * 2 ^ (m - b) ≤ codeSpace m l.
Proof.
  intros Hb. unfold firstCode, cnt, codeSpace.
  rewrite <- sumOf_plus, Z.mul_comm, <- sumOf_scale.
  apply sumOf_le. intros x _.
  assert (0 ≤ 2 ^ (m - x)) by (apply Z.pow_nonneg; lia).
  repeat case_bool_decide; try lia.
  - rewrite Z.add_0_r, <- Z.pow_add_r by lia.
    replace (m - b + (b - x)) with (m - x) by lia. done.
  - replace x with b by lia. lia.
Qed.

(** * The scan of the lengths in [Decoder.Init] *)

#[local] Set Warnings "-clear-no-such-hyp".

Lemma u32_idemp_add a b : u32 (u32 a + b) = u32 (a + b).
Proof. unfold u32. by rewrite Zplus_mod_idemp_l. Qed.

Lemma u32_small a : 0 ≤ a < 2 ^ 32 → u32 a = a.
Proof. apply Z.mod_small. Qed.

Lemma scanStep_inv pre x st st' :
  Z.of_nat (length (pre ++ [x])) < 2 ^ 32 →
  scanInv pre st → scanStep st x = Ok st' → scanInv (pre ++ [x]) st'.
Proof.
  intros Hlen (Hl & Hc & Hn & Hr & Hmm) Hstep.
  rewrite length_app in Hlen. cbn [length] in Hlen.
  pose proof (live_le_length pre) as Hlive. pose proof (live_nonneg pre) as Hlive0.
  unfold scanStep in Hstep.
  case_bool_decide as Hx0.
  - injection Hstep as <-. subst x.
    assert (∀ b, cnt b (pre ++ [0]) = cnt b pre) as Hcnt.
    { intros b. unfold cnt. rewrite sumOf_snoc.
      rewrite bool_decide_eq_false_2 by (intros [_ ?]; done). apply Z.add_0_r. }
    assert (live (pre ++ [0]) = live pre) as Hlv.
    { unfold live. rewrite sumOf_snoc. apply Z.add_0_r. }
    split; [done|]. split; [intros b Hb; rewrite Hcnt; by apply Hc|].
    split; [by rewrite Hlv|].
    split; [apply Forall_app; split; [done|]; repeat constructor; done|].
    rewrite Hlv. intros Hpos. destruct (Hmm Hpos) as (H1 & H2 & H3 & H4 & H5).
    split; [|set_solver].
    intros y Hy Hy0. apply H1; [|done]. set_solver.
  - case_bool_decide as Hx15; [done|].
    match type of Hstep with context [let '(_, _) := ?e in _] =>
      destruct e as [mn mx] eqn:Hmnmx end.
    apply bind_Ok in Hstep as (c & Hidx & Hstep).
    apply bind_Ok in Hstep as (counts & Hst & Hstep).
    injection Hstep as <-.
    apply index_Ok in Hidx as (Hx & Hlk).
    apply store_Ok in Hst as (Hxr & ->).
    rewrite Hl in Hxr.
    assert (0 ≤ x < maxBitsPerCode) as Hxin by lia.
    rewrite (Hc x Hxin) in Hlk. injection Hlk as <-.
    assert (∀ b, cnt b (pre ++ [x]) = cnt b pre + if bool_decide (b = x) then 1 else 0) as Hcnt.
    { intros b. unfold cnt. rewrite sumOf_snoc. f_equal.
      repeat case_bool_decide; try done; naive_solver. }
    assert (live (pre ++ [x]) = live pre + 1) as Hlv.
    { unfold live. rewrite sumOf_snoc. by rewrite bool_decide_eq_false_2. }
    unfold scanInv.
    cbn [countArray numSymbolsWithNonZeroSizes sc_minSize sc_maxSize].
    split; [by rewrite length_insert|].
    split.
    { intros b Hb. rewrite Hcnt. destruct (decide (b = x)) as [->|Hbx].
      - rewrite bool_decide_eq_true_2 by done.
        rewrite list_lookup_insert_eq by lia. by rewrite u32_idemp_add.
      - rewrite bool_decide_eq_false_2 by done.
        rewrite list_lookup_insert_ne by lia. rewrite Z.add_0_r. by apply Hc. }
    split; [by rewrite Hlv, Hn, u32_idemp_add|].
    split; [apply Forall_app; split; [done|]; repeat constructor; lia|].
    intros _.
    rewrite Hn, u32_small in Hmnmx by lia.
    case_bool_decide as Hfirst.
    + injection Hmnmx as <- <-.
      split; [|set_solver].
      intros y Hy Hy0. apply elem_of_app in Hy as [Hy|Hy].
      * by pose proof (live_zero _ _ Hfirst Hy).
      * apply list_elem_of_singleton in Hy. lia.
    + destruct Hmm as (H1 & H2 & H3 & H4 & H5); [lia|].
      assert (sc_minSize st ≤ sc_maxSize st) by (by apply H1).
      assert (mn ∈ pre ++ [x] ∧ mx ∈ pre ++ [x] ∧ mn ≠ 0 ∧ mx ≠ 0
              ∧ mn ≤ sc_minSize st ∧ sc_maxSize st ≤ mx ∧ mn ≤ x ≤ mx) as Hq.
      { repeat case_bool_decide; injection Hmnmx as <- <-;
          repeat split; try done; try lia; set_solver. }
      destruct Hq as (? & ? & ? & ? & ? & ? & ?).
      split; [|done].
      intros y Hy Hy0. apply elem_of_app in Hy as [Hy|Hy].
      * specialize (H1 y Hy Hy0). lia.
      * apply list_elem_of_singleton in Hy. lia.
Qed.

Lemma scanInit_inv : scanInv [] scanInit.
Proof.
  split; [done|]. split.
  { intros b Hb. unfold scanInit, countArray.
    rewrite lookup_replicate_2; [done|]. unfold maxBitsPerCode in *. lia. }
  split; [done|]. split; [constructor|].
  cbn. lia.
Qed.

Lemma scan_spec l st :
  Z.of_nat (length l) < 2 ^ 32 →
  forM scanStep l scanInit = Ok st → scanInv l st.
Proof.
  intros Hlen Hrun.
  pose proof (forM_inv scanStep
    (fun pre st => Z.of_nat (length pre) < 2 ^ 32 → scanInv pre st)) as H.
  apply (H) with (l := l) (pre := []) (st := scanInit) (st' := st); try done.
  - intros pre x s s' HI Hs Hl. eapply scanStep_inv; [done| |done].
    apply HI. rewrite length_app in Hl. lia.
  - intros _. apply scanInit_inv.
Qed.

Lemma scanStep_total st x :
  0 ≤ x < maxBitsPerCode →
  length (countArray st) = Z.to_nat maxBitsPerCode →
  ∃ st', scanStep st x = Ok st'
         ∧ length (countArray st') = Z.to_nat maxBitsPerCode.
Proof.
  intros Hx Hl. unfold scanStep.
  destruct (decide (x = 0)) as [->|Hx0].
  { rewrite bool_decide_eq_true_2 by done. by eexists. }
  rewrite bool_decide_eq_false_2 by done.
  rewrite bool_decide_eq_false_2 by lia.
  destruct (_ : Z * Z) as [mn mx].
  destruct (lookup_lt_is_Some_2 (countArray st) (Z.to_nat x)) as [c Hc];
    [lia|].
  assert (index (countArray st) x = Ok c) as ->
    by (apply index_Ok; split; [lia|done]).
  cbn. unfold store. rewrite bool_decide_eq_true_2 by lia. cbn.
  eexists. split; [done|]. cbn. by rewrite length_insert.
Qed.

Lemma scan_total l st :
  inRange l → length (countArray st) = Z.to_nat maxBitsPerCode →
  ∃ st', forM scanStep l st = Ok st'.
Proof.
  intros Hr. revert st. induction Hr as [|x l Hx _ IH]; intros st Hl.
  - by eexists.
  - destruct (scanStep_total st x Hx Hl) as (st1 & Hs & Hl1).
    cbn [forM]. rewrite Hs. cbn. by apply IH.
Qed.

Lemma u32_shiftl_1 y : u32 (Z.shiftl (u32 y) 1) = u32 (2 * y).
Proof.
  rewrite Z.shiftl_mul_pow2 by lia. unfold u32.
  rewrite Z.mul_comm, Zmult_mod_idemp_r. done.
Qed.

Lemma nextCodeLoop_spec l counts :
  (∀ b, 0 ≤ b < maxBitsPerCode →
        counts !! Z.to_nat b = Some (u32 (cnt b l))) →
  ∀ n bits next code,
    0 < bits → bits + Z.of_nat n ≤ maxBitsPerCode →
    length next = Z.to_nat maxBitsPerCode →
    code = u32 (firstCode (bits - 1) l) →
    ∃ next',
      nextCodeLoop n bits counts next code
      = Ok (next', u32 (firstCode (bits + Z.of_nat n - 1) l))
      ∧ length next' = Z.to_nat maxBitsPerCode
      ∧ (∀ b, bits ≤ b < bits + Z.of_nat n →
              next' !! Z.to_nat b = Some (u32 (firstCode b l)))
      ∧ (∀ b, 0 ≤ b < bits → next' !! Z.to_nat b = next !! Z.to_nat b).
Proof.
  intros Hc n. induction n as [|n IH]; intros bits next code Hb Hn Hl ->.
  - exists next. cbn [nextCodeLoop]. rewrite Z.add_0_r.
    split; [done|]. split; [done|]. split; [lia|done].
  - cbn [nextCodeLoop].
    assert (index counts (bits - 1) = Ok (u32 (cnt (bits - 1) l))) as ->.
    { apply index_Ok. split; [lia|]. apply Hc. lia. }
    cbn. unfold store. rewrite bool_decide_eq_true_2 by lia. cbn.
    assert (u32 (Z.shiftl (u32 (u32 (firstCode (bits - 1) l)
                                 + u32 (cnt (bits - 1) l))) 1)
            = u32 (firstCode bits l)) as Hcode.
    { rewrite u32_shiftl_1.
      replace bits with (bits - 1 + 1) at 3 by lia.
      rewrite firstCode_succ by lia. unfold u32.
      rewrite <- Zmult_mod_idemp_r, <- Zplus_mod, Zmult_mod_idemp_r.
      done. }
    rewrite Hcode.
    destruct (IH (bits + 1) (<[Z.to_nat bits := u32 (firstCode bits l)]> next)
                 (u32 (firstCode bits l)))
      as (next' & Hrun & Hl' & Hin & Hout).
    { lia. } { lia. } { by rewrite length_insert. }
    { by replace (bits + 1 - 1) with bits by lia. }
    exists next'. split.
    { rewrite Hrun.
      by replace (bits + Z.of_nat (S n) - 1) with (bits + 1 + Z.of_nat n - 1)
        by lia. }
    split; [done|]. split.
    + intros b Hbb. destruct (decide (b = bits)) as [->|].
      * rewrite Hout by lia. rewrite list_lookup_insert_eq by lia. done.
      * apply Hin. lia.
    + intros b Hbb. rewrite Hout by lia.
      rewrite list_lookup_insert_ne by lia. done.
Qed.

Lemma codeSpace_bound m l :
  1 ≤ m → (∀ x, x ∈ l → 0 ≤ x ≤ m) → codeSpace m l ≤ 2 ^ (m - 1) * live l.
Proof.
  intros Hm H. unfold codeSpace, live. rewrite <- sumOf_scale.
  apply sumOf_le. intros x Hx. specialize (H x Hx).
  case_bool_decide; [lia|].
  rewrite Z.mul_1_r. apply Z.pow_le_mono_r; lia.
Qed.

Lemma codeSpace_nonneg m l : 0 ≤ codeSpace m l.
Proof.
  apply sumOf_nonneg. intros x _. case_bool_decide; [done|].
  apply Z.pow_nonneg. lia.
Qed.

Lemma u32_pow2 m : 0 ≤ m < 32 → u32 (Z.shiftl 1 m) = 2 ^ m.
Proof.
  intros Hm. rewrite Z.shiftl_mul_pow2, Z.mul_1_l by lia.
  apply Z.mod_small. split; [apply Z.pow_nonneg; lia|].
  apply Z.pow_lt_mono_r; lia.
Qed.

(** The facts about the live lengths that the scan establishes. *)
Lemma scanInv_bounds l sc :
  scanInv l sc → 0 < live l →
  0 < sc_minSize sc ∧ sc_minSize sc ≤ sc_maxSize sc
  ∧ sc_maxSize sc < maxBitsPerCode
  ∧ (∀ x, x ∈ l → 0 ≤ x ≤ sc_maxSize sc)
  ∧ (∀ x, x ∈ l → x ≠ 0 → sc_minSize sc ≤ x).
Proof.
  intros (_ & _ & _ & Hr & Hmm) Hpos.
  destruct (Hmm Hpos) as (H1 & H2 & H3 & H4 & H5).
  unfold inRange in Hr. rewrite Forall_forall in Hr.
  pose proof (Hr _ H2). pose proof (Hr _ H3).
  pose proof (H1 _ H2 H4).
  repeat split; try lia.
  - by apply Hr.
  - destruct (decide (x = 0)) as [->|Hx]; [lia|]. by apply H1.
  - by apply H1.
Qed.

(** [validate] after the scan: the first code of every length and the test
    of the consumed code space, both modulo [2^32]. *)
Lemma validate_run l :
  Z.of_nat (length l) < 2 ^ 32 → inRange l → 0 < live l →
  ∃ sc next,
    scanInv l sc
    ∧ length next = Z.to_nat maxBitsPerCode
    ∧ (∀ b, sc_minSize sc ≤ b ≤ sc_maxSize sc →
            next !! Z.to_nat b = Some (u32 (firstCode b l)))
    ∧ validate l
      = (let total := u32 (codeSpace (sc_maxSize sc) l) in
         if bool_decide (total = 1 ∧ sc_maxSize sc = 1)
         then Ok (Some (sc, next))
         else if bool_decide (total ≠ 2 ^ sc_maxSize sc)
         then Err (ErrDegenerate (2 ^ sc_maxSize sc) total)
         else Ok (Some (sc, next))).
Proof.
  intros Hlen Hr Hpos.
  destruct (scan_total l scanInit Hr eq_refl) as (sc & Hscan).
  pose proof (scan_spec l sc Hlen Hscan) as Hinv.
  destruct (scanInv_bounds l sc Hinv Hpos) as (Hmin & Hmm & Hmax & Hall & Hlow).
  destruct Hinv as (Hl & Hc & Hn & Hinv').
  pose proof (live_le_length l) as Hll.
  destruct (nextCodeLoop_spec l (countArray sc) Hc
              (Z.to_nat (sc_maxSize sc - sc_minSize sc + 1)) (sc_minSize sc)
              (replicate (Z.to_nat maxBitsPerCode) 0) 0)
    as (next & Hrun & Hnl & Hin & _).
  { done. } { lia. } { by rewrite length_replicate. }
  { rewrite firstCode_below; [done|]. intros x Hx Hx0.
    specialize (Hlow x Hx Hx0). lia. }
  exists sc, next. split; [done|]. split; [done|]. split.
  { intros b Hb. apply Hin. lia. }
  unfold validate. rewrite Hscan. cbn [mbind result_bind].
  rewrite bool_decide_eq_false_2
    by (rewrite Hn; unfold u32; rewrite Z.mod_small; lia).
  rewrite Hrun. cbn [mbind result_bind].
  assert (index (countArray sc) (sc_maxSize sc)
          = Ok (u32 (cnt (sc_maxSize sc) l))) as ->.
  { apply index_Ok. split; [lia|]. apply Hc. lia. }
  cbn [mbind result_bind].
  replace (sc_minSize sc + Z.of_nat (Z.to_nat (sc_maxSize sc - sc_minSize sc + 1)) - 1)
    with (sc_maxSize sc) by lia.
  assert (u32 (u32 (firstCode (sc_maxSize sc) l) + u32 (cnt (sc_maxSize sc) l))
          = u32 (codeSpace (sc_maxSize sc) l)) as ->.
  { rewrite codeSpace_split by done. unfold u32. by rewrite <- Zplus_mod. }
  rewrite u32_pow2 by (unfold maxBitsPerCode in *; lia).
  rewrite Z.shiftl_mul_pow2, Z.mul_1_l by lia.
  done.
Qed.

(** Below [2^19] entries nothing wraps. *)
Lemma codeSpace_no_wrap l m :
  Z.of_nat (length l) < 2 ^ 19 → 1 ≤ m < maxBitsPerCode →
  (∀ x, x ∈ l → 0 ≤ x ≤ m) →
  u32 (codeSpace m l) = codeSpace m l.
Proof.
  intros Hlen Hm Hall. apply Z.mod_small.
  split; [apply codeSpace_nonneg|].
  pose proof (codeSpace_bound m l (proj1 Hm) Hall).
  pose proof (live_le_length l). pose proof (live_nonneg l).
  assert (2 ^ (m - 1) ≤ 2 ^ 13)
    by (apply Z.pow_le_mono_r; unfold maxBitsPerCode in *; lia).
  assert (0 < 2 ^ (m - 1)) by (apply Z.pow_pos_nonneg; lia).
  nia.
Qed.

Lemma firstCode_no_wrap l b :
  Z.of_nat (length l) < 2 ^ 19 → 1 ≤ b < maxBitsPerCode →
  (∀ x, x ∈ l → 0 ≤ x) →
  u32 (firstCode b l) = firstCode b l.
Proof.
  intros Hlen Hb Hall. apply Z.mod_small.
  split; [apply firstCode_nonneg|].
  pose proof (firstCode_bound b l (proj1 Hb) Hall).
  pose proof (live_le_length l). pose proof (live_nonneg l).
  assert (2 ^ (b - 1) ≤ 2 ^ 13)
    by (apply Z.pow_le_mono_r; unfold maxBitsPerCode in *; lia).
  assert (0 < 2 ^ (b - 1)) by (apply Z.pow_pos_nonneg; lia).
  nia.
Qed.

(** * The assignment loop of [Decoder.Init] *)

Lemma takeCode_Ok next x :
  0 ≤ x < maxBitsPerCode → length next = Z.to_nat maxBitsPerCode →
  ∃ code, next !! Z.to_nat x = Some code
          ∧ takeCode next x = Ok (code, <[Z.to_nat x := u32 (code + 1)]> next).
Proof.
  intros Hx Hl.
  destruct (lookup_lt_is_Some_2 next (Z.to_nat x)) as [c Hc]; [lia|].
  exists c. split; [done|]. unfold takeCode.
  assert (index next x = Ok c) as -> by (apply index_Ok; split; [lia|done]).
  cbn. unfold store. rewrite bool_decide_eq_true_2 by lia. done.
Qed.

Lemma assignStep_zero st :
  assignStep st 0
  = Ok (mkAssign (as_symbol st + 1) (as_nextCodeArray st) (as_table st)).
Proof. done. Qed.

Lemma assignStep_live st x code next :
  x ≠ 0 → takeCode (as_nextCodeArray st) x = Ok (code, next) →
  assignStep st x
  = Ok (mkAssign (as_symbol st + 1) next
          (fillTable (as_table st) (as_symbol st) (MakeReversedCode x code))).
Proof.
  intros Hx Ht. unfold assignStep.
  rewrite bool_decide_eq_false_2 by done. by rewrite Ht.
Qed.

Lemma forM_assignStep l st :
  inRange l → length (as_nextCodeArray st) = Z.to_nat maxBitsPerCode →
  ∃ st', forM assignStep l st = Ok st'
         ∧ as_table st'
           = foldl fillPair (as_table st)
               (assignedFrom l (as_symbol st) (as_nextCodeArray st)).
Proof.
  intros Hr. revert st. induction Hr as [|x l Hx _ IH]; intros st Hl.
  - by eexists.
  - cbn [forM assignedFrom].
    destruct (decide (x = 0)) as [->|Hx0].
    + rewrite assignStep_zero, bool_decide_eq_true_2 by done.
      destruct (IH (mkAssign (as_symbol st + 1) (as_nextCodeArray st)
                             (as_table st)) Hl) as (st' & Hrun & Ht).
      exists st'. split; [done|]. exact Ht.
    + rewrite bool_decide_eq_false_2 by done.
      destruct (takeCode_Ok _ x Hx Hl) as (code & Hc & Htk).
      rewrite (assignStep_live _ _ _ _ Hx0 Htk), Htk.
      destruct (IH (mkAssign (as_symbol st + 1)
                      (<[Z.to_nat x := u32 (code + 1)]> (as_nextCodeArray st))
                      (fillTable (as_table st) (as_symbol st)
                                 (MakeReversedCode x code))))
        as (st' & Hrun & Ht).
      { cbn. by rewrite length_insert. }
      exists st'. split; [done|]. rewrite Ht. done.
Qed.

Lemma assignedFrom_symbols rest s0 next s hc :
  (s, hc) ∈ assignedFrom rest s0 next → s0 ≤ s.
Proof.
  revert s0 next. induction rest as [|x r IH]; intros s0 next Hin.
  - by apply elem_of_nil in Hin.
  - cbn [assignedFrom] in Hin. case_bool_decide.
    + apply IH in Hin. lia.
    + destruct (takeCode next x) as [[code nx]| |];
        try (by apply elem_of_nil in Hin).
      apply elem_of_cons in Hin as [[= -> _]|Hin]; [lia|].
      apply IH in Hin. lia.
Qed.

Lemma assignedFrom_NoDup rest s0 next :
  NoDup (fst <$> assignedFrom rest s0 next).
Proof.
  revert s0 next. induction rest as [|x r IH]; intros s0 next.
  - constructor.
  - cbn [assignedFrom]. case_bool_decide; [apply IH|].
    destruct (takeCode next x) as [[code nx]| |]; try constructor.
    + intros Hin. apply list_elem_of_fmap in Hin as ([s hc] & Hs & Hin).
      cbn in Hs. subst s. apply assignedFrom_symbols in Hin. lia.
    + apply IH.
Qed.

Lemma cnt_snoc b pre x :
  cnt b (pre ++ [x])
  = cnt b pre + (if bool_decide (x = b ∧ x ≠ 0) then 1 else 0).
Proof. unfold cnt. by rewrite sumOf_snoc. Qed.

Lemma assignedFrom_elem l lo hi rest : ∀ pre next s hc,
  l = pre ++ rest → 0 < lo → hi < maxBitsPerCode →
  (∀ x, x ∈ rest → x ≠ 0 → lo ≤ x ≤ hi) →
  nextInv l pre lo hi next →
  ((s, hc) ∈ assignedFrom rest (Z.of_nat (length pre)) next ↔
   ∃ i x, (length pre ≤ i)%nat ∧ l !! i = Some x ∧ x ≠ 0 ∧ s = Z.of_nat i
          ∧ hc = MakeReversedCode x (u32 (firstCode x l + cnt x (take i l)))).
Proof.
  induction rest as [|x r IH]; intros pre next s hc Hl Hlo Hhi Hall Hinv.
  - cbn. split; [intros H; by apply elem_of_nil in H|].
    intros (i & x & Hi & Hlk & _). subst l. rewrite app_nil_r in Hlk.
    apply lookup_lt_Some in Hlk. lia.
  - assert (l = (pre ++ [x]) ++ r) as Hl' by (by rewrite <- app_assoc).
    assert (l !! length pre = Some x) as Hlx
      by (subst l; by rewrite list_lookup_middle).
    assert (take (length pre) l = pre) as Htk
      by (subst l; by rewrite take_app_length).
    assert (Z.of_nat (length pre) + 1 = Z.of_nat (length (pre ++ [x])))
      as Hlen by (rewrite length_app; cbn; lia).
    cbn [assignedFrom]. destruct (decide (x = 0)) as [->|Hx0].
    + rewrite bool_decide_eq_true_2 by done. rewrite Hlen.
      rewrite (IH (pre ++ [0]) next s hc Hl' Hlo Hhi).
      * rewrite length_app. cbn [length]. split.
        -- intros (i & y & Hi & Hrest). exists i, y. split; [lia|done].
        -- intros (i & y & Hi & Hlk & Hy & Hrest). exists i, y.
           split; [|done].
           destruct (decide (i = length pre)) as [->|]; [|lia].
           congruence.
      * intros y Hy. apply Hall. by right.
      * destruct Hinv as [Hnl Hn]. split; [done|]. intros b Hb.
        rewrite cnt_snoc, bool_decide_eq_false_2 by (intros [_ ?]; done).
        rewrite Z.add_0_r. by apply Hn.
    + rewrite bool_decide_eq_false_2 by done.
      destruct Hinv as [Hnl Hn].
      assert (lo ≤ x ≤ hi) as Hxr by (apply Hall; [left|done]).
      destruct (takeCode_Ok next x) as (code & Hc & ->); [lia|done|].
      rewrite Hn in Hc by done. injection Hc as <-.
      rewrite elem_of_cons, Hlen.
      rewrite (IH (pre ++ [x]) _ s hc Hl' Hlo Hhi).
      * rewrite length_app. cbn [length]. split.
        -- intros [[= -> ->]|(i & y & Hi & Hrest)].
           ++ exists (length pre), x. rewrite Htk. done.
           ++ exists i, y. split; [lia|done].
        -- intros (i & y & Hi & Hlk & Hy & -> & ->).
           destruct (decide (i = length pre)) as [->|].
           ++ left. rewrite Htk. congruence.
           ++ right. exists i, y. split; [lia|done].
      * intros y Hy. apply Hall. by right.
      * split; [by rewrite length_insert|]. intros b Hb.
        rewrite cnt_snoc. destruct (decide (b = x)) as [->|Hbx].
        -- rewrite bool_decide_eq_true_2 by done.
           rewrite list_lookup_insert_eq by lia. f_equal.
           rewrite u32_idemp_add. f_equal. lia.
        -- rewrite bool_decide_eq_false_2 by (intros [? _]; done).
           rewrite list_lookup_insert_ne by lia. rewrite Z.add_0_r.
           by apply Hn.
Qed.

(** * Bit reversal *)

Lemma Reverse_bound n x : 0 ≤ Reverse n x < 2 ^ Z.of_nat n.
Proof.
  revert x. induction n as [|n IH]; intros x; [cbn; lia|].
  cbn [Reverse]. specialize (IH (x / 2)).
  pose proof (Z.mod_pos_bound x 2 ltac:(lia)).
  rewrite Nat2Z.inj_succ, Z.pow_succ_r by lia.
  assert (0 < 2 ^ Z.of_nat n) by (apply Z.pow_pos_nonneg; lia).
  nia.
Qed.

Lemma Reverse_shift n d x :
  Reverse (n + d) x / 2 ^ Z.of_nat d = Reverse n x.
Proof.
  revert x. induction n as [|n IH]; intros x.
  - cbn [Nat.add Reverse]. apply Z.div_small, Reverse_bound.
  - cbn [Nat.add Reverse].
    rewrite Nat2Z.inj_add, Z.pow_add_r, Z.mul_assoc by lia.
    rewrite Z.div_add_l by (apply Z.pow_nonzero; lia).
    by rewrite IH.
Qed.

Lemma reverseBits_Reverse size x :
  0 ≤ size ≤ 32 → reverseBits size x = Reverse (Z.to_nat size) x.
Proof.
  intros Hs. unfold reverseBits, Reverse32, u8.
  rewrite Z.mod_small by lia.
  rewrite Z.shiftr_div_pow2 by lia.
  replace 32%nat with (Z.to_nat size + Z.to_nat (32 - size))%nat by lia.
  replace (32 - size) with (Z.of_nat (Z.to_nat (32 - size))) at 2 by lia.
  apply Reverse_shift.
Qed.

Lemma Reverse_mod n k x :
  (k ≤ n)%nat →
  Reverse n x mod 2 ^ Z.of_nat k = Reverse k (x / 2 ^ Z.of_nat (n - k)).
Proof.
  revert x. induction n as [|n IH]; intros x Hk.
  - replace k with 0%nat by lia. cbn. done.
  - destruct (decide (k = S n)) as [->|Hne].
    + rewrite Nat.sub_diag, Z.pow_0_r, Z.div_1_r.
      apply Z.mod_small, Reverse_bound.
    + cbn [Reverse].
      replace (Z.of_nat n) with (Z.of_nat (n - k) + Z.of_nat k) at 1 by lia.
      rewrite Z.pow_add_r, Z.mul_assoc by lia.
      rewrite Z.add_comm, Z.mod_add by (apply Z.pow_nonzero; lia).
      rewrite IH by lia.
      rewrite Z.div_div by (try apply Z.pow_pos_nonneg; lia).
      f_equal. f_equal.
      replace (S n - k)%nat with (S (n - k)) by lia.
      rewrite Nat2Z.inj_succ, Z.pow_succ_r by lia. done.
Qed.

Lemma Reverse_inj n x y :
  0 ≤ x < 2 ^ Z.of_nat n → 0 ≤ y < 2 ^ Z.of_nat n →
  Reverse n x = Reverse n y → x = y.
Proof.
  revert x y. induction n as [|n IH]; intros x y Hx Hy Heq.
  - change (Z.of_nat 0) with 0 in Hx, Hy. rewrite Z.pow_0_r in Hx, Hy. lia.
  - cbn [Reverse] in Heq.
    rewrite Nat2Z.inj_succ, Z.pow_succ_r in Hx, Hy by lia.
    pose proof (Reverse_bound n (x / 2)). pose proof (Reverse_bound n (y / 2)).
    pose proof (Z.mod_pos_bound x 2 ltac:(lia)).
    pose proof (Z.mod_pos_bound y 2 ltac:(lia)).
    assert (x mod 2 = y mod 2 ∧ Reverse n (x / 2) = Reverse n (y / 2))
      as [Hm Hr].
    { assert (x mod 2 = 0 ∨ x mod 2 = 1) as [Hx2|Hx2] by lia;
        assert (y mod 2 = 0 ∨ y mod 2 = 1) as [Hy2|Hy2] by lia;
        rewrite Hx2, Hy2 in Heq |- *; lia. }
    apply IH in Hr.
    + rewrite (Z.div_mod x 2), (Z.div_mod y 2) by lia. congruence.
    + split; [apply Z.div_pos; lia|]. apply Z.div_lt_upper_bound; lia.
    + split; [apply Z.div_pos; lia|]. apply Z.div_lt_upper_bound; lia.
Qed.

(** In natural order a code is a prefix of another when it is its high
    bits; reversed, when it is its low bits. *)
Lemma isPrefix_reversed s1 c1 s2 c2 :
  0 ≤ s1 ≤ s2 → s2 ≤ 32 → 0 ≤ c1 < 2 ^ s1 → 0 ≤ c2 < 2 ^ s2 →
  isPrefix (MakeReversedCode s1 c1) (MakeReversedCode s2 c2)
  ↔ c2 / 2 ^ (s2 - s1) = c1.
Proof.
  intros Hs1 Hs2 Hc1 Hc2. unfold isPrefix, MakeReversedCode. cbn [Size Bits].
  rewrite !reverseBits_Reverse by lia.
  assert (Reverse (Z.to_nat s2) c2 mod 2 ^ s1
          = Reverse (Z.to_nat s1) (c2 / 2 ^ (s2 - s1))) as ->.
  { pose proof (Reverse_mod (Z.to_nat s2) (Z.to_nat s1) c2 ltac:(lia)) as H.
    rewrite Z2Nat.id in H by lia.
    by replace (Z.of_nat (Z.to_nat s2 - Z.to_nat s1)) with (s2 - s1) in H
      by lia. }
  assert (0 ≤ c2 / 2 ^ (s2 - s1) < 2 ^ s1) as Hq.
  { split; [apply Z.div_pos; [lia|apply Z.pow_pos_nonneg; lia]|].
    apply Z.div_lt_upper_bound; [apply Z.pow_pos_nonneg; lia|].
    rewrite <- Z.pow_add_r by lia.
    replace (s2 - s1 + s1) with s2 by lia. lia. }
  split.
  - intros [_ Heq]. symmetry. apply (Reverse_inj (Z.to_nat s1)).
    + by rewrite Z2Nat.id by lia.
    + by rewrite Z2Nat.id by lia.
    + done.
  - intros <-. done.
Qed.

(** * The canonical codes in natural order *)

Lemma cnt_app b l1 l2 : cnt b (l1 ++ l2) = cnt b l1 + cnt b l2.
Proof. apply sumOf_app. Qed.

Lemma cnt_take_lt l i x :
  l !! i = Some x → x ≠ 0 → cnt x (take i l) < cnt x l.
Proof.
  intros Hl Hx. rewrite <- (take_drop_middle l i x Hl) at 2.
  rewrite cnt_app. unfold cnt at 3. rewrite sumOf_cons.
  rewrite bool_decide_eq_true_2 by done.
  fold (cnt x (drop (S i) l)). pose proof (cnt_nonneg x (drop (S i) l)). lia.
Qed.

Lemma cnt_take_mono l i j x :
  (i < j)%nat → l !! i = Some x → x ≠ 0 →
  cnt x (take i l) < cnt x (take j l).
Proof.
  intros Hij Hl Hx.
  replace (take i l) with (take i (take j l))
    by (rewrite take_take; f_equal; lia).
  apply cnt_take_lt; [|done]. by rewrite lookup_take_lt.
Qed.

Lemma naturalCode_fits l m i x :
  codeSpace m l ≤ 2 ^ m → l !! i = Some x → 0 < x ≤ m →
  0 ≤ naturalCode l i x < 2 ^ x.
Proof.
  intros Hk Hl Hx. unfold naturalCode.
  pose proof (firstCode_nonneg x l). pose proof (cnt_nonneg x (take i l)).
  split; [lia|].
  pose proof (cnt_take_lt l i x Hl ltac:(lia)).
  pose proof (firstCode_codeSpace x m l Hx) as Hfc.
  assert ((firstCode x l + cnt x l) * 2 ^ (m - x) ≤ 2 ^ x * 2 ^ (m - x)) as Hle.
  { rewrite <- Z.pow_add_r by lia. replace (x + (m - x)) with m by lia. lia. }
  apply Z.mul_le_mono_pos_r in Hle; [lia|]. apply Z.pow_pos_nonneg; lia.
Qed.

Lemma naturalCode_not_prefix l i j x y :
  i ≠ j → l !! i = Some x → l !! j = Some y → 0 < x ≤ y →
  naturalCode l j y / 2 ^ (y - x) ≠ naturalCode l i x.
Proof.
  intros Hij Hi Hj Hxy. unfold naturalCode.
  destruct (decide (x = y)) as [->|Hne].
  - rewrite Z.sub_diag, Z.pow_0_r, Z.div_1_r.
    destruct (decide (i < j)%nat).
    + pose proof (cnt_take_mono l i j y ltac:(done) Hi ltac:(lia)). lia.
    + pose proof (cnt_take_mono l j i y ltac:(lia) Hj ltac:(lia)). lia.
  - pose proof (firstCode_mono x y l ltac:(lia)) as Hm.
    pose proof (cnt_take_lt l i x Hi ltac:(lia)).
    pose proof (cnt_nonneg y (take j l)).
    assert (firstCode x l + cnt x l
            ≤ (firstCode y l + cnt y (take j l)) / 2 ^ (y - x)).
    { apply Z.div_le_lower_bound; [apply Z.pow_pos_nonneg; lia|]. lia. }
    lia.
Qed.

(** * What [Decoder.Init] has established when it succeeds *)

Lemma validate_Ok_inRange l v :
  Z.of_nat (length l) < 2 ^ 32 → validate l = Ok v → inRange l.
Proof.
  intros Hlen Hv. unfold validate in Hv.
  apply bind_Ok in Hv as (sc & Hscan & _).
  by destruct (scan_spec l sc Hlen Hscan) as (_ & _ & _ & Hr & _).
Qed.

Lemma validate_no_symbols l :
  live l = 0 → validate l = Ok None ∧ Decoder_codes l = [].
Proof.
  intros Hz.
  assert (Forall (fun x => x = 0) l) as Hall
    by (apply Forall_forall; intros x Hx; by apply (live_zero l)).
  assert (validate l = Ok None) as Hv.
  { unfold validate. by rewrite forM_scanStep_zeros. }
  split; [done|]. unfold Decoder_codes. by rewrite Hv.
Qed.

Lemma Decoder_Init_inv l d :
  Z.of_nat (length l) < 2 ^ 19 → Decoder_Init l = Ok d → 0 < live l →
  inRange l
  ∧ 1 ≤ d_maxSize d < maxBitsPerCode
  ∧ (∀ x, x ∈ l → 0 ≤ x ≤ d_maxSize d)
  ∧ (∀ x, x ∈ l → x ≠ 0 → d_minSize d ≤ x)
  ∧ d_minSize d ∈ l ∧ d_maxSize d ∈ l ∧ 0 < d_minSize d
  ∧ (codeSpace (d_maxSize d) l = 2 ^ d_maxSize d
     ∨ (codeSpace (d_maxSize d) l = 1 ∧ d_maxSize d = 1))
  ∧ d_sizes d = l
  ∧ d_table d = foldl fillPair ∅ (Decoder_codes l)
  ∧ NoDup (fst <$> Decoder_codes l)
  ∧ ∀ s hc, (s, hc) ∈ Decoder_codes l ↔
            ∃ i x, l !! i = Some x ∧ x ≠ 0 ∧ s = Z.of_nat i
                   ∧ hc = MakeReversedCode x (naturalCode l i x).
Proof.
  intros Hlen Hinit Hpos.
  assert (Z.of_nat (length l) < 2 ^ 32) as Hlen32 by lia.
  unfold Decoder_Init in Hinit.
  apply bind_Ok in Hinit as (v & Hv & Hinit).
  pose proof (validate_Ok_inRange l v Hlen32 Hv) as Hr.
  destruct (validate_run l Hlen32 Hr Hpos) as (sc & next & Hinv & Hnl & Hnext & Heq).
  destruct (scanInv_bounds l sc Hinv Hpos) as (Hmin & Hmm & Hmax & Hall & Hlow).
  assert (sc_minSize sc ∈ l ∧ sc_maxSize sc ∈ l) as [Hminl Hmaxl].
  { destruct Hinv as (_ & _ & _ & _ & H). destruct (H Hpos) as (_ & ? & ? & _).
    done. }
  rewrite Heq in Hv. cbn zeta in Hv.
  rewrite codeSpace_no_wrap in Hv by (done || lia).
  assert (v = Some (sc, next)
          ∧ (codeSpace (sc_maxSize sc) l = 2 ^ sc_maxSize sc
             ∨ codeSpace (sc_maxSize sc) l = 1 ∧ sc_maxSize sc = 1))
    as [-> Hcs].
  { destruct (decide (codeSpace (sc_maxSize sc) l = 1 ∧ sc_maxSize sc = 1)).
    - rewrite bool_decide_eq_true_2 in Hv by done.
      injection Hv as <-. split; [done|by right].
    - rewrite bool_decide_eq_false_2 in Hv by done.
      destruct (decide (codeSpace (sc_maxSize sc) l ≠ 2 ^ sc_maxSize sc)).
      + rewrite bool_decide_eq_true_2 in Hv by done. done.
      + rewrite bool_decide_eq_false_2 in Hv by done.
        injection Hv as <-. split; [done|]. left.
        destruct (decide (codeSpace (sc_maxSize sc) l = 2 ^ sc_maxSize sc));
          done. }
  destruct (forM_assignStep l (mkAssign 0 next ∅) Hr Hnl)
    as (st & Hrun & Htab).
  cbn [as_table as_symbol as_nextCodeArray] in Htab.
  rewrite Hrun in Hinit. cbn in Hinit. injection Hinit as <-.
  cbn [d_maxSize d_minSize d_sizes d_table].
  assert (Decoder_codes l = assignedFrom l 0 next) as Hcodes.
  { unfold Decoder_codes. rewrite Heq. cbn zeta.
    rewrite codeSpace_no_wrap by (done || lia).
    destruct Hcs as [Hcs|Hcs].
    - destruct (decide (codeSpace (sc_maxSize sc) l = 1 ∧ sc_maxSize sc = 1)).
      + by rewrite bool_decide_eq_true_2 by done.
      + rewrite bool_decide_eq_false_2 by done.
        by rewrite bool_decide_eq_false_2 by (intros ?; done).
    - by rewrite bool_decide_eq_true_2 by done. }
  assert (codeSpace (sc_maxSize sc) l ≤ 2 ^ sc_maxSize sc) as Hkraft.
  { destruct Hcs as [->|[-> ->]]; [lia|done]. }
  repeat (split; [done || lia|]).
  split; [by rewrite Hcodes|].
  rewrite Hcodes. split; [apply assignedFrom_NoDup|].
  intros s hc.
  rewrite (assignedFrom_elem l (sc_minSize sc) (sc_maxSize sc) l [] next s hc
             eq_refl Hmin Hmax).
  - split.
    + intros (i & x & _ & Hi & Hx & -> & ->). exists i, x.
      repeat (split; [done|]). f_equal.
      assert (x ∈ l) as Hxl by (by eapply list_elem_of_lookup_2).
      pose proof (naturalCode_fits l _ i x Hkraft Hi
                    ltac:(specialize (Hall x Hxl); lia)) as Hfit.
      unfold naturalCode in *. apply Z.mod_small.
      split; [lia|]. apply Z.lt_le_trans with (2 ^ x); [lia|].
      apply Z.pow_le_mono_r; [lia|]. specialize (Hall x Hxl).
      unfold maxBitsPerCode in *. lia.
    + intros (i & x & Hi & Hx & -> & ->). exists i, x.
      split; [cbn; lia|]. repeat (split; [done|]). f_equal.
      assert (x ∈ l) as Hxl by (by eapply list_elem_of_lookup_2).
      pose proof (naturalCode_fits l _ i x Hkraft Hi
                    ltac:(specialize (Hall x Hxl); lia)) as Hfit.
      unfold naturalCode in *. symmetry. apply Z.mod_small.
      split; [lia|]. apply Z.lt_le_trans with (2 ^ x); [lia|].
      apply Z.pow_le_mono_r; [lia|]. specialize (Hall x Hxl).
      unfold maxBitsPerCode in *. lia.
  - intros x Hx Hx0. split; [by apply Hlow|by apply Hall].
  - split; [done|]. intros b Hb. unfold cnt. rewrite sumOf_nil, Z.add_0_r.
    by apply Hnext.
Qed.

(** * Prefix-freedom of the codes of a Decoder *)

Lemma Decoder_codes_live l s hc :
  (s, hc) ∈ Decoder_codes l → 0 < live l.
Proof.
  intros Hin. pose proof (live_nonneg l).
  destruct (decide (live l = 0)) as [Hz|]; [|lia].
  destruct (validate_no_symbols l Hz) as [_ Hnil].
  rewrite Hnil in Hin. by apply elem_of_nil in Hin.
Qed.

(** Below [2^19] entries, the codes that an accepted length sequence gives
    to two distinct symbols are never prefixes of one another. *)
Theorem Decoder_codes_prefix_free l d s1 c1 s2 c2 :
  Z.of_nat (length l) < 2 ^ 19 → Decoder_Init l = Ok d →
  (s1, c1) ∈ Decoder_codes l → (s2, c2) ∈ Decoder_codes l → s1 ≠ s2 →
  ¬ isPrefix c1 c2.
Proof.
  intros Hlen Hinit H1 H2 Hne Hpre.
  pose proof (Decoder_codes_live _ _ _ H1) as Hpos.
  destruct (Decoder_Init_inv l d Hlen Hinit Hpos)
    as (Hr & Hm & Hall & _ & _ & _ & _ & Hcs & _ & _ & _ & Hchar).
  apply Hchar in H1 as (i & x & Hi & Hx & -> & ->).
  apply Hchar in H2 as (j & y & Hj & Hy & -> & ->).
  assert (codeSpace (d_maxSize d) l ≤ 2 ^ d_maxSize d) as Hkraft.
  { destruct Hcs as [->|[-> ->]]; [lia|done]. }
  assert (0 < x ≤ d_maxSize d) as Hxr.
  { specialize (Hall x ltac:(by eapply list_elem_of_lookup_2)). lia. }
  assert (0 < y ≤ d_maxSize d) as Hyr.
  { specialize (Hall y ltac:(by eapply list_elem_of_lookup_2)). lia. }
  pose proof (naturalCode_fits l _ i x Hkraft Hi Hxr).
  pose proof (naturalCode_fits l _ j y Hkraft Hj Hyr).
  assert (x ≤ y) as Hxy by (destruct Hpre as [Hs _]; cbn in Hs; lia).
  apply isPrefix_reversed in Hpre;
    [|lia|unfold maxBitsPerCode in *; lia|done|done].
  eapply (naturalCode_not_prefix l i j x y); [lia|done|done|lia|done].
Qed.

(** * The bit operations of [fillTable] *)

Lemma testbit_small_high bits m i :
  0 ≤ m → 0 ≤ bits < 2 ^ m → m ≤ i → Z.testbit bits i = false.
Proof.
  intros Hm Hb Hi. rewrite <- (Z.mod_small bits (2 ^ m)) by done.
  apply Z.mod_pow2_bits_high. lia.
Qed.

Lemma land_pow2_small r m : 0 ≤ m → 0 ≤ r < 2 ^ m → Z.land r (2 ^ m) = 0.
Proof.
  intros Hm Hr. apply Z.bits_inj'. intros i Hi.
  rewrite Z.land_spec, Z.bits_0, Z.pow2_bits_eqb by lia.
  destruct (Z.eqb_spec m i) as [<-|]; [|by rewrite andb_false_r].
  by rewrite (testbit_small_high r m m).
Qed.

(** [hc.Bits ^= bit] flips the last bit of the code. *)
Lemma lxor_pow2 bits m :
  0 ≤ m → 0 ≤ bits < 2 ^ (m + 1) →
  Z.lxor bits (2 ^ m)
  = if bool_decide (bits < 2 ^ m) then bits + 2 ^ m else bits - 2 ^ m.
Proof.
  intros Hm Hb. rewrite Z.pow_add_r, Z.pow_1_r in Hb by lia.
  case_bool_decide as Hlt.
  - symmetry. apply Z.add_nocarry_lxor, land_pow2_small; lia.
  - assert (bits = Z.lxor (bits - 2 ^ m) (2 ^ m)) as Heq.
    { rewrite <- Z.add_nocarry_lxor by (apply land_pow2_small; lia). lia. }
    rewrite Heq at 1.
    by rewrite Z.lxor_assoc, Z.lxor_nilpotent, Z.lxor_0_r.
Qed.

(** [hc.Bits &^= bit] after [hc.Bits ^= bit] drops the last bit. *)
Lemma ldiff_lxor_pow2 bits m :
  0 ≤ m → 0 ≤ bits < 2 ^ (m + 1) →
  Z.ldiff (Z.lxor bits (2 ^ m)) (2 ^ m) = bits mod 2 ^ m.
Proof.
  intros Hm Hb. apply Z.bits_inj'. intros i Hi.
  rewrite Z.ldiff_spec, Z.lxor_spec, Z.pow2_bits_eqb by lia.
  destruct (Z.eqb_spec m i) as [<-|Hne].
  - rewrite andb_false_r. symmetry. apply Z.mod_pow2_bits_high. lia.
  - rewrite xorb_false_r, andb_true_r.
    destruct (decide (i < m)).
    + by rewrite Z.mod_pow2_bits_low by lia.
    + rewrite Z.mod_pow2_bits_high by lia.
      apply (testbit_small_high bits (m + 1)); lia.
Qed.

Lemma mod_pow2_half bits m :
  0 ≤ m → 0 ≤ bits < 2 ^ (m + 1) →
  bits mod 2 ^ m = if bool_decide (bits < 2 ^ m) then bits else bits - 2 ^ m.
Proof.
  intros Hm Hb. rewrite Z.pow_add_r, Z.pow_1_r in Hb by lia.
  case_bool_decide.
  - apply Z.mod_small. lia.
  - symmetry. apply Z.mod_unique_pos with (q := 1); lia.
Qed.

(** * The decoding table *)

Lemma mod_mod_pow2 x a b :
  0 ≤ a ≤ b → (x mod 2 ^ b) mod 2 ^ a = x mod 2 ^ a.
Proof.
  intros Hab. apply Z.mod_mod_divide.
  exists (2 ^ (b - a)). rewrite <- Z.pow_add_r by lia. f_equal. lia.
Qed.

Lemma isPrefix_refl c : normalized c → isPrefix c c.
Proof.
  intros [Hs Hb]. split; [lia|]. by rewrite Z.mod_small.
Qed.

Lemma isPrefix_trans a b c : isPrefix a b → isPrefix b c → isPrefix a c.
Proof.
  intros [Hs1 Hb1] [Hs2 Hb2]. split; [lia|].
  rewrite Hb1, Hb2. apply mod_mod_pow2. lia.
Qed.

Lemma isPrefix_normalized p c : isPrefix p c → normalized p.
Proof.
  intros [Hs Hb]. split; [lia|]. rewrite Hb.
  apply Z.mod_pos_bound, Z.pow_pos_nonneg; lia.
Qed.

Lemma isPrefix_same_size p c :
  isPrefix p c → Size p = Size c → normalized c → p = c.
Proof.
  intros [Hs Hb] Heq [_ Hn]. destruct p as [sp bp], c as [sc bc].
  cbn in *. subst sp. rewrite Z.mod_small in Hb by done. by subst.
Qed.

Lemma isPrefix_parent k : 0 < Size k → isPrefix (parent k) k.
Proof. intros Hs. split; cbn; [lia|done]. Qed.

Lemma isPrefix_parent_of p k :
  isPrefix p k → Size p < Size k → isPrefix p (parent k).
Proof.
  intros [Hs Hb] Hlt. split; cbn; [lia|].
  rewrite Hb. symmetry. apply mod_mod_pow2. lia.
Qed.

Lemma parent_normalized k : 0 < Size k → normalized (parent k).
Proof. intros Hs. apply (isPrefix_normalized _ k), isPrefix_parent. done. Qed.

(** The codes with a given parent are a code and the code with the last bit
    flipped. *)
Lemma same_parent k k' :
  normalized k → normalized k' → 0 < Size k → Size k' = Size k →
  parent k' = parent k →
  k' = k ∨ k' = MakeCode (Size k) (Z.lxor (Bits k) (2 ^ (Size k - 1))).
Proof.
  intros [_ Hk] [_ Hk'] Hs Heq Hp.
  destruct k as [s b], k' as [s' b']. cbn in *. subst s'.
  injection Hp as Hp.
  replace s with (s - 1 + 1) in Hk, Hk' by lia.
  rewrite !mod_pow2_half in Hp by lia.
  rewrite lxor_pow2 by lia.
  repeat case_bool_decide; (left; f_equal; lia) || (right; f_equal; lia).
Qed.

Section FillTable.
Variable codes : list (Z * Code).
Variable s0 : Z.
Variable hc : Code.
Hypothesis Hin : (s0, hc) ∈ codes.
Hypothesis Hsz : Size hc ≤ 32.
Hypothesis Hleaf :
  ∀ k, isPrefix k hc → Size k < Size hc → ∀ s c, (s, c) ∈ codes → c ≠ k.

(** The loop of [fillTable], from the node [k] upwards. *)
Lemma fillTableLoop_inv n : ∀ bits dd t,
  normalized (MakeCode (Z.of_nat n) bits) →
  isPrefix (MakeCode (Z.of_nat n) bits) hc →
  t !! MakeCode (Z.of_nat n) bits = Some dd →
  tableInvAt codes (fun k' => k' = MakeCode (Z.of_nat n) bits) t →
  tableInv codes (fillTableLoop n bits dd t).
Proof.
  induction n as [|m IH]; intros bits dd t Hnk Hpk Hlk (HL & HK & HI & HP).
  - cbn [fillTableLoop]. repeat (split; [done|]).
    intros k' dd' Hk' Hs _. apply HP; [done|done|].
    intros ->. cbn in Hs. lia.
  - cbn [fillTableLoop].
    assert (Z.of_nat (S m) - 1 = Z.of_nat m) as Hm by lia.
    assert (Z.of_nat (S m) ≤ 32) as Hm32
      by (destruct Hpk as [Hs _]; cbn in Hs; lia).
    assert (0 ≤ bits < 2 ^ (Z.of_nat m + 1)) as Hbits.
    { destruct Hnk as [_ Hb]. cbn in Hb.
      by replace (Z.of_nat (S m)) with (Z.of_nat m + 1) in Hb by lia. }
    rewrite Hm, u32_pow2 by lia.
    rewrite ldiff_lxor_pow2 by (done || lia).
    set (k := MakeCode (Z.of_nat (S m)) bits) in *.
    set (sib := MakeCode (Z.of_nat (S m)) (Z.lxor bits (2 ^ Z.of_nat m))).
    set (p := MakeCode (Z.of_nat m) (bits mod 2 ^ Z.of_nat m)).
    assert (parent k = p) as Hpar by (unfold parent, k, p; cbn; by rewrite Hm).
    match goal with |- context [bool_decide (_ = Some ?e)] =>
      remember e as ddNew eqn:HddNew end.
    assert (dd_symbol ddNew = InvalidSymbol
            ∧ dd_minSize ddNew ≤ dd_minSize dd
            ∧ dd_maxSize dd ≤ dd_maxSize ddNew
            ∧ ∀ ddS, t !! sib = Some ddS →
                     dd_minSize ddNew ≤ dd_minSize ddS
                     ∧ dd_maxSize ddS ≤ dd_maxSize ddNew)
      as (Hsym & Hmn & Hmx & Hsib).
    { subst ddNew. destruct (t !! sib) as [ddS|]; cbn.
      - split; [done|]. split; [case_bool_decide; lia|].
        split; [case_bool_decide; lia|].
        intros ? [= <-]. split; case_bool_decide; lia.
      - split; [done|]. split; [lia|]. split; [lia|]. intros ? [=]. }
    clear HddNew.
    assert (normalized p) as Hnp
      by (rewrite <- Hpar; apply parent_normalized; cbn; lia).
    assert (isPrefix p hc) as Hpp.
    { apply isPrefix_trans with k; [|done].
      rewrite <- Hpar. apply isPrefix_parent. cbn. lia. }
    case_bool_decide as Hold.
    + (* the entry of the parent is already right *)
      repeat (split; [done|]).
      intros k' dd' Hk' Hs _. destruct (decide (k' = k)) as [->|Hne].
      * rewrite Hpar. exists ddNew. rewrite Hlk in Hk'.
        injection Hk' as <-. done.
      * by apply HP.
    + apply IH; [done|done|by rewrite lookup_insert_eq|].
      fold p. split; [|split; [|split]].
      * intros s c Hc. rewrite lookup_insert_ne; [by apply HL|].
        intros <-. eapply (Hleaf p); [done| |done|done].
        destruct Hpk as [Hs _]. cbn in Hs |- *. lia.
      * intros k' dd' Hk'. destruct (decide (k' = p)) as [->|Hne].
        -- split; [done|]. by exists s0, hc.
        -- rewrite lookup_insert_ne in Hk' by done. by eapply HK.
      * intros k' dd' Hk' Hnc. destruct (decide (k' = p)) as [->|Hne].
        -- rewrite lookup_insert_eq in Hk'. by injection Hk' as <-.
        -- rewrite lookup_insert_ne in Hk' by done. by eapply HI.
      * intros k' dd' Hk' Hs Hskip.
        rewrite lookup_insert_ne in Hk' by done.
        destruct (decide (parent k' = p)) as [Hpk'|Hpk'].
        -- rewrite Hpk', lookup_insert_eq. exists ddNew. split; [done|].
           destruct (HK k' dd' Hk') as [Hnk' _].
           assert (Size k' = Size k) as Hsk.
           { apply (f_equal Size) in Hpk'. cbn in Hpk' |- *. lia. }
           destruct (same_parent k k' Hnk Hnk') as [->| ->];
             [cbn; lia|done|by rewrite Hpar| |].
           ++ rewrite Hlk in Hk'. by injection Hk' as <-.
           ++ cbn [Size Bits k] in Hk'. rewrite Hm in Hk'.
              by apply Hsib.
        -- rewrite lookup_insert_ne by done. apply HP; [done|done|].
           intros ->. by rewrite Hpar in Hpk'.
Qed.
End FillTable.

Lemma codesOK_snoc codes s hc :
  codesOK (codes ++ [(s, hc)]) →
  codesOK codes
  ∧ normalized hc ∧ Size hc ≤ 32
  ∧ ∀ s' c', (s', c') ∈ codes → ¬ isPrefix c' hc ∧ ¬ isPrefix hc c'.
Proof.
  intros (Hnd & Hn & Hpf).
  rewrite fmap_app in Hnd. apply NoDup_app in Hnd as (Hnd1 & Hnd2 & _).
  split; [|split; [|split]].
  - split; [done|]. split.
    + intros s' c' Hc. apply (Hn s'). apply elem_of_app. by left.
    + intros s1 c1 s2 c2 H1 H2. apply Hpf; apply elem_of_app; by left.
  - apply (Hn s). apply elem_of_app. right. by left.
  - apply (Hn s). apply elem_of_app. right. by left.
  - intros s' c' Hc.
    assert (s' ≠ s) as Hne.
    { intros ->. apply (Hnd2 s).
      - apply list_elem_of_fmap. by exists (s, c').
      - cbn. by left. }
    split.
    + apply (Hpf s' c' s hc); [|  |done];
        apply elem_of_app; [by left|right; by left].
    + apply (Hpf s hc s' c'); [| |done];
        apply elem_of_app; [right; by left|by left].
Qed.

(** One call of [fillTable]. *)
Lemma fillTable_inv codes t s hc :
  tableInv codes t → codesOK (codes ++ [(s, hc)]) →
  tableInv (codes ++ [(s, hc)]) (fillTable t s hc).
Proof.
  intros (HL & HK & HI & HP) Hok.
  destruct (codesOK_snoc _ _ _ Hok) as (Hok0 & Hn & Hsz & Hpf).
  assert (∀ s' c', (s', c') ∈ codes → c' ≠ hc) as Hfresh.
  { intros s' c' Hc ->. by destruct (Hpf s' hc Hc) as [H _]; apply H,
      isPrefix_refl. }
  unfold fillTable.
  assert (MakeCode (Z.of_nat (Z.to_nat (Size hc))) (Bits hc) = hc) as Hk.
  { destruct Hn as [Hs _]. destruct hc as [sz b]. cbn in *. f_equal. lia. }
  apply (fillTableLoop_inv (codes ++ [(s, hc)]) s hc).
  - apply elem_of_app. right. by left.
  - done.
  - intros k Hk1 Hk2 s' c' Hc ->.
    apply elem_of_app in Hc as [Hc|Hc].
    + by destruct (Hpf s' k Hc) as [H _].
    + apply list_elem_of_singleton in Hc. injection Hc as -> ->. lia.
  - by rewrite Hk.
  - rewrite Hk. by apply isPrefix_refl.
  - rewrite Hk. by rewrite lookup_insert_eq.
  - rewrite Hk. split; [|split; [|split]].
    + intros s' c' Hc. apply elem_of_app in Hc as [Hc|Hc].
      * rewrite lookup_insert_ne by (intros <-; by eapply Hfresh).
        by apply HL.
      * apply list_elem_of_singleton in Hc. injection Hc as -> ->.
        by rewrite lookup_insert_eq.
    + intros k dd Hlk. destruct (decide (k = hc)) as [->|Hne].
      * split; [done|]. exists s, hc. split; [|by apply isPrefix_refl].
        apply elem_of_app. right. by left.
      * rewrite lookup_insert_ne in Hlk by done.
        destruct (HK k dd Hlk) as (Hnk & s' & c' & Hc & Hp).
        split; [done|]. exists s', c'. split; [|done].
        apply elem_of_app. by left.
    + intros k dd Hlk Hnc. destruct (decide (k = hc)) as [->|Hne].
      * exfalso. apply (Hnc s hc); [|done]. apply elem_of_app. right. by left.
      * rewrite lookup_insert_ne in Hlk by done. apply (HI k dd Hlk).
        intros s' c' Hc. apply (Hnc s'). apply elem_of_app. by left.
    + intros k dd Hlk Hs Hne.
      rewrite lookup_insert_ne in Hlk by done.
      destruct (HP k dd Hlk Hs) as (ddp & Hp & Hr); [tauto|].
      exists ddp. split; [|done].
      rewrite lookup_insert_ne; [done|].
      intros Heq.
      destruct (HK k dd Hlk) as (Hnk & s' & c' & Hc & Hpre).
      destruct (Hpf s' c' Hc) as [_ H]. apply H.
      apply isPrefix_trans with k; [|done].
      rewrite Heq. by apply isPrefix_parent.
Qed.

Lemma tableInv_empty : tableInv [] ∅.
Proof.
  split; [|split; [|split]].
  - intros s c Hc. by apply elem_of_nil in Hc.
  - intros k dd Hk. by rewrite lookup_empty in Hk.
  - intros k dd Hk. by rewrite lookup_empty in Hk.
  - intros k dd Hk. by rewrite lookup_empty in Hk.
Qed.

(** All the calls of [fillTable]. *)
Lemma foldl_fillPair_inv codes :
  codesOK codes → tableInv codes (foldl fillPair ∅ codes).
Proof.
  induction codes as [|[s hc] codes IH] using rev_ind; intros Hok.
  - apply tableInv_empty.
  - rewrite foldl_app. cbn [foldl]. unfold fillPair at 1. cbn [fst snd].
    apply fillTable_inv; [|done]. apply IH.
    by destruct (codesOK_snoc _ _ _ Hok) as [? _].
Qed.

Lemma NoDup_fst_inj {A B} (l : list (A * B)) x y1 y2 :
  NoDup (fst <$> l) → (x, y1) ∈ l → (x, y2) ∈ l → y1 = y2.
Proof.
  induction l as [|[a b] l IH]; intros Hnd H1 H2.
  - by apply elem_of_nil in H1.
  - cbn in Hnd. apply NoDup_cons in Hnd as [Hni Hnd].
    apply elem_of_cons in H1 as [[= -> ->]|H1];
      apply elem_of_cons in H2 as [[= ->]|H2].
    + done.
    + exfalso. apply Hni. apply list_elem_of_fmap. by exists (a, y2).
    + exfalso. apply Hni. apply list_elem_of_fmap. by exists (a, y1).
    + by apply IH.
Qed.

(** Every prefix of a key is a key, and its range contains the range of
    the key. *)
Lemma tableInv_ancestor codes t :
  tableInv codes t →
  ∀ n k dd p, t !! k = Some dd → isPrefix p k →
              Size k - Size p = Z.of_nat n →
              ∃ ddp, t !! p = Some ddp
                     ∧ dd_minSize ddp ≤ dd_minSize dd
                     ∧ dd_maxSize dd ≤ dd_maxSize ddp.
Proof.
  intros (HL & HK & HI & HP). induction n as [|n IH]; intros k dd p Hk Hp Hn.
  - destruct (HK k dd Hk) as [Hnk _].
    assert (Size p = Size k) as Hs by lia.
    rewrite (isPrefix_same_size p k Hp Hs Hnk). exists dd. by split.
  - assert (0 < Size k) as Hsk by (destruct Hp; lia).
    destruct (HP k dd Hk Hsk) as (dd1 & Hk1 & Hmn & Hmx); [tauto|].
    destruct (IH (parent k) dd1 p Hk1) as (ddp & Hp' & Hmn' & Hmx').
    + apply isPrefix_parent_of; [done|lia].
    + cbn. lia.
    + exists ddp. split; [done|]. lia.
Qed.

Lemma tableInv_decode codes t :
  codesOK codes → tableInv codes t →
  (∀ s c, (s, c) ∈ codes →
     t !! c = Some (mkDD s (Size c) (Size c))
     ∧ ∀ p, isStrictPrefix p c →
            ∃ mn mx, t !! p = Some (mkDD InvalidSymbol mn mx)
                     ∧ mn ≤ Size c ≤ mx)
  ∧ (∀ k, (∀ s c, (s, c) ∈ codes → ¬ isPrefix k c) → t !! k = None).
Proof.
  intros (Hnd & Hnorm & Hpf) Hinv. pose proof Hinv as (HL & HK & HI & HP).
  split.
  - intros s c Hc. split; [by apply HL|].
    intros p [Hp Hlt].
    assert (Size c - Size p = Z.of_nat (Z.to_nat (Size c - Size p))) as Hd
      by lia.
    destruct (tableInv_ancestor codes t Hinv (Z.to_nat (Size c - Size p)) c
                _ p (HL s c Hc) Hp Hd) as (ddp & Hlk & Hmn & Hmx).
    cbn in Hmn, Hmx.
    assert (dd_symbol ddp = InvalidSymbol) as Hsym.
    { apply (HI p ddp Hlk). intros s' c' Hc' ->.
      destruct (decide (s' = s)) as [->|Hne].
      - rewrite (NoDup_fst_inj codes s p c Hnd Hc' Hc) in Hlt. lia.
      - by apply (Hpf s' p s c). }
    destruct ddp as [sy mn mx]. cbn in *. subst sy.
    exists mn, mx. split; [done|lia].
  - intros k Hk. destruct (t !! k) as [dd|] eqn:Hlk; [|done].
    destruct (HK k dd Hlk) as (_ & s & c & Hc & Hp).
    by destruct (Hk s c Hc).
Qed.

(** * Soundness of [Decoder.Decode] *)

Lemma Decoder_codes_OK l d :
  Z.of_nat (length l) < 2 ^ 19 → Decoder_Init l = Ok d → 0 < live l →
  codesOK (Decoder_codes l).
Proof.
  intros Hlen Hinit Hpos.
  destruct (Decoder_Init_inv l d Hlen Hinit Hpos)
    as (Hr & Hm & Hall & _ & _ & _ & _ & Hcs & _ & _ & Hnd & Hchar).
  split; [done|]. split.
  - intros s c Hc. apply Hchar in Hc as (i & x & Hi & Hx & -> & ->).
    specialize (Hall x ltac:(by eapply list_elem_of_lookup_2)).
    unfold normalized, MakeReversedCode. cbn [Size Bits].
    rewrite reverseBits_Reverse by (unfold maxBitsPerCode in *; lia).
    pose proof (Reverse_bound (Z.to_nat x) (naturalCode l i x)) as Hb.
    rewrite Z2Nat.id in Hb by lia.
    unfold maxBitsPerCode in *. repeat split; lia.
  - intros s1 c1 s2 c2. by apply (Decoder_codes_prefix_free l d).
Qed.

Lemma Decoder_Init_no_symbols l d :
  Decoder_Init l = Ok d → live l = 0 → d = emptyDecoder.
Proof.
  intros Hinit Hz. destruct (validate_no_symbols l Hz) as [Hv _].
  unfold Decoder_Init in Hinit. rewrite Hv in Hinit. cbn in Hinit.
  by injection Hinit as <-.
Qed.

(** Below [2^19] entries, [Decode] of the code of a live symbol returns the
    symbol with both bounds equal to the length of the code; [Decode] of a
    strict prefix of it returns no symbol and bounds that enclose that
    length; [Decode] of a code that is no prefix of an assigned code
    returns no symbol and the bounds 0, 0. *)
Theorem Decoder_Decode_sound l d :
  Z.of_nat (length l) < 2 ^ 19 → Decoder_Init l = Ok d →
  (∀ s c, (s, c) ∈ Decoder_codes l →
     Decoder_Decode d c = (s, Size c, Size c)
     ∧ ∀ p, isStrictPrefix p c →
            ∃ mn mx, Decoder_Decode d p = (InvalidSymbol, mn, mx)
                     ∧ mn ≤ Size c ≤ mx)
  ∧ (∀ hc, (∀ s c, (s, c) ∈ Decoder_codes l → ¬ isPrefix hc c) →
           Decoder_Decode d hc = (InvalidSymbol, 0, 0)).
Proof.
  intros Hlen Hinit. pose proof (live_nonneg l).
  destruct (decide (live l = 0)) as [Hz|Hnz].
  - rewrite (Decoder_Init_no_symbols l d Hinit Hz).
    destruct (validate_no_symbols l Hz) as [_ ->]. split.
    + intros s c Hc. by apply elem_of_nil in Hc.
    + intros hc _. done.
  - assert (0 < live l) as Hpos by lia.
    pose proof (Decoder_codes_OK l d Hlen Hinit Hpos) as Hok.
    destruct (Decoder_Init_inv l d Hlen Hinit Hpos)
      as (_ & _ & _ & _ & _ & _ & _ & _ & _ & Htab & _ & _).
    destruct (tableInv_decode _ _ Hok (foldl_fillPair_inv _ Hok))
      as [Hcodes Hnone].
    rewrite <- Htab in Hcodes, Hnone. unfold Decoder_Decode. split.
    + intros s c Hc. destruct (Hcodes s c Hc) as [Hlk Hpre].
      rewrite Hlk. split; [done|].
      intros p Hp. destruct (Hpre p Hp) as (mn & mx & Hlkp & Hr).
      exists mn, mx. by rewrite Hlkp.
    + intros hc Hhc. by rewrite (Hnone hc Hhc).
Qed.

(** * The completeness check modulo [2^32] *)

(** [Decoder.Init] accepts every length sequence whose consumed code space
    is [2^maxSize] modulo [2^32]. *)
Lemma Decoder_Init_accepts l m :
  Z.of_nat (length l) < 2 ^ 32 → inRange l → m ∈ l → m ≠ 0 →
  (∀ x, x ∈ l → x ≤ m) → u32 (codeSpace m l) = 2 ^ m →
  ∃ d, Decoder_Init l = Ok d ∧ d_maxSize d = m ∧ d_sizes d = l
       ∧ ∀ s hc, (s, hc) ∈ Decoder_codes l ↔
           ∃ i x, l !! i = Some x ∧ x ≠ 0 ∧ s = Z.of_nat i
                  ∧ hc = MakeReversedCode x
                           (u32 (firstCode x l + cnt x (take i l))).
Proof.
  intros Hlen Hr Hm Hm0 Hle Hcs.
  pose proof (live_pos l m Hm Hm0) as Hpos.
  destruct (validate_run l Hlen Hr Hpos)
    as (sc & next & Hinv & Hnl & Hnext & Heq).
  destruct (scanInv_bounds l sc Hinv Hpos) as (Hmin & Hmm & Hmax & Hall & Hlow).
  assert (sc_maxSize sc = m) as Hmaxm.
  { destruct Hinv as (_ & _ & _ & _ & H). destruct (H Hpos) as (_ & _ & ? & _).
    specialize (Hall m Hm). specialize (Hle (sc_maxSize sc) ltac:(done)). lia. }
  rewrite Hmaxm in Heq. cbn zeta in Heq. rewrite Hcs in Heq.
  assert (validate l = Ok (Some (sc, next))) as Hv.
  { rewrite Heq. case_bool_decide; [done|].
    by rewrite bool_decide_eq_false_2 by (intros ?; done). }
  destruct (forM_assignStep l (mkAssign 0 next ∅) Hr Hnl) as (st & Hrun & _).
  exists (mkDecoder (as_table st) l (sc_minSize sc) (sc_maxSize sc)).
  split; [|split; [done|split; [done|]]].
  { unfold Decoder_Init. rewrite Hv. cbn [mbind result_bind].
    by rewrite Hrun. }
  intros s hc. unfold Decoder_codes. rewrite Hv.
  rewrite (assignedFrom_elem l (sc_minSize sc) (sc_maxSize sc) l [] next s hc
             eq_refl Hmin Hmax).
  - split.
    + intros (i & x & _ & H). by exists i, x.
    + intros (i & x & H). exists i, x. split; [cbn; lia|done].
  - intros x Hx Hx0. split; [by apply Hlow|by apply Hall].
  - split; [done|]. intros b Hb. unfold cnt. rewrite sumOf_nil, Z.add_0_r.
    by apply Hnext.
Qed.

Lemma sumOf_replicate f x n : sumOf f (replicate n x) = Z.of_nat n * f x.
Proof.
  induction n as [|n IH]; [done|].
  cbn [replicate]. rewrite sumOf_cons, IH. lia.
Qed.

(** A length sequence of [a + 3] ones followed by [b] fourteens. *)
Section Overflow.
Variables a b : nat.
Let sizes : list Z := 1 :: 1 :: 1 :: replicate a 1 ++ replicate b 14.

Hypothesis Hb : (0 < b)%nat.
Hypothesis Hlen : Z.of_nat a + Z.of_nat b + 3 < 2 ^ 32.
Hypothesis Hwrap : (Z.of_nat a + 3) * 2 ^ 13 + Z.of_nat b = 2 ^ 32 + 2 ^ 14.

Lemma overflow_codeSpace :
  codeSpace 14 sizes = (Z.of_nat a + 3) * 2 ^ 13 + Z.of_nat b.
Proof.
  unfold codeSpace, sizes. rewrite !sumOf_cons, sumOf_app, !sumOf_replicate.
  rewrite !bool_decide_eq_false_2 by done.
  change (2 ^ (14 - 14)) with 1. lia.
Qed.

Lemma overflow_accepted :
  ∃ d, Decoder_Init sizes = Ok d ∧ d_maxSize d = 14
       ∧ (0, MakeCode 1 0) ∈ Decoder_codes sizes
       ∧ (2, MakeCode 1 0) ∈ Decoder_codes sizes.
Proof.
  assert (∀ x, x ∈ sizes → x = 1 ∨ x = 14) as Hel.
  { intros x Hx. unfold sizes in Hx.
    repeat (apply elem_of_cons in Hx as [->|Hx]; [by left|]).
    apply elem_of_app in Hx as [Hx|Hx];
      apply elem_of_replicate in Hx as [-> _]; [by left|by right]. }
  destruct (Decoder_Init_accepts sizes 14) as (d & Hinit & Hmax & _ & Hchar).
  - unfold sizes. cbn [length]. rewrite length_app, !length_replicate. lia.
  - apply Forall_forall. intros x Hx.
    destruct (Hel x Hx) as [-> | ->]; done.
  - unfold sizes. do 3 right. apply elem_of_app. right.
    apply elem_of_replicate. split; [done|lia].
  - done.
  - intros x Hx. destruct (Hel x Hx) as [-> | ->]; lia.
  - rewrite overflow_codeSpace, Hwrap. done.
  - exists d. split; [done|]. split; [done|].
    assert (firstCode 1 sizes = 0) as Hfc.
    { apply firstCode_below. intros x Hx _.
      destruct (Hel x Hx) as [-> | ->]; lia. }
    split; apply Hchar.
    + exists 0%nat, 1. repeat (split; [done|]). rewrite Hfc. done.
    + exists 2%nat, 1. repeat (split; [done|]). rewrite Hfc. done.
Qed.
End Overflow.

Lemma codeSpace_single l :
  (∀ x, x ∈ l → 0 ≤ x ≤ 1) → codeSpace 1 l = live l.
Proof.
  intros H. apply sumOf_ext. intros x Hx. specialize (H x Hx).
  case_bool_decide; [done|]. by replace x with 1 by lia.
Qed.

(** Below [2^19] entries the check is exact: a length sequence with a live
    symbol is accepted when it consumes exactly [2^maxSize], or is the code
    of a single symbol of length 1, and is rejected with the error
    "degenerate Huffman tree" otherwise. *)
Theorem Decoder_Init_check l :
  Z.of_nat (length l) < 2 ^ 19 → inRange l → 0 < live l →
  ∃ m, m ∈ l ∧ (∀ x, x ∈ l → x ≤ m)
       ∧ match Decoder_Init l with
         | Ok d => d_maxSize d = m
                   ∧ (codeSpace m l = 2 ^ m ∨ (live l = 1 ∧ m = 1))
         | Err e => e = ErrDegenerate (2 ^ m) (codeSpace m l)
                    ∧ codeSpace m l ≠ 2 ^ m ∧ ¬ (live l = 1 ∧ m = 1)
         | Panic _ => False
         end.
Proof.
  intros Hlen Hr Hpos.
  assert (Z.of_nat (length l) < 2 ^ 32) as Hlen32 by lia.
  destruct (validate_run l Hlen32 Hr Hpos)
    as (sc & next & Hinv & Hnl & Hnext & Heq).
  destruct (scanInv_bounds l sc Hinv Hpos) as (Hmin & Hmm & Hmax & Hall & Hlow).
  assert (sc_maxSize sc ∈ l) as Hmaxl.
  { destruct Hinv as (_ & _ & _ & _ & H). by destruct (H Hpos) as (_ & _ & ? & _). }
  exists (sc_maxSize sc). split; [done|]. split; [intros x Hx; by apply Hall|].
  cbn zeta in Heq. rewrite codeSpace_no_wrap in Heq by (done || lia).
  unfold Decoder_Init. rewrite Heq.
  destruct (forM_assignStep l (mkAssign 0 next ∅) Hr Hnl) as (st & Hrun & _).
  destruct (decide (codeSpace (sc_maxSize sc) l = 1 ∧ sc_maxSize sc = 1))
    as [[Hc1 Hm1]|Hnot].
  - rewrite bool_decide_eq_true_2 by done. cbn [mbind result_bind].
    rewrite Hrun. cbn. split; [done|]. right. split; [|done].
    rewrite <- Hc1, Hm1. symmetry. apply codeSpace_single.
    intros x Hx. specialize (Hall x Hx). lia.
  - rewrite bool_decide_eq_false_2 by done.
    destruct (decide (codeSpace (sc_maxSize sc) l = 2 ^ sc_maxSize sc)) as [He|Hne].
    + rewrite bool_decide_eq_false_2 by (intros ?; done).
      cbn [mbind result_bind]. rewrite Hrun. cbn. split; [done|by left].
    + rewrite bool_decide_eq_true_2 by done. cbn.
      split; [done|]. split; [done|].
      intros [Hl1 Hm1]. apply Hnot. split; [|done].
      rewrite Hm1, codeSpace_single; [done|].
      intros x Hx. specialize (Hall x Hx). lia.
Qed.

Lemma Decoder_Init_check_witness :
  ∃ m, m ∈ [1; 1; 1] ∧ (∀ x, x ∈ [1; 1; 1] → x ≤ m)
       ∧ match Decoder_Init [1; 1; 1] with
         | Ok d => d_maxSize d = m
                   ∧ (codeSpace m [1; 1; 1] = 2 ^ m
                      ∨ (live [1; 1; 1] = 1 ∧ m = 1))
         | Err e => e = ErrDegenerate (2 ^ m) (codeSpace m [1; 1; 1])
                    ∧ codeSpace m [1; 1; 1] ≠ 2 ^ m
                    ∧ ¬ (live [1; 1; 1] = 1 ∧ m = 1)
         | Panic _ => False
         end.
Proof.
  apply (Decoder_Init_check [1; 1; 1]).
  - reflexivity.
  - repeat constructor; done.
  - reflexivity.
Defined.

(** Scenarios D and E. *)
Lemma scenario_D_E :
  (∃ e, Decoder_Init [1; 1; 1] = Err e ∧ kindOf e = OversubscribedCode)
  ∧ (∃ d, Decoder_Init [1] = Ok d ∧ Decoder_codes [1] = [(0, MakeCode 1 0)]
          ∧ Decoder_Decode d (MakeCode 1 0) = (0, 1, 1)).
Proof.
  split.
  - eexists. split; [vm_compute; reflexivity|]. reflexivity.
  - eexists. split; [vm_compute; reflexivity|]. vm_compute. done.
Qed.

Lemma overflow_numbers :
  (0 < Z.to_nat 16384)%nat
  ∧ Z.of_nat (Z.to_nat 524285) + Z.of_nat (Z.to_nat 16384) + 3 < 2 ^ 32
  ∧ (Z.of_nat (Z.to_nat 524285) + 3) * 2 ^ 13 + Z.of_nat (Z.to_nat 16384)
    = 2 ^ 32 + 2 ^ 14.
Proof. rewrite !Z2Nat.id by lia. repeat split; lia. Qed.

(** C7.  The completeness check is computed in [uint32].  The sequence of
    [2^19] ones and [2^14] fourteens consumes the code space
    [2^32 + 2^14], which is not [2^14]; the sum wraps to [2^14] and
    [Decoder.Init] accepts the sequence. *)
Theorem completeness_check_wraps :
  ∃ d, Decoder_Init overflowSizes = Ok d
       ∧ Decoder_MaxSize d = 14
       ∧ codeSpace 14 overflowSizes = 2 ^ 32 + 2 ^ 14
       ∧ codeSpace 14 overflowSizes ≠ 2 ^ 14
       ∧ Z.of_nat (length overflowSizes) = 2 ^ 19 + 2 ^ 14.
Proof.
  destruct overflow_numbers as (Hb & Hlen & Hwrap).
  destruct (overflow_accepted _ _ Hb Hlen Hwrap) as (d & Hinit & Hmax & _).
  assert (codeSpace 14 overflowSizes = 2 ^ 32 + 2 ^ 14) as Hcs.
  { unfold overflowSizes. by rewrite (overflow_codeSpace _ _ Hb). }
  exists d. split; [exact Hinit|]. split; [exact Hmax|].
  split; [exact Hcs|]. split; [rewrite Hcs; lia|].
  unfold overflowSizes. cbn [length].
  rewrite length_app, !length_replicate. lia.
Qed.

(** C2.  In the Decoder that [Decoder.Init] builds from that sequence the
    symbols 0 and 2 have the same code, so [Decode] cannot return each live
    symbol for its code. *)
Theorem Decode_after_wrap :
  ∃ d, Decoder_Init overflowSizes = Ok d
       ∧ (0, MakeCode 1 0) ∈ Decoder_codes overflowSizes
       ∧ (2, MakeCode 1 0) ∈ Decoder_codes overflowSizes
       ∧ ¬ (∀ s c, (s, c) ∈ Decoder_codes overflowSizes →
                   Decoder_Decode d c = (s, Size c, Size c)).
Proof.
  destruct overflow_numbers as (Hb & Hlen & Hwrap).
  destruct (overflow_accepted _ _ Hb Hlen Hwrap) as (d & Hinit & _ & H0 & H2).
  exists d. split; [exact Hinit|]. split; [exact H0|]. split; [exact H2|].
  intros H. pose proof (H _ _ H0) as E0. pose proof (H _ _ H2) as E2.
  rewrite E0 in E2. discriminate.
Qed.

(** * [Encoder.InitFromSizes] *)

Lemma sizesStep_zero st :
  sizesStep st 0
  = Ok (mkSizes (sz_symbol st + 1) (sz_codes st) (sz_hasMinMax st)
                (sz_minSize st) (sz_maxSize st)).
Proof. done. Qed.

Lemma sizesStep_live st x codes :
  x ≠ 0 → setSize (sz_codes st) (sz_symbol st) x = Ok codes →
  ∃ mn mx, sizesStep st x
           = Ok (mkSizes (sz_symbol st + 1) codes true mn mx).
Proof.
  intros Hx Hset. unfold sizesStep. rewrite bool_decide_eq_false_2 by done.
  destruct (_ : Z * Z) as [mn mx]. rewrite Hset. by exists mn, mx.
Qed.

Lemma forM_sizesStep_run rest : ∀ pre st,
  sz_codes st = sizedCodes pre ++ replicate (length rest) (MakeCode 0 0) →
  sz_symbol st = Z.of_nat (length pre) →
  ∃ st', forM sizesStep rest st = Ok st'
         ∧ sz_codes st' = sizedCodes (pre ++ rest).
Proof.
  induction rest as [|x rest IH]; intros pre st Hc Hs.
  - exists st. split; [done|]. rewrite Hc, app_nil_r. cbn. by rewrite app_nil_r.
  - cbn [forM]. destruct (decide (x = 0)) as [->|Hx].
    + rewrite sizesStep_zero. cbn [mbind result_bind].
      destruct (IH (pre ++ [0])
                  (mkSizes (sz_symbol st + 1) (sz_codes st) (sz_hasMinMax st)
                           (sz_minSize st) (sz_maxSize st)))
        as (st' & Hrun & Hst').
      * cbn [sz_codes]. rewrite Hc. unfold sizedCodes.
        rewrite fmap_app, <- app_assoc. done.
      * cbn [sz_symbol]. rewrite length_app. cbn. lia.
      * exists st'. split; [done|]. by rewrite Hst', <- app_assoc.
    + assert (length (sizedCodes pre) = length pre) as Hlp
        by (unfold sizedCodes; by rewrite length_fmap).
      assert (setSize (sz_codes st) (sz_symbol st) x
              = Ok (sizedCodes (pre ++ [x])
                      ++ replicate (length rest) (MakeCode 0 0))) as Hset.
      { unfold setSize. rewrite Hc, Hs.
        assert (index (sizedCodes pre ++ replicate (length (x :: rest))
                         (MakeCode 0 0)) (Z.of_nat (length pre))
                = Ok (MakeCode 0 0)) as ->.
        { apply index_Ok. split; [lia|]. rewrite Nat2Z.id.
          rewrite lookup_app_r by lia. rewrite Hlp, Nat.sub_diag. done. }
        cbn [mbind result_bind]. unfold store.
        rewrite bool_decide_eq_true_2
          by (rewrite length_app, length_replicate, Hlp; cbn; lia).
        f_equal. rewrite Nat2Z.id.
        rewrite insert_app_r_alt by lia. rewrite Hlp, Nat.sub_diag.
        unfold sizedCodes. rewrite fmap_app, <- app_assoc. done. }
      destruct (sizesStep_live st x _ Hx Hset) as (mn & mx & ->).
      cbn [mbind result_bind].
      destruct (IH (pre ++ [x])
                  (mkSizes (sz_symbol st + 1)
                     (sizedCodes (pre ++ [x])
                        ++ replicate (length rest) (MakeCode 0 0))
                     true mn mx))
        as (st' & Hrun & Hst').
      * done.
      * cbn [sz_symbol]. rewrite length_app. cbn. lia.
      * exists st'. split; [done|]. by rewrite Hst', <- app_assoc.
Qed.

Lemma collectStep_Ok st hc :
  0 ≤ Size hc ≤ maxBitsPerCode →
  collectStep st hc
  = Ok (mkCollect (co_symbol st + 1)
          (co_sorted st
             ++ if bool_decide (Size hc = 0) then []
                else [mkSS (co_symbol st) (Size hc)])).
Proof.
  intros Hs. unfold collectStep. case_bool_decide.
  - by rewrite app_nil_r.
  - by rewrite bool_decide_eq_false_2 by lia.
Qed.

Lemma forM_collectStep_run codes : ∀ st,
  Forall (fun hc => 0 ≤ Size hc ≤ maxBitsPerCode) codes →
  forM collectStep codes st
  = Ok (mkCollect (co_symbol st + Z.of_nat (length codes))
          (co_sorted st ++ liveItems (co_symbol st) (Size <$> codes))).
Proof.
  induction codes as [|hc codes IH]; intros st Hall.
  - cbn. rewrite Z.add_0_r, app_nil_r. by destruct st.
  - apply Forall_cons in Hall as [Hhc Hall].
    cbn [forM]. rewrite collectStep_Ok by done. cbn [mbind result_bind].
    rewrite IH by done. cbn [co_symbol co_sorted fmap list_fmap liveItems length].
    f_equal. f_equal; [lia|]. by rewrite <- app_assoc.
Qed.

(** The first size above [maxBitsPerCode] stops [secondPass]. *)
Lemma forM_collectStep_Err codes1 hc codes2 st :
  Forall (fun hc => 0 ≤ Size hc ≤ maxBitsPerCode) codes1 →
  Size hc > maxBitsPerCode →
  forM collectStep (codes1 ++ hc :: codes2) st
  = Err (ErrInvalidLength (Size hc) maxBitsPerCode).
Proof.
  intros H1 Hhc. rewrite forM_app, forM_collectStep_run by done.
  cbn [mbind result_bind forM]. unfold collectStep.
  rewrite bool_decide_eq_false_2 by (unfold maxBitsPerCode in *; lia).
  by rewrite bool_decide_eq_true_2 by done.
Qed.

(** * The sort of [secondPass] *)

Lemma bySize_Less_true a b : bySize_Less a b = true → ssLe a b.
Proof.
  unfold bySize_Less, ssLe. intros H. case_bool_decide as Hs.
  - apply bool_decide_eq_true_1 in H. by left.
  - apply bool_decide_eq_true_1 in H. right. split; lia.
Qed.

Lemma bySize_Less_false a b : bySize_Less a b = false → ssLe b a.
Proof.
  unfold bySize_Less, ssLe. intros H. case_bool_decide as Hs.
  - apply bool_decide_eq_false_1 in H. left. lia.
  - apply bool_decide_eq_false_1 in H. right. split; lia.
Qed.

Lemma ssLe_trans a b c : ssLe a b → ssLe b c → ssLe a c.
Proof. unfold ssLe. lia. Qed.

Lemma bySize_insert_Permutation x l : bySize_insert x l ≡ₚ x :: l.
Proof.
  induction l as [|y l IH]; [done|]. cbn [bySize_insert].
  destruct (bySize_Less y x); [|done].
  rewrite IH. apply Permutation_swap.
Qed.

Lemma bySize_insert_sorted x l :
  StronglySorted ssLe l → StronglySorted ssLe (bySize_insert x l).
Proof.
  induction 1 as [|y l Hs IH Hy]; cbn [bySize_insert].
  - repeat constructor.
  - destruct (bySize_Less y x) eqn:Hless.
    + constructor; [done|].
      rewrite bySize_insert_Permutation. constructor; [|done].
      by apply bySize_Less_true.
    + apply bySize_Less_false in Hless.
      constructor; [by constructor|]. constructor; [done|].
      eapply Forall_impl; [exact Hy|]. intros z Hz.
      by apply ssLe_trans with y.
Qed.

Lemma bySize_Sort_Permutation l : bySize_Sort l ≡ₚ l.
Proof.
  induction l as [|x l IH]; [done|]. unfold bySize_Sort in *. cbn [foldr].
  by rewrite bySize_insert_Permutation, IH.
Qed.

Lemma bySize_Sort_sorted l : StronglySorted ssLe (bySize_Sort l).
Proof.
  induction l as [|x l IH]; [constructor|].
  unfold bySize_Sort in *. cbn [foldr]. by apply bySize_insert_sorted.
Qed.

Lemma liveItems_elem sizes : ∀ s0 it,
  it ∈ liveItems s0 sizes ↔
  ∃ i, sizes !! i = Some (ss_size it) ∧ ss_size it ≠ 0
       ∧ ss_symbol it = s0 + Z.of_nat i.
Proof.
  induction sizes as [|x sizes IH]; intros s0 it.
  - cbn. split; [intros H; by apply elem_of_nil in H|].
    by intros (i & H & _).
  - cbn [liveItems]. rewrite elem_of_app, IH. split.
    + intros [Hin|(i & Hi & Hnz & Hs)].
      * case_bool_decide; [by apply elem_of_nil in Hin|].
        apply list_elem_of_singleton in Hin. subst it. exists 0%nat.
        cbn. split; [done|]. split; [done|lia].
      * exists (S i). split; [done|]. split; [done|lia].
    + intros ([|i] & Hi & Hnz & Hs).
      * left. cbn in Hi. injection Hi as ->.
        rewrite bool_decide_eq_false_2 by done.
        apply list_elem_of_singleton. destruct it. cbn in *. f_equal. lia.
      * right. exists i. split; [done|]. split; [done|lia].
Qed.

Lemma liveItems_NoDup sizes : ∀ s0,
  NoDup (ss_symbol <$> liveItems s0 sizes).
Proof.
  induction sizes as [|x sizes IH]; intros s0; [constructor|].
  cbn [liveItems]. case_bool_decide; [apply IH|].
  cbn. constructor; [|apply IH].
  intros Hin. apply list_elem_of_fmap in Hin as (it & Hs & Hin).
  apply liveItems_elem in Hin as (i & _ & _ & Hi). lia.
Qed.

(** * The walk of [secondPass] over the sorted symbols *)

Lemma weight_nonneg b done : 0 ≤ weight b done.
Proof. apply sumOf_nonneg. intros x _. apply Z.pow_nonneg. lia. Qed.

Lemma weight_shift b1 b2 done :
  (∀ d, d ∈ done → ss_size d ≤ b1) → b1 ≤ b2 →
  weight b2 done = 2 ^ (b2 - b1) * weight b1 done.
Proof.
  intros Hd Hb. unfold weight. rewrite <- sumOf_scale. apply sumOf_ext.
  intros x Hx. apply list_elem_of_fmap in Hx as (d & -> & Hin).
  specialize (Hd d Hin). rewrite <- Z.pow_add_r by lia. f_equal. lia.
Qed.

Lemma weight_snoc b done item :
  weight b (done ++ [item]) = weight b done + 2 ^ (b - ss_size item).
Proof.
  unfold weight. rewrite fmap_app, sumOf_app.
  change (ss_size <$> [item]) with [ss_size item].
  rewrite sumOf_cons, sumOf_nil. lia.
Qed.

Lemma ldiff_mask v s :
  0 ≤ s → 0 ≤ v → Z.ldiff v (2 ^ s - 1) = 0 ↔ v < 2 ^ s.
Proof.
  intros Hs Hv. replace (2 ^ s - 1) with (Z.ones s)
    by (rewrite Z.ones_equiv; lia).
  rewrite Z.ldiff_ones_r, Z.shiftl_eq_0_iff, Z.shiftr_div_pow2 by lia.
  assert (0 < 2 ^ s) by (apply Z.pow_pos_nonneg; lia).
  split.
  - intros Hz. apply Z.div_small_iff in Hz; lia.
  - intros Hlt. apply Z.div_small. lia.
Qed.

(** One iteration of the walk. *)
Lemma assignLoop_cons item rest st done :
  walkInv done st → w_lastSize st ≤ ss_size item ≤ maxBitsPerCode →
  0 ≤ weight (ss_size item) done ≤ 2 ^ ss_size item
  ∧ assignLoop (item :: rest) st
    = (if bool_decide (weight (ss_size item) done < 2 ^ ss_size item) then
         codes ← setBits (w_codes st) (ss_symbol item)
                   (reverseBits (ss_size item) (weight (ss_size item) done));
         assignLoop rest
           (mkWalk codes (ss_size item) (weight (ss_size item) done + 1))
       else Ok (mkSP (w_codes st) (Some (ErrTooMany (ss_size item)))))
  ∧ (weight (ss_size item) done < 2 ^ ss_size item →
     ∀ codes, walkInv (done ++ [item])
                (mkWalk codes (ss_size item)
                        (weight (ss_size item) done + 1))).
Proof.
  intros (Hnext & Hdone & Hlast & Hle) Hs.
  set (s := ss_size item) in *. set (last := w_lastSize st) in *.
  pose proof (weight_shift last s done Hdone ltac:(lia)) as Hw.
  pose proof (weight_nonneg last done) as Hw0.
  pose proof (weight_nonneg s done) as Hws0.
  assert (0 < 2 ^ (s - last)) as Hp by (apply Z.pow_pos_nonneg; lia).
  assert (2 ^ s = 2 ^ (s - last) * 2 ^ last) as Hps.
  { rewrite <- Z.pow_add_r by lia. f_equal. lia. }
  assert (weight s done ≤ 2 ^ s) as Hwle.
  { rewrite Hw, Hps. apply Z.mul_le_mono_nonneg_l; lia. }
  assert (2 ^ s ≤ 2 ^ 15) as Hs15
    by (apply Z.pow_le_mono_r; unfold maxBitsPerCode in *; lia).
  split; [lia|]. split.
  - cbn [assignLoop]. fold s. fold last.
    assert ((if bool_decide (s > last)
             then (u32 (Z.shiftl (w_nextCode st) (u8 (s - last))), s)
             else (w_nextCode st, last))
            = (weight s done, s)) as ->.
    { case_bool_decide as Hgt.
      - f_equal. unfold u8. rewrite Z.mod_small
          by (unfold maxBitsPerCode in *; lia).
        rewrite Z.shiftl_mul_pow2 by lia. rewrite Hnext, Z.mul_comm, <- Hw.
        apply Z.mod_small. lia.
      - replace last with s in * by lia. by rewrite Hnext. }
    rewrite u32_pow2 by (unfold maxBitsPerCode in *; lia).
    assert (0 < 2 ^ s) by (apply Z.pow_pos_nonneg; lia).
    rewrite (u32_small (2 ^ s - 1)) by lia.
    rewrite (u32_small (weight s done + 1)) by lia.
    pose proof (ldiff_mask (weight s done) s ltac:(lia) Hws0) as Hmask.
    destruct (decide (weight s done < 2 ^ s)) as [Hfit|Hnofit].
    + rewrite bool_decide_eq_false_2 by (intros Hne; apply Hne; tauto).
      by rewrite bool_decide_eq_true_2 by done.
    + rewrite bool_decide_eq_true_2 by tauto.
      by rewrite bool_decide_eq_false_2 by done.
  - intros Hfit codes. unfold walkInv. cbn [w_nextCode w_lastSize].
    split; [|split; [|split]].
    + rewrite weight_snoc. fold s. rewrite Z.sub_diag. done.
    + intros d Hd. apply elem_of_app in Hd as [Hd|Hd].
      * specialize (Hdone d Hd). lia.
      * apply list_elem_of_singleton in Hd. subst d. fold s. lia.
    + lia.
    + lia.
Qed.
Lemma setBits_Ok codes symbol size bits :
  0 ≤ symbol → (Size <$> codes) !! Z.to_nat symbol = Some size →
  setBits codes symbol bits
  = Ok (<[Z.to_nat symbol := MakeCode size bits]> codes)
  ∧ Size <$> <[Z.to_nat symbol := MakeCode size bits]> codes = Size <$> codes.
Proof.
  intros Hs Hlk. rewrite list_lookup_fmap in Hlk.
  destruct (codes !! Z.to_nat symbol) as [hc|] eqn:Hhc; [|done].
  injection Hlk as <-. split.
  - unfold setBits.
    assert (index codes symbol = Ok hc) as -> by (by apply index_Ok).
    cbn [mbind result_bind]. unfold store.
    apply lookup_lt_Some in Hhc.
    by rewrite bool_decide_eq_true_2 by lia.
  - rewrite list_fmap_insert. cbn [Size].
    apply list_insert_id. by rewrite list_lookup_fmap, Hhc.
Qed.

Lemma assignLoop_run rest : ∀ done st,
  walkInv done st → StronglySorted ssLe rest →
  (∀ r, r ∈ rest → w_lastSize st ≤ ss_size r ≤ maxBitsPerCode) →
  slotsOK (w_codes st) rest →
  ∃ out, assignLoop rest st = Ok out
         ∧ Size <$> sp_codes out = Size <$> w_codes st
         ∧ (sp_err out = None ↔ allFit done rest)
         ∧ (sp_err out = None →
            sp_codes out = walked (w_codes st) done rest).
Proof.
  induction rest as [|item rest IH]; intros done st Hinv Hsorted Hsizes Hslots.
  - eexists. split; [done|]. cbn. tauto.
  - apply StronglySorted_inv in Hsorted as [Hsorted Hitem].
    destruct (assignLoop_cons item rest st done Hinv)
      as (Hv & Heq & Hinv'); [apply Hsizes; by left|].
    rewrite Heq. cbn [allFit walked].
    destruct (decide (weight (ss_size item) done < 2 ^ ss_size item))
      as [Hfit|Hnofit].
    + rewrite bool_decide_eq_true_2 by done.
      destruct (Hslots item ltac:(by left)) as [Hsym Hslot].
      destruct (setBits_Ok (w_codes st) (ss_symbol item) (ss_size item)
                  (reverseBits (ss_size item) (weight (ss_size item) done))
                  Hsym Hslot) as [-> Hsz].
      cbn [mbind result_bind].
      edestruct (IH (done ++ [item])) as (out & Hrun & Hsz' & Herr & Hcodes);
        [apply (Hinv' Hfit)|done| | |].
      * cbn [w_lastSize]. intros r Hr. split.
        -- rewrite Forall_forall in Hitem. destruct (Hitem r Hr); lia.
        -- apply Hsizes. by right.
      * cbn [w_codes]. intros it Hit. rewrite Hsz. apply Hslots. by right.
      * exists out. split; [exact Hrun|]. cbn [w_codes] in *.
        split; [by rewrite Hsz'|]. split; [|done].
        rewrite Herr. tauto.
    + rewrite bool_decide_eq_false_2 by done.
      eexists. split; [done|]. cbn [sp_codes sp_err].
      split; [done|]. split; [|done]. split; [done|tauto].
Qed.

Lemma weight_app b l1 l2 : weight b (l1 ++ l2) = weight b l1 + weight b l2.
Proof. unfold weight. by rewrite fmap_app, sumOf_app. Qed.

(** When the sizes are sorted and consume no more than the whole code
    space, every symbol finds room for its code. *)
Lemma allFit_kraft m rest : ∀ seen,
  weight m (seen ++ rest) ≤ 2 ^ m →
  StronglySorted ssLe rest →
  (∀ d r, d ∈ seen → r ∈ rest → ss_size d ≤ ss_size r) →
  (∀ r, r ∈ rest → 0 ≤ ss_size r ≤ m) →
  allFit seen rest.
Proof.
  induction rest as [|item rest IH]; intros seen Hk Hsorted Hdone Hm; [done|].
  apply StronglySorted_inv in Hsorted as [Hsorted Hitem].
  rewrite Forall_forall in Hitem.
  assert (0 ≤ ss_size item ≤ m) as Hs by (apply Hm; by left).
  cbn [allFit]. split.
  - assert (weight m (seen ++ [item]) ≤ 2 ^ m) as Hk'.
    { etrans; [|exact Hk].
      rewrite (cons_middle item seen rest), app_assoc, (weight_app m _ rest).
      pose proof (weight_nonneg m rest). lia. }
    assert (∀ d, d ∈ seen ++ [item] → ss_size d ≤ ss_size item) as Hbelow.
    { intros d Hd. apply elem_of_app in Hd as [Hd|Hd].
      - apply Hdone; [done|by left].
      - apply list_elem_of_singleton in Hd. by subst. }
    rewrite (weight_shift (ss_size item) m _ Hbelow) in Hk' by lia.
    rewrite weight_snoc, Z.sub_diag in Hk'.
    assert (2 ^ m = 2 ^ (m - ss_size item) * 2 ^ ss_size item) as Hpm.
    { rewrite <- Z.pow_add_r by lia. f_equal. lia. }
    rewrite Hpm in Hk'.
    apply Z.mul_le_mono_pos_l in Hk'; [|apply Z.pow_pos_nonneg; lia].
    change (2 ^ 0) with 1 in Hk'. lia.
  - apply IH.
    + by rewrite <- app_assoc.
    + done.
    + intros d r Hd Hr. apply elem_of_app in Hd as [Hd|Hd].
      * apply Hdone; [done|by right].
      * apply list_elem_of_singleton in Hd. subst d.
        destruct (Hitem r Hr); lia.
    + intros r Hr. apply Hm. by right.
Qed.

Lemma allFit_lookup rest : ∀ seen i it,
  allFit seen rest → rest !! i = Some it →
  weight (ss_size it) (seen ++ take i rest) < 2 ^ ss_size it.
Proof.
  induction rest as [|item rest IH]; intros seen i it Hfit Hi; [done|].
  destruct Hfit as [Hfit Hrest]. destruct i as [|i].
  - cbn in Hi. injection Hi as <-. cbn [take]. by rewrite app_nil_r.
  - cbn in Hi. cbn [take].
    rewrite (cons_middle item seen (take i rest)), app_assoc.
    by apply IH.
Qed.

Lemma walked_length rest : ∀ codes seen,
  length (walked codes seen rest) = length codes.
Proof.
  induction rest as [|item rest IH]; intros codes seen; [done|].
  cbn [walked]. by rewrite IH, length_insert.
Qed.

Lemma walked_other rest : ∀ codes seen j,
  (∀ r, r ∈ rest → Z.to_nat (ss_symbol r) ≠ j) →
  walked codes seen rest !! j = codes !! j.
Proof.
  induction rest as [|item rest IH]; intros codes seen j Hj; [done|].
  cbn [walked]. rewrite IH by (intros r Hr; apply Hj; by right).
  apply list_lookup_insert_ne. apply Hj. by left.
Qed.

Lemma walked_lookup rest : ∀ codes seen i it,
  NoDup (ss_symbol <$> rest) →
  (∀ r, r ∈ rest → 0 ≤ ss_symbol r < Z.of_nat (length codes)) →
  rest !! i = Some it →
  walked codes seen rest !! Z.to_nat (ss_symbol it)
  = Some (MakeCode (ss_size it)
            (reverseBits (ss_size it)
               (weight (ss_size it) (seen ++ take i rest)))).
Proof.
  induction rest as [|item rest IH]; intros codes seen i it Hnd Hr Hi; [done|].
  cbn in Hnd. apply NoDup_cons in Hnd as [Hni Hnd].
  cbn [walked]. destruct i as [|i].
  - cbn in Hi. injection Hi as <-. cbn [take]. rewrite app_nil_r.
    rewrite walked_other.
    + apply list_lookup_insert_eq.
      specialize (Hr item ltac:(by left)). lia.
    + intros r Hin Heq. apply Hni. apply list_elem_of_fmap. exists r.
      split; [|done].
      pose proof (Hr r ltac:(by right)).
      pose proof (Hr item ltac:(by left)). lia.
  - cbn in Hi. cbn [take].
    rewrite (cons_middle item seen (take i rest)), app_assoc.
    apply IH; [done| |done].
    intros r Hin. rewrite length_insert. apply Hr. by right.
Qed.
(** * [secondPass] and [Encoder.InitFromSizes] as a whole *)

Lemma sortedItems_elem sizes it :
  it ∈ sortedItems sizes ↔
  ∃ i, sizes !! i = Some (ss_size it) ∧ ss_size it ≠ 0
       ∧ ss_symbol it = Z.of_nat i.
Proof.
  unfold sortedItems. rewrite bySize_Sort_Permutation, liveItems_elem.
  split; intros (i & H1 & H2 & H3); exists i; (split; [done|split; [done|lia]]).
Qed.

Lemma sortedItems_NoDup sizes : NoDup (ss_symbol <$> sortedItems sizes).
Proof.
  unfold sortedItems. rewrite bySize_Sort_Permutation. apply liveItems_NoDup.
Qed.

Lemma sortedItems_nonempty sizes : 0 < live sizes → sortedItems sizes ≠ [].
Proof.
  intros Hpos Hnil.
  assert (∃ x, x ∈ sizes ∧ x ≠ 0) as (x & Hx & Hx0).
  { destruct (decide (Forall (fun x => x = 0) sizes)) as [Hall|Hex].
    - exfalso. assert (live sizes = 0); [|lia].
      apply sumOf_zero. intros y Hy. rewrite Forall_forall in Hall.
      by rewrite (Hall y Hy).
    - apply not_Forall_Exists in Hex; [|apply _].
      apply Exists_exists in Hex as (x & Hx & Hx0). by exists x. }
  apply list_elem_of_lookup in Hx as (i & Hi).
  assert (mkSS (Z.of_nat i) x ∈ sortedItems sizes) as Hin.
  { apply sortedItems_elem. by exists i. }
  rewrite Hnil in Hin. by apply elem_of_nil in Hin.
Qed.

Lemma secondPass_run codes :
  Forall (fun hc => 0 ≤ Size hc ≤ maxBitsPerCode) codes →
  sortedItems (Size <$> codes) ≠ [] →
  ∃ out, secondPass codes = Ok out
         ∧ Size <$> sp_codes out = Size <$> codes
         ∧ (sp_err out = None ↔ allFit [] (sortedItems (Size <$> codes)))
         ∧ (sp_err out = None →
            sp_codes out = walked codes [] (sortedItems (Size <$> codes))).
Proof.
  intros Hall Hne. unfold secondPass.
  rewrite forM_collectStep_run by done. cbn [co_sorted co_symbol app].
  fold (sortedItems (Size <$> codes)).
  pose proof (bySize_Sort_sorted (liveItems 0 (Size <$> codes))) as Hsorted.
  fold (sortedItems (Size <$> codes)) in Hsorted.
  assert (∀ r, r ∈ sortedItems (Size <$> codes) →
               0 ≤ ss_size r ≤ maxBitsPerCode
               ∧ 0 ≤ ss_symbol r
               ∧ (Size <$> codes) !! Z.to_nat (ss_symbol r) = Some (ss_size r))
    as Hitems.
  { intros r Hr. apply sortedItems_elem in Hr as (i & Hi & _ & Hs).
    rewrite Hs, Nat2Z.id. split; [|split; [lia|done]].
    rewrite list_lookup_fmap in Hi.
    destruct (codes !! i) as [hc|] eqn:Hhc; [|done]. injection Hi as <-.
    rewrite Forall_forall in Hall. apply Hall.
    by eapply list_elem_of_lookup_2. }
  destruct (sortedItems (Size <$> codes)) as [|first rest] eqn:Hs; [done|].
  change (index (first :: rest) 0) with (Ok first : result symbolAndSize).
  cbn [mbind result_bind].
  apply (assignLoop_run (first :: rest) [] (mkWalk codes (ss_size first) 0)).
  - unfold walkInv. cbn [w_nextCode w_lastSize].
    destruct (Hitems first ltac:(by left)) as (Hf & _).
    split; [done|]. split; [intros d Hd; by apply elem_of_nil in Hd|].
    split; [done|]. apply Z.pow_nonneg. lia.
  - done.
  - cbn [w_lastSize]. intros r Hr. split; [|by apply Hitems].
    apply StronglySorted_inv in Hsorted as [_ Hfirst].
    apply elem_of_cons in Hr as [->|Hr]; [done|].
    rewrite Forall_forall in Hfirst. destruct (Hfirst r Hr); lia.
  - intros r Hr. by apply Hitems.
Qed.

Lemma fmap_Size_sizedCodes l : Size <$> sizedCodes l = l.
Proof.
  unfold sizedCodes. rewrite <- list_fmap_compose.
  rewrite <- (list_fmap_id l) at 2. by apply list_fmap_ext.
Qed.

Lemma forM_sizesStep_sizes l :
  ∃ st, forM sizesStep l (mkSizes 0 (replicate (length l) (MakeCode 0 0))
                                  false 0 0) = Ok st
        ∧ sz_codes st = sizedCodes l.
Proof. by apply (forM_sizesStep_run l []). Qed.

(** [Encoder.InitFromSizes] on sizes up to [maxBitsPerCode], one of them
    live at least. *)
Lemma Encoder_InitFromSizes_run l :
  Forall (fun x => 0 ≤ x ≤ maxBitsPerCode) l → 0 < live l →
  (allFit [] (sortedItems l) →
   ∃ e, Encoder_InitFromSizes l = Ok e
        ∧ e_codes e = walked (sizedCodes l) [] (sortedItems l)
        ∧ Encoder_SizeBySymbol e = l)
  ∧ (¬ allFit [] (sortedItems l) → ∃ err, Encoder_InitFromSizes l = Err err).
Proof.
  intros Hall Hpos.
  destruct (forM_sizesStep_sizes l) as (st & Hrun & Hcodes).
  pose proof (fmap_Size_sizedCodes l) as Hsz.
  destruct (secondPass_run (sizedCodes l)) as (out & Hsp & Hsize & Herr & Hout).
  { unfold sizedCodes. apply Forall_fmap. by eapply Forall_impl. }
  { rewrite Hsz. by apply sortedItems_nonempty. }
  rewrite Hsz in Herr, Hout.
  unfold Encoder_InitFromSizes. rewrite Hrun. cbn [mbind result_bind].
  rewrite Hcodes, Hsp. cbn [mbind result_bind].
  split.
  - intros Hfit. apply Herr in Hfit as Hnone. rewrite Hnone.
    eexists. split; [done|]. unfold Encoder_SizeBySymbol. cbn [e_codes].
    split; [by apply Hout|]. by rewrite Hsize.
  - intros Hnofit. destruct (sp_err out) as [err|] eqn:He.
    + by exists err.
    + exfalso. by apply Hnofit, Herr.
Qed.

(** * Round trip between Decoder and Encoder *)

Lemma weight_liveItems m l : ∀ s0, weight m (liveItems s0 l) = codeSpace m l.
Proof.
  induction l as [|x l IH]; intros s0; [done|].
  cbn [liveItems]. rewrite weight_app, IH. unfold codeSpace.
  rewrite sumOf_cons. f_equal. case_bool_decide; [done|].
  unfold weight. cbn. lia.
Qed.

Lemma weight_sortedItems m l : weight m (sortedItems l) = codeSpace m l.
Proof.
  rewrite <- (weight_liveItems m l 0). unfold weight, sortedItems.
  apply sumOf_Permutation, fmap_Permutation, bySize_Sort_Permutation.
Qed.

(** Sizes that consume no more than the whole code space all find room in
    the walk of [secondPass]. *)
Lemma allFit_codeSpace m l :
  codeSpace m l ≤ 2 ^ m → (∀ x, x ∈ l → 0 ≤ x ≤ m) →
  allFit [] (sortedItems l).
Proof.
  intros Hk Hall. apply (allFit_kraft m).
  - cbn [app]. by rewrite weight_sortedItems.
  - apply bySize_Sort_sorted.
  - intros d r Hd. by apply elem_of_nil in Hd.
  - intros r Hr. apply sortedItems_elem in Hr as (i & Hi & _).
    apply Hall. by eapply list_elem_of_lookup_2.
Qed.

(** Below [2^19] entries, a length sequence with a live symbol that
    [Decoder.Init] accepts goes from the Decoder to an Encoder with the same
    sequence, and from that Encoder back to the Decoder. *)
Theorem roundtrip_live l d :
  Z.of_nat (length l) < 2 ^ 19 → Decoder_Init l = Ok d → 0 < live l →
  ∃ e, Decoder_Encoder d = Ok e
       ∧ Encoder_InitFromSizes l = Ok e
       ∧ Encoder_SizeBySymbol e = l
       ∧ Encoder_Decoder e = Ok d
       ∧ Decoder_SizeBySymbol d = l.
Proof.
  intros Hlen Hinit Hpos.
  destruct (Decoder_Init_inv l d Hlen Hinit Hpos)
    as (Hr & Hm & Hall & _ & _ & _ & _ & Hcs & Hsizes & _).
  assert (codeSpace (d_maxSize d) l ≤ 2 ^ d_maxSize d) as Hkraft.
  { destruct Hcs as [->|[-> ->]]; [lia|done]. }
  destruct (Encoder_InitFromSizes_run l) as [Hok _]; [|done|].
  { apply Forall_forall. intros x Hx. specialize (Hall x Hx).
    unfold maxBitsPerCode in *. lia. }
  destruct (Hok (allFit_codeSpace _ _ Hkraft Hall)) as (e & He & _ & Hsz).
  exists e.
  unfold Decoder_Encoder, Encoder_InitFromDecoder, Decoder_SizeBySymbol,
    Encoder_Decoder, Decoder_InitFromEncoder.
  rewrite Hsizes, He, Hsz, Hinit. done.
Qed.

(** * Prefix-freedom of the codes of [Encoder.InitFromSizes] *)

Lemma StronglySorted_lookup_lt {A} (R : A → A → Prop) l :
  StronglySorted R l →
  ∀ i j a b, (i < j)%nat → l !! i = Some a → l !! j = Some b → R a b.
Proof.
  induction 1 as [|x l Hs IH Hx]; intros i j a b Hij Hi Hj; [done|].
  destruct j as [|j]; [lia|]. cbn in Hj. destruct i as [|i].
  - cbn in Hi. injection Hi as <-. rewrite Forall_forall in Hx.
    apply Hx. by eapply list_elem_of_lookup_2.
  - cbn in Hi. apply (IH i j); [lia|done|done].
Qed.

(** In the walk, a later symbol gets a code beyond every extension of the
    code of an earlier symbol. *)
Lemma weight_later sorted i j it1 it2 :
  StronglySorted ssLe sorted → (i < j)%nat →
  sorted !! i = Some it1 → sorted !! j = Some it2 →
  ss_size it1 ≤ ss_size it2
  ∧ 2 ^ (ss_size it2 - ss_size it1)
    * (weight (ss_size it1) (take i sorted) + 1)
    ≤ weight (ss_size it2) (take j sorted).
Proof.
  intros Hsorted Hij Hi Hj.
  assert (ss_size it1 ≤ ss_size it2) as Hle.
  { destruct (StronglySorted_lookup_lt _ _ Hsorted i j it1 it2 Hij Hi Hj); lia. }
  split; [done|].
  assert (take j sorted = take i sorted ++ it1 :: drop (S i) (take j sorted))
    as Htake.
  { rewrite <- (take_drop_middle (take j sorted) i it1) at 1.
    - by rewrite take_take, Nat.min_l by lia.
    - by rewrite lookup_take_lt. }
  rewrite Htake, (cons_middle it1), app_assoc, weight_app.
  pose proof (weight_nonneg (ss_size it2) (drop (S i) (take j sorted))).
  rewrite (weight_shift (ss_size it1) (ss_size it2)); [|  |done].
  - rewrite weight_snoc, Z.sub_diag. change (2 ^ 0) with 1. lia.
  - intros d Hd. apply elem_of_app in Hd as [Hd|Hd].
    + apply list_elem_of_lookup in Hd as (k & Hk).
      pose proof (lookup_lt_Some _ _ _ Hk) as Hlt.
      rewrite length_take in Hlt.
      rewrite lookup_take_lt in Hk by lia.
      destruct (StronglySorted_lookup_lt _ _ Hsorted k i d it1
                  ltac:(lia) Hk Hi); lia.
    + apply list_elem_of_singleton in Hd. by subst.
Qed.

Lemma walk_codes_not_prefix sorted i j it1 it2 :
  StronglySorted ssLe sorted → allFit [] sorted → i ≠ j →
  sorted !! i = Some it1 → sorted !! j = Some it2 →
  0 ≤ ss_size it1 ≤ 32 → 0 ≤ ss_size it2 ≤ 32 →
  ¬ isPrefix
      (MakeReversedCode (ss_size it1) (weight (ss_size it1) (take i sorted)))
      (MakeReversedCode (ss_size it2) (weight (ss_size it2) (take j sorted))).
Proof.
  intros Hsorted Hfit Hij Hi Hj Hs1 Hs2 Hpre.
  pose proof (allFit_lookup sorted [] i it1 Hfit Hi) as Hf1.
  pose proof (allFit_lookup sorted [] j it2 Hfit Hj) as Hf2.
  cbn [app] in Hf1, Hf2.
  pose proof (weight_nonneg (ss_size it1) (take i sorted)).
  pose proof (weight_nonneg (ss_size it2) (take j sorted)).
  assert (ss_size it1 ≤ ss_size it2) as Hle
    by (destruct Hpre as [Hs _]; cbn in Hs; lia).
  apply isPrefix_reversed in Hpre; [|lia|lia|lia|lia].
  destruct (decide (i < j)%nat) as [Hlt|Hge].
  - destruct (weight_later sorted i j it1 it2 Hsorted Hlt Hi Hj) as [_ Hw].
    assert (weight (ss_size it1) (take i sorted) + 1
            ≤ weight (ss_size it2) (take j sorted)
              / 2 ^ (ss_size it2 - ss_size it1)).
    { apply Z.div_le_lower_bound; [apply Z.pow_pos_nonneg; lia|lia]. }
    lia.
  - destruct (weight_later sorted j i it2 it1 Hsorted ltac:(lia) Hj Hi)
      as [Hle' Hw].
    replace (ss_size it2) with (ss_size it1) in * by lia.
    rewrite Z.sub_diag in Hw, Hpre. change (2 ^ 0) with 1 in *.
    rewrite Z.div_1_r in Hpre. lia.
Qed.

Lemma Forall_or_first {A} (P : A → Prop) `{∀ x, Decision (P x)} (l : list A) :
  Forall P l ∨ ∃ l1 x l2, l = l1 ++ x :: l2 ∧ Forall P l1 ∧ ¬ P x.
Proof.
  induction l as [|x l IH]; [by left|].
  destruct (decide (P x)) as [Hx|Hx].
  - destruct IH as [IH|(l1 & y & l2 & -> & H1 & Hy)].
    + left. by constructor.
    + right. exists (x :: l1), y, l2. split; [done|]. split; [|done].
      by constructor.
  - right. exists [], x, l. by split.
Qed.

(** A size above [maxBitsPerCode] makes [Encoder.InitFromSizes] fail. *)
Lemma Encoder_InitFromSizes_too_long l1 x l2 :
  Forall (fun y => 0 ≤ y ≤ maxBitsPerCode) l1 → x > maxBitsPerCode →
  Encoder_InitFromSizes (l1 ++ x :: l2)
  = Err (ErrInvalidLength x maxBitsPerCode).
Proof.
  intros H1 Hx.
  destruct (forM_sizesStep_sizes (l1 ++ x :: l2)) as (st & Hrun & Hcodes).
  unfold Encoder_InitFromSizes. rewrite Hrun. cbn [mbind result_bind].
  rewrite Hcodes. unfold secondPass, sizedCodes. rewrite fmap_app, fmap_cons.
  rewrite forM_collectStep_Err; [done| |done].
  apply Forall_fmap. by eapply Forall_impl.
Qed.

Global Instance allFit_dec seen rest : Decision (allFit seen rest).
Proof. revert seen. induction rest; intros; cbn [allFit]; apply _. Defined.

(** When [Encoder.InitFromSizes] succeeds, the codes it has written are
    those of the walk, and every one found room. *)
Lemma Encoder_InitFromSizes_inv l e :
  Forall (fun x => 0 ≤ x) l → Encoder_InitFromSizes l = Ok e →
  Forall (fun x => 0 ≤ x ≤ maxBitsPerCode) l
  ∧ 0 < live l
  ∧ allFit [] (sortedItems l)
  ∧ e_codes e = walked (sizedCodes l) [] (sortedItems l)
  ∧ Encoder_SizeBySymbol e = l.
Proof.
  intros Hpos Hinit.
  destruct (Forall_or_first (fun x => 0 ≤ x ≤ maxBitsPerCode) l)
    as [Hall|(l1 & x & l2 & -> & H1 & Hx)].
  - split; [done|].
    assert (0 < live l) as Hlive.
    { pose proof (live_nonneg l).
      destruct (decide (live l = 0)) as [Hz|]; [|lia].
      rewrite Encoder_InitFromSizes_zeros in Hinit; [done|].
      apply Forall_forall. intros y Hy. by apply (live_zero l). }
    split; [done|].
    destruct (Encoder_InitFromSizes_run l Hall Hlive) as [Hok Herr].
    destruct (decide (allFit [] (sortedItems l))) as [Hfit|Hnofit].
    + destruct (Hok Hfit) as (e' & He' & Hcodes & Hsz).
      rewrite He' in Hinit. injection Hinit as <-. done.
    + destruct (Herr Hnofit) as (err & He). by rewrite He in Hinit.
  - rewrite Encoder_InitFromSizes_too_long in Hinit; [done|done|].
    rewrite Forall_app, Forall_cons in Hpos. lia.
Qed.

Lemma Encoder_code_walk l e s c :
  Forall (fun x => 0 ≤ x) l → Encoder_InitFromSizes l = Ok e →
  Encoder_code e s c →
  ∃ i it, sortedItems l !! i = Some it ∧ ss_symbol it = s
          ∧ 0 < ss_size it ≤ maxBitsPerCode
          ∧ c = MakeReversedCode (ss_size it)
                  (weight (ss_size it) (take i (sortedItems l))).
Proof.
  intros Hpos Hinit (Hs & Hlk & Hnz).
  destruct (Encoder_InitFromSizes_inv l e Hpos Hinit)
    as (Hall & Hlive & Hfit & Hcodes & Hsz).
  assert (l !! Z.to_nat s = Some (Size c)) as Hl.
  { rewrite <- Hsz. unfold Encoder_SizeBySymbol.
    by rewrite list_lookup_fmap, Hlk. }
  assert (mkSS s (Size c) ∈ sortedItems l) as Hin.
  { apply sortedItems_elem. exists (Z.to_nat s). cbn. split; [done|].
    split; [done|lia]. }
  apply list_elem_of_lookup in Hin as (i & Hi).
  exists i, (mkSS s (Size c)). split; [done|]. split; [done|].
  cbn [ss_size ss_symbol]. split.
  { rewrite Forall_forall in Hall.
    specialize (Hall (Size c) ltac:(by eapply list_elem_of_lookup_2)). lia. }
  pose proof (walked_lookup (sortedItems l) (sizedCodes l) [] i
                (mkSS s (Size c)) (sortedItems_NoDup l)) as Hw.
  rewrite <- Hcodes in Hw. cbn [ss_size ss_symbol app] in Hw.
  rewrite Hw in Hlk; [by injection Hlk as <-| |done].
  intros r Hr. apply sortedItems_elem in Hr as (k & Hk & _ & ->).
  apply lookup_lt_Some in Hk. unfold sizedCodes. rewrite length_fmap. lia.
Qed.

(** The codes that [Encoder.InitFromSizes] gives to two distinct live
    symbols are never prefixes of one another. *)
Theorem Encoder_codes_prefix_free l e s1 c1 s2 c2 :
  Forall (fun x => 0 ≤ x) l → Encoder_InitFromSizes l = Ok e →
  Encoder_code e s1 c1 → Encoder_code e s2 c2 → s1 ≠ s2 →
  ¬ isPrefix c1 c2.
Proof.
  intros Hpos Hinit H1 H2 Hne.
  destruct (Encoder_InitFromSizes_inv l e Hpos Hinit)
    as (Hall & Hlive & Hfit & Hcodes & Hsz).
  destruct (Encoder_code_walk l e s1 c1 Hpos Hinit H1)
    as (i & it1 & Hi & Hs1 & Hr1 & ->).
  destruct (Encoder_code_walk l e s2 c2 Hpos Hinit H2)
    as (j & it2 & Hj & Hs2 & Hr2 & ->).
  apply (walk_codes_not_prefix (sortedItems l) i j it1 it2);
    try done; try (unfold maxBitsPerCode in *; lia).
  - apply bySize_Sort_sorted.
  - intros ->. congruence.
Qed.

(** * The outcomes of [Decoder.Init] *)




(** Lengths below [maxBitsPerCode] never make [Decoder.Init] panic: it
    succeeds or returns the error "degenerate Huffman tree". *)
Lemma Decoder_Init_in_range l :
  Z.of_nat (length l) < 2 ^ 32 → inRange l →
  (∃ d, Decoder_Init l = Ok d)
  ∨ (∃ expected got, Decoder_Init l = Err (ErrDegenerate expected got)).
Proof.
  intros Hlen Hr. pose proof (live_nonneg l).
  destruct (decide (live l = 0)) as [Hz|Hnz].
  - left. exists emptyDecoder. destruct (validate_no_symbols l Hz) as [Hv _].
    unfold Decoder_Init. by rewrite Hv.
  - destruct (validate_run l Hlen Hr ltac:(lia))
      as (sc & next & _ & Hnl & _ & Heq).
    destruct (forM_assignStep l (mkAssign 0 next ∅) Hr Hnl) as (st & Hrun & _).
    unfold Decoder_Init. rewrite Heq. cbn zeta.
    repeat case_bool_decide; cbn [mbind result_bind];
      try (left; rewrite Hrun; by eexists); right; by eexists _, _.
Qed.

(** * The bounds that [Decoder.Decode] returns are attained *)

Lemma lxor_pow2_mod bits m :
  0 ≤ m → 0 ≤ bits < 2 ^ (m + 1) →
  0 ≤ Z.lxor bits (2 ^ m) < 2 ^ (m + 1)
  ∧ Z.lxor bits (2 ^ m) mod 2 ^ m = bits mod 2 ^ m.
Proof.
  intros Hm Hb. rewrite lxor_pow2 by done.
  pose proof Hb as Hb'. rewrite Z.pow_add_r, Z.pow_1_r in Hb' by lia.
  assert (0 < 2 ^ m) by (apply Z.pow_pos_nonneg; lia).
  case_bool_decide.
  - split; [rewrite Z.pow_add_r, Z.pow_1_r by lia; lia|].
    rewrite !mod_pow2_half by (try rewrite Z.pow_add_r, Z.pow_1_r by lia; lia).
    rewrite bool_decide_eq_false_2, bool_decide_eq_true_2 by lia. lia.
  - split; [rewrite Z.pow_add_r, Z.pow_1_r by lia; lia|].
    rewrite !mod_pow2_half by (try rewrite Z.pow_add_r, Z.pow_1_r by lia; lia).
    rewrite bool_decide_eq_true_2, bool_decide_eq_false_2 by lia. lia.
Qed.

Lemma fillTableLoop_attained codes n : ∀ bits dd t,
  normalized (MakeCode (Z.of_nat n) bits) → Z.of_nat n ≤ 32 →
  attained codes t →
  (∃ s c, (s, c) ∈ codes ∧ isPrefix (MakeCode (Z.of_nat n) bits) c
          ∧ Size c = dd_minSize dd) →
  (∃ s c, (s, c) ∈ codes ∧ isPrefix (MakeCode (Z.of_nat n) bits) c
          ∧ Size c = dd_maxSize dd) →
  attained codes (fillTableLoop n bits dd t).
Proof.
  induction n as [|m IH]; intros bits dd t Hnk Hn32 Hatt Hmin Hmax; [done|].
  cbn [fillTableLoop].
  assert (Z.of_nat (S m) - 1 = Z.of_nat m) as Hm by lia.
  assert (0 ≤ bits < 2 ^ (Z.of_nat m + 1)) as Hbits.
  { destruct Hnk as [_ Hb]. cbn in Hb.
    by replace (Z.of_nat (S m)) with (Z.of_nat m + 1) in Hb by lia. }
  rewrite Hm, u32_pow2 by lia.
  rewrite ldiff_lxor_pow2 by (done || lia).
  destruct (lxor_pow2_mod bits (Z.of_nat m) ltac:(lia) Hbits) as [Hxr Hxm].
  set (k := MakeCode (Z.of_nat (S m)) bits) in *.
  set (sib := MakeCode (Z.of_nat (S m)) (Z.lxor bits (2 ^ Z.of_nat m))).
  set (p := MakeCode (Z.of_nat m) (bits mod 2 ^ Z.of_nat m)).
  assert (isPrefix p k) as Hpk.
  { split; cbn; [lia|done]. }
  assert (isPrefix p sib) as Hps.
  { split; cbn; [lia|done]. }
  match goal with |- context [bool_decide (_ = Some ?e)] =>
    remember e as ddNew eqn:HddNew end.
  assert ((∃ s c, (s, c) ∈ codes ∧ isPrefix p c ∧ Size c = dd_minSize ddNew)
          ∧ (∃ s c, (s, c) ∈ codes ∧ isPrefix p c ∧ Size c = dd_maxSize ddNew))
    as [HminN HmaxN].
  { assert (∀ v, (∃ s c, (s, c) ∈ codes ∧ isPrefix k c ∧ Size c = v) →
                 ∃ s c, (s, c) ∈ codes ∧ isPrefix p c ∧ Size c = v) as Hup.
    { intros v (s & c & Hc & Hp & Hv). exists s, c.
      split; [done|]. split; [by apply isPrefix_trans with k|done]. }
    subst ddNew. fold sib. destruct (t !! sib) as [ddS|] eqn:HS; cbn.
    - destruct (Hatt sib ddS HS) as [(s1 & c1 & Hc1 & Hp1 & Hv1)
                                       (s2 & c2 & Hc2 & Hp2 & Hv2)].
      split; case_bool_decide.
      + exists s1, c1. split; [done|].
        split; [by apply isPrefix_trans with sib|done].
      + by apply Hup.
      + exists s2, c2. split; [done|].
        split; [by apply isPrefix_trans with sib|done].
      + by apply Hup.
    - split; by apply Hup. }
  clear HddNew. case_bool_decide; [done|].
  apply IH; [|lia| |done|done].
  - split; cbn; [lia|]. apply Z.mod_pos_bound, Z.pow_pos_nonneg; lia.
  - intros k' dd' Hk'. destruct (decide (k' = p)) as [->|Hne].
    + rewrite lookup_insert_eq in Hk'. by injection Hk' as <-.
    + rewrite lookup_insert_ne in Hk' by done. by apply Hatt.
Qed.

Lemma attained_mono codes codes' t :
  codes ⊆ codes' → attained codes t → attained codes' t.
Proof.
  intros Hsub Hatt k dd Hk.
  destruct (Hatt k dd Hk) as [(s1 & c1 & Hc1 & H1) (s2 & c2 & Hc2 & H2)].
  split; [exists s1, c1|exists s2, c2]; (split; [by apply Hsub|done]).
Qed.

Lemma fillTable_attained codes t s hc :
  normalized hc → Size hc ≤ 32 → attained codes t →
  attained (codes ++ [(s, hc)]) (fillTable t s hc).
Proof.
  intros Hn Hsz Hatt. unfold fillTable.
  assert (MakeCode (Z.of_nat (Z.to_nat (Size hc))) (Bits hc) = hc) as Hk.
  { destruct Hn as [Hs _]. destruct hc as [sz b]. cbn in *. f_equal. lia. }
  assert ((s, hc) ∈ codes ++ [(s, hc)]) as Hin
    by (apply elem_of_app; right; by left).
  apply fillTableLoop_attained.
  - by rewrite Hk.
  - destruct Hn. lia.
  - intros k dd Hlk. destruct (decide (k = hc)) as [->|Hne].
    + rewrite lookup_insert_eq in Hlk. injection Hlk as <-. cbn.
      split; exists s, hc; (split; [done|]); (split; [by apply isPrefix_refl|done]).
    + rewrite lookup_insert_ne in Hlk by done.
      apply (attained_mono codes (codes ++ [(s, hc)]) t); [|done|done].
      intros x Hx. apply elem_of_app. by left.
  - rewrite Hk. exists s, hc. split; [done|]. split; [by apply isPrefix_refl|done].
  - rewrite Hk. exists s, hc. split; [done|]. split; [by apply isPrefix_refl|done].
Qed.

Lemma foldl_fillPair_attained codes :
  codesOK codes → attained codes (foldl fillPair ∅ codes).
Proof.
  induction codes as [|[s hc] codes IH] using rev_ind; intros Hok.
  - intros k dd Hk. cbn [foldl] in Hk. by rewrite lookup_empty in Hk.
  - rewrite foldl_app. cbn [foldl]. unfold fillPair at 1. cbn [fst snd].
    destruct (codesOK_snoc _ _ _ Hok) as (Hok0 & Hn & Hsz & _).
    apply fillTable_attained; [done|done|by apply IH].
Qed.

(** What the table of a Decoder holds when [Decoder.Init] has succeeded. *)
Lemma Decoder_table_inv l d :
  Z.of_nat (length l) < 2 ^ 19 → Decoder_Init l = Ok d →
  codesOK (Decoder_codes l)
  ∧ tableInv (Decoder_codes l) (d_table d)
  ∧ attained (Decoder_codes l) (d_table d)
  ∧ (∀ s c, (s, c) ∈ Decoder_codes l → 0 < Size c)
  ∧ ∀ s c, (s, c) ∈ Decoder_codes l ↔
           ∃ i x, l !! i = Some x ∧ x ≠ 0 ∧ s = Z.of_nat i
                  ∧ c = MakeReversedCode x (naturalCode l i x).
Proof.
  intros Hlen Hinit. pose proof (live_nonneg l).
  destruct (decide (live l = 0)) as [Hz|Hnz].
  - rewrite (Decoder_Init_no_symbols l d Hinit Hz).
    destruct (validate_no_symbols l Hz) as [_ ->].
    split; [|split; [apply tableInv_empty|split]].
    + split; [constructor|]. split; intros *; intros Hc; by apply elem_of_nil in Hc.
    + intros k dd Hk. unfold emptyDecoder in Hk. cbn [d_table] in Hk.
      by rewrite lookup_empty in Hk.
    + split; [intros s c Hc; by apply elem_of_nil in Hc|].
      intros s c. split; [intros Hc; by apply elem_of_nil in Hc|].
      intros (i & x & Hi & Hx & _). destruct Hx.
      apply (live_zero l); [done|]. by eapply list_elem_of_lookup_2.
  - assert (0 < live l) as Hpos by lia.
    pose proof (Decoder_codes_OK l d Hlen Hinit Hpos) as Hok.
    destruct (Decoder_Init_inv l d Hlen Hinit Hpos)
      as (_ & _ & Hall & _ & _ & _ & _ & _ & _ & Htab & _ & Hchar).
    rewrite Htab. split; [done|].
    split; [by apply foldl_fillPair_inv|].
    split; [by apply foldl_fillPair_attained|].
    split; [|done].
    intros s c Hc. apply Hchar in Hc as (i & x & Hi & Hx & _ & ->). cbn.
    specialize (Hall x ltac:(by eapply list_elem_of_lookup_2)). lia.
Qed.

Lemma Decoder_Decode_found d hc s mn mx :
  Decoder_Decode d hc = (s, mn, mx) → (s, mn, mx) ≠ (InvalidSymbol, 0, 0) →
  d_table d !! hc = Some (mkDD s mn mx).
Proof.
  unfold Decoder_Decode. intros Hdec Hne.
  destruct (d_table d !! hc) as [[s' mn' mx']|]; [|congruence].
  cbn in Hdec. congruence.
Qed.

(** A key of the table that carries a symbol is the code of that symbol. *)
Lemma tableInv_symbol codes t hc dd :
  tableInv codes t → t !! hc = Some dd → dd_symbol dd ≠ InvalidSymbol →
  (dd_symbol dd, hc) ∈ codes ∧ dd = mkDD (dd_symbol dd) (Size hc) (Size hc).
Proof.
  intros (HL & HK & HI & HP) Hlk Hsym.
  destruct (decide (Exists (fun p => p.2 = hc) codes)) as [Hex|Hnex].
  - apply Exists_exists in Hex as ([s c] & Hin & Heq). cbn in Heq. subst c.
    pose proof (HL s hc Hin) as Hlk'. rewrite Hlk in Hlk'.
    injection Hlk' as ->. by split.
  - destruct Hsym. apply (HI hc dd Hlk). intros s c Hin ->.
    apply Hnex, Exists_exists. by exists (s, hc).
Qed.

(** Every live symbol has the canonical code of RFC 1951, sent last bit
    first, and [Decode] of that code returns the symbol with both bounds
    equal to its length. *)
Theorem Decoder_Decode_canonical_code l d i x :
  Z.of_nat (length l) < 2 ^ 19 → Decoder_Init l = Ok d →
  l !! i = Some x → x ≠ 0 →
  Decoder_Decode d (MakeReversedCode x (naturalCode l i x))
  = (Z.of_nat i, x, x).
Proof.
  intros Hlen Hinit Hi Hx.
  destruct (Decoder_table_inv l d Hlen Hinit)
    as (_ & (HL & _) & _ & _ & Hchar).
  unfold Decoder_Decode.
  rewrite (HL (Z.of_nat i) (MakeReversedCode x (naturalCode l i x))); [done|].
  apply Hchar. by exists i, x.
Qed.

Lemma Decoder_Decode_canonical_code_witness :
  ∃ d, Decoder_Init [2; 2; 1] = Ok d
       ∧ Decoder_Decode d (MakeReversedCode 2 (naturalCode [2; 2; 1] 1 2))
         = (1, 2, 2).
Proof.
  eexists. split; [vm_compute; reflexivity|].
  apply (Decoder_Decode_canonical_code [2; 2; 1] _ 1 2);
    [reflexivity|vm_compute; reflexivity|reflexivity|discriminate].
Defined.

(** When [Decode] returns a symbol, the symbol indexes a nonzero entry of
    the length sequence, the code has that length, and both bounds equal
    it. *)
Theorem Decoder_Decode_symbol l d hc s mn mx :
  Z.of_nat (length l) < 2 ^ 19 → Decoder_Init l = Ok d →
  Decoder_Decode d hc = (s, mn, mx) → s ≠ InvalidSymbol →
  0 ≤ s ∧ l !! Z.to_nat s = Some (Size hc) ∧ Size hc ≠ 0
  ∧ mn = Size hc ∧ mx = Size hc
  ∧ hc = MakeReversedCode (Size hc) (naturalCode l (Z.to_nat s) (Size hc)).
Proof.
  intros Hlen Hinit Hdec Hs.
  destruct (Decoder_table_inv l d Hlen Hinit) as (_ & Hinv & _ & _ & Hchar).
  apply Decoder_Decode_found in Hdec; [|congruence].
  destruct (tableInv_symbol _ _ hc _ Hinv Hdec Hs) as [Hin Heq].
  cbn in Hin, Heq. injection Heq as -> ->.
  apply Hchar in Hin as (i & x & Hi & Hx & -> & Hhc).
  assert (Size hc = x) as Hsz by (rewrite Hhc; done).
  rewrite Nat2Z.id, Hsz. repeat split; try done; lia.
Qed.

Lemma Decoder_Decode_symbol_witness :
  ∃ d, Decoder_Init [2; 2; 1] = Ok d
       ∧ 0 ≤ 2 ∧ [2; 2; 1] !! Z.to_nat 2 = Some (Size (MakeCode 1 0))
       ∧ Size (MakeCode 1 0) ≠ 0
       ∧ 1 = Size (MakeCode 1 0) ∧ 1 = Size (MakeCode 1 0)
       ∧ MakeCode 1 0
         = MakeReversedCode (Size (MakeCode 1 0))
             (naturalCode [2; 2; 1] (Z.to_nat 2) (Size (MakeCode 1 0))).
Proof.
  eexists. split; [vm_compute; reflexivity|].
  eapply (Decoder_Decode_symbol [2; 2; 1] _ (MakeCode 1 0) 2 1 1);
    [reflexivity|vm_compute; reflexivity|vm_compute; reflexivity|discriminate].
Defined.

(** For a Decoder that [Init] has built from fewer than [2^19] lengths:
    two different codes that [Decode] resolves to symbols are never
    prefixes of one another, and the symbols differ. *)
Theorem Decoder_Decode_prefix_free l d c1 c2 s1 s2 m1 M1 m2 M2 :
  Z.of_nat (length l) < 2 ^ 19 → Decoder_Init l = Ok d →
  Decoder_Decode d c1 = (s1, m1, M1) → s1 ≠ InvalidSymbol →
  Decoder_Decode d c2 = (s2, m2, M2) → s2 ≠ InvalidSymbol →
  c1 ≠ c2 →
  s1 ≠ s2 ∧ ¬ isPrefix c1 c2.
Proof.
  intros Hlen Hinit Hd1 Hs1 Hd2 Hs2 Hne.
  destruct (Decoder_table_inv l d Hlen Hinit)
    as ((Hnd & _ & Hpf) & Hinv & _).
  apply Decoder_Decode_found in Hd1; [|congruence].
  apply Decoder_Decode_found in Hd2; [|congruence].
  destruct (tableInv_symbol _ _ c1 _ Hinv Hd1 Hs1) as [Hin1 _].
  destruct (tableInv_symbol _ _ c2 _ Hinv Hd2 Hs2) as [Hin2 _].
  cbn in Hin1, Hin2.
  assert (s1 ≠ s2) as Hss.
  { intros ->. apply Hne. by apply (NoDup_fst_inj _ s2 c1 c2 Hnd). }
  split; [done|]. by apply (Hpf s1 c1 s2 c2).
Qed.

Lemma Decoder_Decode_prefix_free_witness :
  ∃ d, Decoder_Init [2; 2; 1] = Ok d
       ∧ 2 ≠ 0 ∧ ¬ isPrefix (MakeCode 1 0) (MakeCode 2 1).
Proof.
  eexists. split; [vm_compute; reflexivity|].
  eapply (Decoder_Decode_prefix_free [2; 2; 1] _ (MakeCode 1 0) (MakeCode 2 1)
           2 0 1 1 2 2);
    [reflexivity|vm_compute; reflexivity|vm_compute; reflexivity|discriminate
    |vm_compute; reflexivity|discriminate|discriminate].
Defined.

(** For a Decoder that [Init] has built from fewer than [2^19] lengths:
    when [Decode] finds its argument in the table, the bounds it returns
    are the lengths of the shortest and of the longest assigned code that
    the argument is a prefix of. *)
Theorem Decoder_Decode_bounds l d p s mn mx :
  Z.of_nat (length l) < 2 ^ 19 → Decoder_Init l = Ok d →
  Decoder_Decode d p = (s, mn, mx) → (s, mn, mx) ≠ (InvalidSymbol, 0, 0) →
  (∃ s1 c1, (s1, c1) ∈ Decoder_codes l ∧ isPrefix p c1 ∧ Size c1 = mn)
  ∧ (∃ s2 c2, (s2, c2) ∈ Decoder_codes l ∧ isPrefix p c2 ∧ Size c2 = mx)
  ∧ ∀ s' c, (s', c) ∈ Decoder_codes l → isPrefix p c → mn ≤ Size c ≤ mx.
Proof.
  intros Hlen Hinit Hdec Hne.
  destruct (Decoder_table_inv l d Hlen Hinit) as (_ & Hinv & Hatt & _).
  apply Decoder_Decode_found in Hdec; [|done].
  destruct (Hatt p _ Hdec) as [Hmin Hmax]. cbn in Hmin, Hmax.
  split; [done|]. split; [done|].
  intros s' c Hc Hp. pose proof Hinv as (HL & _).
  assert (Size c - Size p = Z.of_nat (Z.to_nat (Size c - Size p))) as Hd
    by (destruct Hp; lia).
  destruct (tableInv_ancestor _ _ Hinv _ c _ p (HL s' c Hc) Hp Hd)
    as (ddp & Hlk & Hmn & Hmx).
  rewrite Hdec in Hlk. injection Hlk as <-. cbn in Hmn, Hmx. lia.
Qed.

Lemma Decoder_Decode_bounds_witness :
  ∃ d, Decoder_Init [2; 2; 1] = Ok d
       ∧ (∃ s1 c1, (s1, c1) ∈ Decoder_codes [2; 2; 1]
                   ∧ isPrefix (MakeCode 0 0) c1 ∧ Size c1 = 1)
       ∧ (∃ s2 c2, (s2, c2) ∈ Decoder_codes [2; 2; 1]
                   ∧ isPrefix (MakeCode 0 0) c2 ∧ Size c2 = 2)
       ∧ ∀ s' c, (s', c) ∈ Decoder_codes [2; 2; 1] →
                 isPrefix (MakeCode 0 0) c → 1 ≤ Size c ≤ 2.
Proof.
  eexists. split; [vm_compute; reflexivity|].
  eapply (Decoder_Decode_bounds [2; 2; 1] _ (MakeCode 0 0) InvalidSymbol 1 2);
    [reflexivity|vm_compute; reflexivity|vm_compute; reflexivity|discriminate].
Defined.

(** For a Decoder that [Init] has built from fewer than [2^19] lengths:
    [Decode] answers [(InvalidSymbol, 0, 0)] exactly for the arguments
    that are a prefix of no assigned code. *)
Theorem Decoder_Decode_unreasonable l d hc :
  Z.of_nat (length l) < 2 ^ 19 → Decoder_Init l = Ok d →
  Decoder_Decode d hc = (InvalidSymbol, 0, 0)
  ↔ ∀ s c, (s, c) ∈ Decoder_codes l → ¬ isPrefix hc c.
Proof.
  intros Hlen Hinit.
  destruct (Decoder_table_inv l d Hlen Hinit)
    as (Hok & Hinv & _ & Hsize & _).
  split.
  - intros Hdec s c Hc Hp. pose proof Hinv as (HL & _).
    assert (Size c - Size hc = Z.of_nat (Z.to_nat (Size c - Size hc))) as Hd
      by (destruct Hp; lia).
    destruct (tableInv_ancestor _ _ Hinv _ c _ hc (HL s c Hc) Hp Hd)
      as (ddp & Hlk & _ & Hmx).
    unfold Decoder_Decode in Hdec. rewrite Hlk in Hdec.
    injection Hdec as _ _ Hz. cbn in Hmx.
    specialize (Hsize s c Hc). lia.
  - intros Hno. unfold Decoder_Decode.
    destruct (tableInv_decode _ _ Hok Hinv) as [_ Hnone].
    by rewrite (Hnone hc Hno).
Qed.

Lemma Decoder_Decode_unreasonable_witness :
  ∃ d, Decoder_Init [2; 2; 1] = Ok d
       ∧ (Decoder_Decode d (MakeCode 3 0) = (InvalidSymbol, 0, 0)
          ↔ ∀ s c, (s, c) ∈ Decoder_codes [2; 2; 1] →
                   ¬ isPrefix (MakeCode 3 0) c).
Proof.
  eexists. split; [vm_compute; reflexivity|].
  apply (Decoder_Decode_unreasonable [2; 2; 1] _ (MakeCode 3 0));
    [reflexivity|vm_compute; reflexivity].
Defined.



Lemma Decoder_Init_in_range_witness :
  (∃ d, Decoder_Init [2; 2; 2] = Ok d)
  ∨ (∃ expected got, Decoder_Init [2; 2; 2] = Err (ErrDegenerate expected got)).
Proof.
  apply (Decoder_Init_in_range [2; 2; 2]).
  - reflexivity.
  - repeat constructor; done.
Defined.

(** * What a Decoder reports about itself *)

Lemma Decoder_Init_Ok_sizes l d :
  Decoder_Init l = Ok d → d_sizes d = l ∨ d = emptyDecoder.
Proof.
  unfold Decoder_Init. intros Hinit.
  apply bind_Ok in Hinit as (v & Hv & Hinit).
  destruct v as [[sc next]|].
  - apply bind_Ok in Hinit as (st & _ & Hinit). injection Hinit as <-.
    by left.
  - injection Hinit as <-. by right.
Qed.

(** After a successful [Init] on a sequence with a live symbol,
    [SizeBySymbol] returns the sequence, [NumSymbols] its length, and
    [MinSize] and [MaxSize] the least and the greatest nonzero length of the
    sequence. *)
Theorem Decoder_Init_extent l d :
  Z.of_nat (length l) < 2 ^ 19 → Decoder_Init l = Ok d → 0 < live l →
  Decoder_SizeBySymbol d = l
  ∧ Decoder_NumSymbols d = Z.of_nat (length l)
  ∧ Decoder_MaxSymbol d = Z.of_nat (length l) - 1
  ∧ Decoder_MinSize d ∈ l ∧ Decoder_MaxSize d ∈ l
  ∧ 0 < Decoder_MinSize d
  ∧ ∀ x, x ∈ l → x ≠ 0 → Decoder_MinSize d ≤ x ≤ Decoder_MaxSize d.
Proof.
  intros Hlen Hinit Hpos.
  destruct (Decoder_Init_inv l d Hlen Hinit Hpos)
    as (_ & _ & Hall & Hlow & Hmin & Hmax & Hmin0 & _ & Hsizes & _).
  unfold Decoder_SizeBySymbol, Decoder_NumSymbols, Decoder_MaxSymbol,
    Decoder_MinSize, Decoder_MaxSize.
  rewrite Hsizes. repeat split; try done.
  - by apply Hlow.
  - by apply Hall.
Qed.

Lemma Decoder_Init_extent_witness :
  ∃ d, Decoder_Init [2; 0; 2; 1] = Ok d
       ∧ Decoder_SizeBySymbol d = [2; 0; 2; 1]
       ∧ Decoder_NumSymbols d = Z.of_nat (length [2; 0; 2; 1])
       ∧ Decoder_MaxSymbol d = Z.of_nat (length [2; 0; 2; 1]) - 1
       ∧ Decoder_MinSize d ∈ [2; 0; 2; 1] ∧ Decoder_MaxSize d ∈ [2; 0; 2; 1]
       ∧ 0 < Decoder_MinSize d
       ∧ ∀ x, x ∈ [2; 0; 2; 1] → x ≠ 0 →
              Decoder_MinSize d ≤ x ≤ Decoder_MaxSize d.
Proof.
  eexists. split; [vm_compute; reflexivity|].
  apply (Decoder_Init_extent [2; 0; 2; 1]);
    [reflexivity|vm_compute; reflexivity|reflexivity].
Defined.

(** A Decoder that [Init] has built is rebuilt by [NewDecoder] from its own
    [SizeBySymbol]: the expression that [GoString] prints evaluates to the
    Decoder. *)
Theorem NewDecoder_SizeBySymbol l d :
  Decoder_Init l = Ok d → NewDecoder (Decoder_SizeBySymbol d) = Ok d.
Proof.
  intros Hinit. unfold NewDecoder, Decoder_SizeBySymbol.
  destruct (Decoder_Init_Ok_sizes l d Hinit) as [->| ->].
  - by rewrite Hinit.
  - reflexivity.
Qed.

Lemma NewDecoder_SizeBySymbol_witness :
  ∃ d, Decoder_Init [0; 0] = Ok d
       ∧ NewDecoder (Decoder_SizeBySymbol d) = Ok d.
Proof.
  eexists. split; [vm_compute; reflexivity|].
  apply (NewDecoder_SizeBySymbol [0; 0]). vm_compute. reflexivity.
Defined.

(** * The arrays exchanged with [encoding/json] *)

Lemma forM_unmarshalStep rest : ∀ pre,
  Forall (fun x => 0 ≤ x ≤ maxBitsPerCode) rest →
  forM unmarshalStep rest
       (Z.of_nat (length pre), pre ++ replicate (length rest) 0)
  = Ok (Z.of_nat (length pre + length rest), pre ++ rest).
Proof.
  induction rest as [|x rest IH]; intros pre Hall.
  - cbn. by rewrite Nat.add_0_r.
  - apply Forall_cons in Hall as [Hx Hall].
    assert (unmarshalStep
              (Z.of_nat (length pre), pre ++ replicate (length (x :: rest)) 0) x
            = Ok (Z.of_nat (length (pre ++ [x])),
                  (pre ++ [x]) ++ replicate (length rest) 0)) as Hstep.
    { unfold unmarshalStep. rewrite bool_decide_eq_false_2 by lia.
      cbn [fst snd length replicate]. unfold store.
      rewrite bool_decide_eq_true_2
        by (rewrite length_app; cbn [length]; lia).
      cbn [mbind result_bind]. rewrite Nat2Z.id.
      rewrite insert_app_r_alt, Nat.sub_diag by lia. cbn [insert list_insert].
      rewrite length_app, <- app_assoc. cbn [length app].
      unfold u8. rewrite Z.mod_small by (unfold maxBitsPerCode in *; lia).
      do 2 f_equal. lia. }
    cbn [forM]. rewrite Hstep. cbn [mbind result_bind].
    rewrite IH by done. rewrite length_app, <- app_assoc. cbn [length app].
    do 2 f_equal. lia.
Qed.

Lemma unmarshalSizes_Ok arr :
  Forall (fun x => 0 ≤ x ≤ maxBitsPerCode) arr → unmarshalSizes arr = Ok arr.
Proof.
  intros Hall. unfold unmarshalSizes.
  pose proof (forM_unmarshalStep arr [] Hall) as Hrun.
  change (forM unmarshalStep arr (0, replicate (length arr) 0)
          = Ok (Z.of_nat (length arr), arr)) in Hrun.
  by rewrite Hrun.
Qed.

Lemma forM_unmarshalStep_Err l1 x l2 st :
  x > maxBitsPerCode →
  (∃ st', forM unmarshalStep l1 st = Ok st') →
  forM unmarshalStep (l1 ++ x :: l2) st
  = Err (ErrInvalidLength x maxBitsPerCode).
Proof.
  intros Hx (st' & Hrun). rewrite forM_app, Hrun. cbn [mbind result_bind forM].
  unfold unmarshalStep. by rewrite bool_decide_eq_true_2.
Qed.

Lemma forM_unmarshalStep_total l1 : ∀ i pre suf,
  Forall (fun x => 0 ≤ x ≤ maxBitsPerCode) l1 →
  (length l1 ≤ length suf)%nat → i = Z.of_nat (length pre) →
  ∃ st', forM unmarshalStep l1 (i, pre ++ suf) = Ok st'.
Proof.
  induction l1 as [|x l1 IH]; intros i pre suf Hall Hlen ->; [by eexists|].
  apply Forall_cons in Hall as [Hx Hall].
  destruct suf as [|y suf]; [cbn in Hlen; lia|].
  assert (unmarshalStep (Z.of_nat (length pre), pre ++ y :: suf) x
          = Ok (Z.of_nat (length pre) + 1, (pre ++ [u8 x]) ++ suf)) as Hstep.
  { unfold unmarshalStep.
    rewrite bool_decide_eq_false_2 by lia. cbn [fst snd]. unfold store.
    rewrite bool_decide_eq_true_2 by (rewrite length_app; cbn [length]; lia).
    cbn [mbind result_bind]. rewrite Nat2Z.id.
    rewrite insert_app_r_alt, Nat.sub_diag by lia. cbn [insert list_insert].
    by rewrite (cons_middle _ pre suf), app_assoc. }
  cbn [forM]. rewrite Hstep. cbn [mbind result_bind].
  apply IH; [done|cbn in Hlen; lia|].
  rewrite length_app. cbn [length]. lia.
Qed.

(** [UnmarshalJSON] tests every entry of the array against
    [maxBitsPerCode] before it narrows the entry to a byte: the first entry
    above 15 is reported, for a Decoder and for an Encoder alike. *)
Theorem UnmarshalJSON_invalid_length l1 x l2 :
  Forall (fun y => 0 ≤ y ≤ maxBitsPerCode) l1 → x > maxBitsPerCode →
  Decoder_UnmarshalJSON (l1 ++ x :: l2)
  = Err (ErrInvalidLength x maxBitsPerCode)
  ∧ Encoder_UnmarshalJSON (l1 ++ x :: l2)
    = Err (ErrInvalidLength x maxBitsPerCode).
Proof.
  intros Hall Hx.
  assert (unmarshalSizes (l1 ++ x :: l2)
          = Err (ErrInvalidLength x maxBitsPerCode)) as Hsz.
  { unfold unmarshalSizes. rewrite forM_unmarshalStep_Err; [done|done|].
    rewrite length_app, replicate_add.
    apply (forM_unmarshalStep_total l1 0 []); [done| |done].
    rewrite length_app, !length_replicate. lia. }
  unfold Decoder_UnmarshalJSON, Encoder_UnmarshalJSON. by rewrite Hsz.
Qed.

Lemma UnmarshalJSON_invalid_length_witness :
  Decoder_UnmarshalJSON ([1; 15] ++ 257 :: [1])
  = Err (ErrInvalidLength 257 maxBitsPerCode)
  ∧ Encoder_UnmarshalJSON ([1; 15] ++ 257 :: [1])
    = Err (ErrInvalidLength 257 maxBitsPerCode).
Proof.
  apply (UnmarshalJSON_invalid_length [1; 15] 257 [1]).
  - repeat constructor; done.
  - reflexivity.
Defined.

(** The array that [MarshalJSON] writes for a Decoder that [Init] has built
    is read back by [UnmarshalJSON] as the same Decoder. *)
Theorem Decoder_JSON_roundtrip l d :
  Z.of_nat (length l) < 2 ^ 32 → Decoder_Init l = Ok d →
  Decoder_UnmarshalJSON (Decoder_MarshalJSON d) = Ok d.
Proof.
  intros Hlen Hinit. unfold Decoder_UnmarshalJSON, Decoder_MarshalJSON, marshalArray.
  destruct (Decoder_Init_Ok_sizes l d Hinit) as [->| ->].
  - rewrite unmarshalSizes_Ok; [done|].
    unfold Decoder_Init in Hinit.
    apply bind_Ok in Hinit as (v & Hv & _).
    pose proof (validate_Ok_inRange _ v Hlen Hv) as Hr.
    eapply Forall_impl; [exact Hr|]. intros x Hx. cbn in Hx. lia.
  - reflexivity.
Qed.

Lemma Decoder_JSON_roundtrip_witness :
  ∃ d, Decoder_Init [2; 0; 2; 1] = Ok d
       ∧ Decoder_UnmarshalJSON (Decoder_MarshalJSON d) = Ok d.
Proof.
  eexists. split; [vm_compute; reflexivity|].
  apply (Decoder_JSON_roundtrip [2; 0; 2; 1]);
    [reflexivity|vm_compute; reflexivity].
Defined.

(** * What an Encoder built by [InitFromSizes] reports about itself *)

Lemma forM_sizesStep_minmax l codes st :
  forM sizesStep l (mkSizes 0 codes false 0 0) = Ok st → 0 < live l →
  (∀ y, y ∈ l → y ≠ 0 → sz_minSize st ≤ y ≤ sz_maxSize st)
  ∧ sz_minSize st ∈ l ∧ sz_maxSize st ∈ l
  ∧ sz_minSize st ≠ 0 ∧ sz_maxSize st ≠ 0.
Proof.
  intros Hrun Hpos.
  pose (I := fun (pre : list Z) (s : sizesState) =>
    (sz_hasMinMax s = false → live pre = 0)
    ∧ (sz_hasMinMax s = true →
       (∀ y, y ∈ pre → y ≠ 0 → sz_minSize s ≤ y ≤ sz_maxSize s)
       ∧ sz_minSize s ∈ pre ∧ sz_maxSize s ∈ pre
       ∧ sz_minSize s ≠ 0 ∧ sz_maxSize s ≠ 0)).
  assert (I ([] ++ l) st) as [H0 H1].
  { apply (forM_inv sizesStep I) with (st := mkSizes 0 codes false 0 0);
      [|split; [done|intros [=]]|done].
    unfold I. clear. intros pre x s s' [H0 H1] Hstep.
    unfold sizesStep in Hstep.
    case_bool_decide as Hx.
    - injection Hstep as <-. subst x. cbn.
      assert (live (pre ++ [0]) = live pre) as Hlv.
      { unfold live. rewrite sumOf_snoc. apply Z.add_0_r. }
      split; [by rewrite Hlv|].
      intros Hh. destruct (H1 Hh) as (Ha & Hb & Hc & Hd & He).
      split; [|set_solver].
      intros y Hy Hy0. apply Ha; [|done]. set_solver.
    - match type of Hstep with context [let '(_, _) := ?e in _] =>
        destruct e as [mn mx] eqn:Hmnmx end.
      apply bind_Ok in Hstep as (cs & _ & Hstep). injection Hstep as <-.
      cbn. split; [intros [=]|]. intros _.
      destruct (sz_hasMinMax s) eqn:Hh; cbn in Hmnmx.
      + destruct (H1 eq_refl) as (Ha & Hb & Hc & Hd & He).
        assert (sz_minSize s ≤ sz_maxSize s) by (by apply Ha).
        assert (mn ∈ pre ++ [x] ∧ mx ∈ pre ++ [x] ∧ mn ≠ 0 ∧ mx ≠ 0
                ∧ mn ≤ sz_minSize s ∧ sz_maxSize s ≤ mx ∧ mn ≤ x ≤ mx) as Hq.
        { repeat case_bool_decide; injection Hmnmx as <- <-;
            repeat split; try done; try lia; set_solver. }
        destruct Hq as (? & ? & ? & ? & ? & ? & ?).
        split; [|done].
        intros y Hy Hy0. apply elem_of_app in Hy as [Hy|Hy].
        * specialize (Ha y Hy Hy0). lia.
        * apply list_elem_of_singleton in Hy. lia.
      + injection Hmnmx as <- <-. split; [|set_solver].
        intros y Hy Hy0. apply elem_of_app in Hy as [Hy|Hy].
        * by pose proof (live_zero _ _ (H0 eq_refl) Hy).
        * apply list_elem_of_singleton in Hy. lia. }
  cbn [app] in H0, H1.
  destruct (sz_hasMinMax st) eqn:Hh; [by apply H1|].
  specialize (H0 eq_refl). lia.
Qed.



(** * Which length sequences [InitFromSizes] accepts *)








(** * The codes of an Encoder are the canonical codes *)

Lemma cnt_cons b x l :
  cnt b (x :: l) = (if bool_decide (x = b ∧ x ≠ 0) then 1 else 0) + cnt b l.
Proof. done. Qed.

Lemma firstCode_cons b x l :
  firstCode b (x :: l)
  = (if bool_decide (0 < x < b) then 2 ^ (b - x) else 0) + firstCode b l.
Proof. done. Qed.

Lemma before_liveItems x s l : ∀ s0,
  0 < x → Forall (fun y => 0 ≤ y) l →
  sumOf id (before x s <$> liveItems s0 l)
  = firstCode x l + cnt x (take (Z.to_nat (s - s0)) l).
Proof.
  induction l as [|y l IH]; intros s0 Hx Hall.
  - by rewrite take_nil.
  - apply Forall_cons in Hall as [Hy Hall].
    cbn [liveItems]. rewrite fmap_app, sumOf_app, IH by done.
    rewrite firstCode_cons.
    destruct (decide (s - s0 ≤ 0)) as [Hle|Hgt].
    + replace (Z.to_nat (s - s0)) with 0%nat by lia.
      replace (Z.to_nat (s - (s0 + 1))) with 0%nat by lia.
      rewrite !take_0. change (cnt x []) with 0.
      case_bool_decide as Hy0; [subst y; cbn [fmap list_fmap]; rewrite sumOf_nil|].
      * rewrite bool_decide_eq_false_2 by lia. lia.
      * cbn [fmap list_fmap]. rewrite sumOf_cons, sumOf_nil.
        unfold before, id. cbn [ss_size ss_symbol].
        repeat case_bool_decide; lia.
    + replace (Z.to_nat (s - s0)) with (S (Z.to_nat (s - (s0 + 1)))) by lia.
      cbn [take]. rewrite cnt_cons.
      case_bool_decide as Hy0; [subst y; cbn [fmap list_fmap]; rewrite sumOf_nil|].
      * rewrite !bool_decide_eq_false_2 by lia. lia.
      * cbn [fmap list_fmap]. rewrite sumOf_cons, sumOf_nil.
        unfold before, id. cbn [ss_size ss_symbol].
        repeat case_bool_decide; try lia;
          replace y with x by lia; rewrite Z.sub_diag; change (2 ^ 0) with 1; lia.
Qed.

Lemma before_all x s L :
  (∀ r, r ∈ L → before x s r = 2 ^ (x - ss_size r)) →
  sumOf id (before x s <$> L) = weight x L.
Proof.
  induction L as [|r L IH]; intros H; [done|].
  cbn [fmap list_fmap]. unfold weight. cbn [fmap list_fmap].
  rewrite !sumOf_cons. fold (weight x L).
  rewrite IH by (intros r' Hr'; apply H; by right).
  unfold id. rewrite H by (by left). done.
Qed.

Lemma before_sorted sorted i it :
  StronglySorted ssLe sorted → NoDup (ss_symbol <$> sorted) →
  sorted !! i = Some it →
  sumOf id (before (ss_size it) (ss_symbol it) <$> sorted)
  = weight (ss_size it) (take i sorted).
Proof.
  intros Hsorted Hnd Hi.
  assert (∀ k r, sorted !! k = Some r → k ≠ i → ss_symbol r ≠ ss_symbol it)
    as Hdiff.
  { intros k r Hk Hki Heq. apply Hki.
    apply (NoDup_lookup _ k i (ss_symbol it) Hnd);
      rewrite list_lookup_fmap; [by rewrite Hk, <- Heq|by rewrite Hi]. }
  rewrite <- (take_drop_middle sorted i it Hi) at 1.
  rewrite fmap_app, sumOf_app.
  rewrite before_all.
  - rewrite sumOf_zero; [lia|].
    intros v Hv. apply list_elem_of_fmap in Hv as (r & -> & Hr).
    unfold id, before. rewrite bool_decide_eq_false_2; [done|].
    apply elem_of_cons in Hr as [->|Hr]; [lia|].
    apply list_elem_of_lookup in Hr as (k & Hk).
    rewrite lookup_drop in Hk.
    pose proof (Hdiff _ _ Hk ltac:(lia)).
    destruct (StronglySorted_lookup_lt _ _ Hsorted i (S i + k) it r
                ltac:(lia) Hi Hk); lia.
  - intros r Hr. apply list_elem_of_lookup in Hr as (k & Hk).
    pose proof (lookup_lt_Some _ _ _ Hk) as Hlt. rewrite length_take in Hlt.
    rewrite lookup_take_lt in Hk by lia.
    pose proof (Hdiff _ _ Hk ltac:(lia)).
    unfold before. rewrite bool_decide_eq_true_2; [done|].
    destruct (StronglySorted_lookup_lt _ _ Hsorted k i r it
                ltac:(lia) Hk Hi); lia.
Qed.

(** The code that [secondPass] writes for a live symbol is the canonical
    code of [Decoder.Init]. *)
Lemma Encoder_code_canonical l e i x :
  Forall (fun y => 0 ≤ y) l → Encoder_InitFromSizes l = Ok e →
  l !! i = Some x → x ≠ 0 →
  e_codes e !! i = Some (MakeReversedCode x (naturalCode l i x)).
Proof.
  intros Hnn Hinit Hi Hx.
  destruct (Encoder_InitFromSizes_inv l e Hnn Hinit)
    as (Hall & Hlive & Hfit & Hcodes & Hsz).
  assert (∃ c, e_codes e !! i = Some c ∧ Size c = x) as (c & Hc & Hsc).
  { unfold Encoder_SizeBySymbol in Hsz. rewrite <- Hsz in Hi.
    rewrite list_lookup_fmap in Hi.
    destruct (e_codes e !! i) as [c|]; [|done]. injection Hi as Hi. by exists c. }
  destruct (Encoder_code_walk l e (Z.of_nat i) c Hnn Hinit)
    as (k & it & Hk & Hs & Hr & ->).
  { split; [lia|]. rewrite Nat2Z.id. split; [done|lia]. }
  rewrite Hc. unfold MakeReversedCode in Hsc. cbn [Size] in Hsc. subst x.
  do 3 f_equal.
  rewrite <- (before_sorted (sortedItems l) k it (bySize_Sort_sorted _)
                (sortedItems_NoDup l) Hk).
  unfold sortedItems.
  rewrite (sumOf_Permutation id _ _
             (fmap_Permutation _ _ _ (bySize_Sort_Permutation _))).
  rewrite before_liveItems by (done || lia).
  rewrite Hs, Z.sub_0_r, Nat2Z.id. done.
Qed.



(** * Encoding, then decoding *)

(** For an Encoder that [InitFromSizes] has built from fewer than [2^19]
    lengths: when [Encoder.Decoder] returns, the Decoder decodes every code
    that the Encoder emits for a live symbol to that symbol, with both
    bounds equal to the length of the code. *)
Theorem Decoder_Decode_Encoder_Encode l e d i x :
  Z.of_nat (length l) < 2 ^ 19 → Forall (fun y => 0 ≤ y) l →
  Encoder_InitFromSizes l = Ok e → Encoder_Decoder e = Ok d →
  l !! i = Some x → x ≠ 0 →
  ∃ c, Encoder_Encode e (Z.of_nat i) = Ok c ∧ Size c = x
       ∧ Decoder_Decode d c = (Z.of_nat i, x, x).
Proof.
  intros Hlen Hnn Hinit Hdec Hi Hx.
  destruct (Encoder_InitFromSizes_inv l e Hnn Hinit) as (_ & _ & _ & _ & Hsz).
  unfold Encoder_Decoder, Decoder_InitFromEncoder in Hdec. rewrite Hsz in Hdec.
  destruct (Decoder_Init l) as [d'| |] eqn:HD; try done.
  cbn in Hdec. injection Hdec as ->.
  exists (MakeReversedCode x (naturalCode l i x)).
  split; [|split; [done|]].
  - unfold Encoder_Encode. apply index_Ok. split; [lia|]. rewrite Nat2Z.id.
    by apply Encoder_code_canonical.
  - destruct (Decoder_table_inv l d Hlen HD) as (_ & (HL & _) & _ & _ & Hchar).
    unfold Decoder_Decode.
    rewrite (HL (Z.of_nat i) (MakeReversedCode x (naturalCode l i x))); [done|].
    apply Hchar. by exists i, x.
Qed.

Lemma Decoder_Decode_Encoder_Encode_witness :
  ∃ e d, Encoder_InitFromSizes [2; 0; 2; 1] = Ok e
         ∧ Encoder_Decoder e = Ok d
         ∧ ∃ c, Encoder_Encode e (Z.of_nat 2) = Ok c ∧ Size c = 2
                ∧ Decoder_Decode d c = (Z.of_nat 2, 2, 2).
Proof.
  eexists _, _. split; [vm_compute; reflexivity|].
  split; [vm_compute; reflexivity|].
  apply (Decoder_Decode_Encoder_Encode [2; 0; 2; 1] _ _ 2 2);
    [reflexivity|repeat constructor; done|vm_compute; reflexivity
    |vm_compute; reflexivity|reflexivity|discriminate].
Defined.

(** * Encoder, Decoder and back *)

(** The Decoder that mirrors an Encoder built by [InitFromSizes] has the
    same length sequence, and its own mirror is the Encoder again. *)
Theorem Encoder_Decoder_Encoder l e d :
  Z.of_nat (length l) < 2 ^ 19 → Forall (fun y => 0 ≤ y) l →
  Encoder_InitFromSizes l = Ok e → Encoder_Decoder e = Ok d →
  Decoder_SizeBySymbol d = l ∧ Decoder_Encoder d = Ok e.
Proof.
  intros Hlen Hnn Hinit Hdec.
  destruct (Encoder_InitFromSizes_inv l e Hnn Hinit)
    as (_ & Hlive & _ & _ & Hsz).
  unfold Encoder_Decoder, Decoder_InitFromEncoder in Hdec. rewrite Hsz in Hdec.
  destruct (Decoder_Init l) as [d'| |] eqn:HD; try done.
  cbn in Hdec. injection Hdec as ->.
  destruct (Decoder_Init_inv l d Hlen HD Hlive)
    as (_ & _ & _ & _ & _ & _ & _ & _ & Hsizes & _).
  split; [done|].
  unfold Decoder_Encoder, Encoder_InitFromDecoder, Decoder_SizeBySymbol.
  by rewrite Hsizes, Hinit.
Qed.

Lemma Encoder_Decoder_Encoder_witness :
  ∃ e d, Encoder_InitFromSizes [2; 0; 2; 1] = Ok e
         ∧ Encoder_Decoder e = Ok d
         ∧ Decoder_SizeBySymbol d = [2; 0; 2; 1] ∧ Decoder_Encoder d = Ok e.
Proof.
  eexists _, _. split; [vm_compute; reflexivity|].
  split; [vm_compute; reflexivity|].
  apply (Encoder_Decoder_Encoder [2; 0; 2; 1]);
    [reflexivity|repeat constructor; done|vm_compute; reflexivity
    |vm_compute; reflexivity].
Defined.

(** [InitFromSizes] accepts length sequences that leave code space unused,
    [Decoder.Init] does not.  For fewer than [2^19] lengths, all below
    [maxBitsPerCode] and with the greatest length [m], that consume less
    than [2^m] (the code of one symbol of length 1 apart): the mirror of the
    Encoder cannot be built, and [Encoder.Decoder] panics with the error
    "degenerate Huffman tree". *)
Theorem Encoder_Decoder_incomplete l e m :
  Z.of_nat (length l) < 2 ^ 19 → inRange l →
  Encoder_InitFromSizes l = Ok e →
  m ∈ l → (∀ x, x ∈ l → x ≤ m) →
  codeSpace m l < 2 ^ m → ¬ (live l = 1 ∧ m = 1) →
  Encoder_Decoder e
  = Panic (PanicErr (ErrDegenerate (2 ^ m) (codeSpace m l))).
Proof.
  intros Hlen Hr Hinit Hm Hmax Hlt Hone.
  assert (Forall (fun y => 0 ≤ y) l) as Hnn.
  { eapply Forall_impl; [exact Hr|]. intros y Hy. cbn in Hy. lia. }
  destruct (Encoder_InitFromSizes_inv l e Hnn Hinit)
    as (_ & Hlive & _ & _ & Hsz).
  unfold Encoder_Decoder, Decoder_InitFromEncoder. rewrite Hsz.
  destruct (Decoder_Init_check l Hlen Hr Hlive) as (m' & Hm' & Hmax' & Hres).
  assert (m' = m) as -> by (pose proof (Hmax _ Hm'); pose proof (Hmax' _ Hm); lia).
  destruct (Decoder_Init l) as [d|err|p]; [|by destruct Hres as [-> _]|done].
  destruct Hres as [_ [?|?]]; [lia|done].
Qed.

Lemma Encoder_Decoder_incomplete_witness :
  ∃ e, Encoder_InitFromSizes [2; 0; 1] = Ok e
       ∧ Encoder_Decoder e
         = Panic (PanicErr (ErrDegenerate (2 ^ 2) (codeSpace 2 [2; 0; 1]))).
Proof.
  eexists. split; [vm_compute; reflexivity|].
  apply (Encoder_Decoder_incomplete [2; 0; 1] _ 2);
    [reflexivity|repeat constructor; done|vm_compute; reflexivity
    |set_solver|intros x Hx; set_unfold in Hx; lia|reflexivity|lia].
Defined.

(** An Encoder that [InitFromSizes] has built is rebuilt by
    [NewEncoderFromSizes] from its own [SizeBySymbol], the expression that
    [GoString] prints, and by [UnmarshalJSON] from the array that
    [MarshalJSON] writes. *)
Theorem Encoder_reconstruct l e :
  Forall (fun y => 0 ≤ y) l → Encoder_InitFromSizes l = Ok e →
  NewEncoderFromSizes (Encoder_SizeBySymbol e) = Ok e
  ∧ Encoder_UnmarshalJSON (Encoder_MarshalJSON e) = Ok e.
Proof.
  intros Hnn Hinit.
  destruct (Encoder_InitFromSizes_inv l e Hnn Hinit)
    as (Hall & _ & _ & _ & Hsz).
  unfold NewEncoderFromSizes, Encoder_UnmarshalJSON, Encoder_MarshalJSON,
    marshalArray.
  unfold Encoder_SizeBySymbol in Hsz |- *. rewrite Hsz, Hinit.
  split; [done|]. by rewrite unmarshalSizes_Ok.
Qed.

Lemma Encoder_reconstruct_witness :
  ∃ e, Encoder_InitFromSizes [2; 0; 1] = Ok e
       ∧ NewEncoderFromSizes (Encoder_SizeBySymbol e) = Ok e
       ∧ Encoder_UnmarshalJSON (Encoder_MarshalJSON e) = Ok e.
Proof.
  eexists. split; [vm_compute; reflexivity|].
  apply (Encoder_reconstruct [2; 0; 1]);
    [repeat constructor; done|vm_compute; reflexivity].
Defined.

Lemma Encoder_codes_prefix_free_witness :
  ∃ e, Encoder_InitFromSizes [2; 2; 1] = Ok e
       ∧ ¬ isPrefix (MakeCode 1 0) (MakeCode 2 1).
Proof.
  eexists. split; [vm_compute; reflexivity|].
  eapply (Encoder_codes_prefix_free [2; 2; 1] _ 2 (MakeCode 1 0) 0 (MakeCode 2 1));
    [repeat constructor; done|vm_compute; reflexivity
    |split; [lia|split; [vm_compute; reflexivity|done]]
    |split; [lia|split; [vm_compute; reflexivity|done]]|done].
Defined.

(** * The completeness check of [Decoder.Init], for a given greatest length *)

(** Below [2^19] entries, with every length below [maxBitsPerCode] and [m]
    the greatest length: [Decoder.Init] succeeds when the lengths fill the
    tree of depth [m] exactly, or when there is one live symbol and its
    length is 1; otherwise it returns the error "degenerate Huffman tree"
    with [2^m] and the code space that the lengths consume.  It never
    panics. *)
Theorem Decoder_Init_complete l m :
  Z.of_nat (length l) < 2 ^ 19 → inRange l →
  m ∈ l → m ≠ 0 → (∀ x, x ∈ l → x ≤ m) →
  match Decoder_Init l with
  | Ok d => (codeSpace m l = 2 ^ m ∨ (live l = 1 ∧ m = 1))
            ∧ Decoder_MaxSize d = m
  | Err e => e = ErrDegenerate (2 ^ m) (codeSpace m l)
             ∧ codeSpace m l ≠ 2 ^ m ∧ ¬ (live l = 1 ∧ m = 1)
  | Panic _ => False
  end.
Proof.
  intros Hlen Hr Hm Hm0 Hmax.
  destruct (Decoder_Init_check l Hlen Hr (live_pos l m Hm Hm0))
    as (m' & Hm' & Hmax' & Hres).
  assert (m' = m) as ->
    by (pose proof (Hmax _ Hm'); pose proof (Hmax' _ Hm); lia).
  destruct (Decoder_Init l) as [d|e|p]; [|done|done].
  destruct Hres as [? ?]. by split.
Qed.

Lemma Decoder_Init_complete_witness :
  match Decoder_Init [2; 0; 1] with
  | Ok d => (codeSpace 2 [2; 0; 1] = 2 ^ 2 ∨ (live [2; 0; 1] = 1 ∧ 2 = 1))
            ∧ Decoder_MaxSize d = 2
  | Err e => e = ErrDegenerate (2 ^ 2) (codeSpace 2 [2; 0; 1])
             ∧ codeSpace 2 [2; 0; 1] ≠ 2 ^ 2 ∧ ¬ (live [2; 0; 1] = 1 ∧ 2 = 1)
  | Panic _ => False
  end.
Proof.
  apply (Decoder_Init_complete [2; 0; 1] 2).
  - reflexivity.
  - repeat constructor; done.
  - set_solver.
  - discriminate.
  - intros x Hx. set_unfold in Hx. lia.
Defined.

(** * Reversing the bits of a Code *)

Lemma Reverse_testbit n : ∀ x i,
  0 ≤ i →
  Z.testbit (Reverse n x) i
  = bool_decide (i < Z.of_nat n) && Z.testbit x (Z.of_nat n - 1 - i).
Proof.
  induction n as [|n IH]; intros x i Hi.
  - cbn [Reverse]. rewrite Z.bits_0. by rewrite bool_decide_eq_false_2 by lia.
  - cbn [Reverse].
    pose proof (Reverse_bound n (x / 2)) as Hb.
    pose proof (Z.mod_pos_bound x 2 ltac:(lia)) as Hm.
    assert (0 < 2 ^ Z.of_nat n) as Hp by (apply Z.pow_pos_nonneg; lia).
    set (y := x mod 2 * 2 ^ Z.of_nat n + Reverse n (x / 2)).
    destruct (decide (i < Z.of_nat n)) as [Hlt|Hge].
    + rewrite bool_decide_eq_true_2 by lia. cbn [andb].
      rewrite <- (Z.mod_pow2_bits_low y (Z.of_nat n) i) by lia.
      assert (y mod 2 ^ Z.of_nat n = Reverse n (x / 2)) as ->.
      { unfold y. rewrite Z.add_comm, Z.mod_add by lia. by apply Z.mod_small. }
      rewrite IH by done. rewrite bool_decide_eq_true_2 by lia. cbn [andb].
      rewrite <- Z.div2_div, Z.div2_spec, Z.shiftr_spec by lia. f_equal. lia.
    + replace i with (i - Z.of_nat n + Z.of_nat n) at 1 by lia.
      rewrite <- Z.div_pow2_bits by lia.
      assert (y / 2 ^ Z.of_nat n = x mod 2) as ->.
      { unfold y. rewrite Z.div_add_l by lia. rewrite Z.div_small by done. lia. }
      destruct (decide (i = Z.of_nat n)) as [->|Hne].
      * rewrite bool_decide_eq_true_2 by lia. cbn [andb].
        rewrite Z.sub_diag.
        replace (Z.of_nat (S n) - 1 - Z.of_nat n) with 0 by lia.
        rewrite <- (Z.mod_pow2_bits_low x 1 0) by lia. done.
      * rewrite bool_decide_eq_false_2 by lia. cbn [andb].
        apply (testbit_small_high (x mod 2) 1); lia.
Qed.

(** Bit [i] of [reverseBits(size, bits)] is bit [size - 1 - i] of [bits]
    when [i < size], and is clear otherwise. *)
Theorem reverseBits_testbit size bits i :
  0 ≤ size ≤ 32 → 0 ≤ i →
  Z.testbit (reverseBits size bits) i
  = bool_decide (i < size) && Z.testbit bits (size - 1 - i).
Proof.
  intros Hs Hi. rewrite reverseBits_Reverse by done.
  rewrite Reverse_testbit by done. by rewrite Z2Nat.id by lia.
Qed.

Lemma reverseBits_testbit_witness :
  Z.testbit (reverseBits 5 22) 1 = bool_decide (1 < 5) && Z.testbit 22 (5 - 1 - 1).
Proof. apply (reverseBits_testbit 5 22 1); lia. Defined.

(** For a Code of [Size] 32 at most: [Reversed] twice gives back the
    [Size] low bits of the Code; such a Code with no bits beyond its [Size]
    is its own double reverse. *)
Theorem Reversed_Reversed hc :
  0 ≤ Size hc ≤ 32 →
  Reversed (Reversed hc) = MakeCode (Size hc) (Bits hc mod 2 ^ Size hc).
Proof.
  intros Hs. unfold Reversed, MakeReversedCode. cbn [Size Bits]. f_equal.
  apply Z.bits_inj'. intros i Hi.
  rewrite !reverseBits_Reverse by lia.
  rewrite Reverse_testbit, Z2Nat.id by lia.
  destruct (decide (i < Size hc)) as [Hlt|Hge].
  - rewrite Reverse_testbit, Z2Nat.id by lia.
    rewrite !bool_decide_eq_true_2 by lia. cbn [andb].
    rewrite Z.mod_pow2_bits_low by lia. f_equal. lia.
  - rewrite bool_decide_eq_false_2 by lia. cbn [andb].
    by rewrite Z.mod_pow2_bits_high by lia.
Qed.

Lemma Reversed_Reversed_witness :
  Reversed (Reversed (MakeCode 5 22)) = MakeCode 5 (22 mod 2 ^ 5).
Proof. apply (Reversed_Reversed (MakeCode 5 22)). cbn. lia. Defined.

(** * [log2uint32] *)

Lemma Len_spec f : ∀ x,
  0 < x < 2 ^ Z.of_nat f →
  0 < Len f x ≤ Z.of_nat f ∧ 2 ^ (Len f x - 1) ≤ x < 2 ^ Len f x.
Proof.
  induction f as [|f IH]; intros x Hx.
  - change (Z.of_nat 0) with 0 in Hx. rewrite Z.pow_0_r in Hx. lia.
  - cbn [Len]. rewrite bool_decide_eq_false_2 by lia.
    rewrite Nat2Z.inj_succ, Z.pow_succ_r in Hx by lia.
    destruct (decide (x = 1)) as [->|Hx1].
    + change (1 / 2) with 0. destruct f; cbn [Len];
        [|rewrite bool_decide_eq_true_2 by done]; cbn; lia.
    + destruct (IH (x / 2)) as [Hl Hb].
      { split; [apply Z.div_str_pos; lia|apply Z.div_lt_upper_bound; lia]. }
      split; [lia|]. replace (1 + Len f (x / 2) - 1) with (Len f (x / 2)) by lia.
      replace (Len f (x / 2)) with (Z.succ (Len f (x / 2) - 1)) at 1 by lia.
      rewrite Z.pow_succ_r by lia.
      replace (1 + Len f (x / 2)) with (Z.succ (Len f (x / 2))) by lia.
      rewrite Z.pow_succ_r by lia.
      pose proof (Z.div_mod x 2 ltac:(lia)).
      pose proof (Z.mod_pos_bound x 2 ltac:(lia)). lia.
Qed.

(** [log2uint32(x)] is the number of bits of [x], not the floor of its
    logarithm: [2^(n-1) ≤ x < 2^n] for the result [n]; and
    [log2uint32(0)] is 1. *)
Theorem log2uint32_spec x :
  0 ≤ x < 2 ^ 32 →
  1 ≤ log2uint32 x ≤ 32
  ∧ (x = 0 → log2uint32 x = 1)
  ∧ (0 < x → 2 ^ (log2uint32 x - 1) ≤ x < 2 ^ log2uint32 x).
Proof.
  intros Hx. unfold log2uint32, LeadingZeros32.
  case_bool_decide as H0.
  - subst x. vm_compute. repeat split; intros; done || lia.
  - destruct (Len_spec 32 x ltac:(lia)) as [Hl Hb].
    replace (32 - (32 - Len 32 x)) with (Len 32 x) by lia.
    rewrite u32_small by lia. split; [lia|]. split; [lia|]. done.
Qed.

Lemma log2uint32_spec_witness :
  1 ≤ log2uint32 8 ≤ 32
  ∧ (8 = 0 → log2uint32 8 = 1)
  ∧ (0 < 8 → 2 ^ (log2uint32 8 - 1) ≤ 8 < 2 ^ log2uint32 8).
Proof. apply (log2uint32_spec 8). lia. Defined.

(** * The string of a Code *)

Lemma Len_nonneg f : ∀ x, 0 ≤ Len f x.
Proof.
  induction f as [|f IH]; intros x; cbn [Len]; [done|].
  case_bool_decide; [done|]. specialize (IH (x / 2)). lia.
Qed.

Lemma binaryDigits_spec f : ∀ x acc v,
  0 ≤ x < 2 ^ Z.of_nat f →
  parseDigits v (binaryDigits f x acc)
  = parseDigits (v * 2 ^ Len f x + x) acc
  ∧ String.length (binaryDigits f x acc)
    = (Z.to_nat (Len f x) + String.length acc)%nat.
Proof.
  induction f as [|f IH]; intros x acc v Hx.
  - change (Z.of_nat 0) with 0 in Hx. rewrite Z.pow_0_r in Hx.
    cbn [binaryDigits Len]. split; [f_equal; lia|done].
  - cbn [binaryDigits Len]. case_bool_decide as H0.
    + subst x. split; [f_equal; lia|done].
    + rewrite Nat2Z.inj_succ, Z.pow_succ_r in Hx by lia.
      destruct (IH (x / 2) (String (if Z.odd x then "1"%char else "0"%char) acc)
                  v) as [Hp Hl].
      { split; [apply Z.div_pos; lia|apply Z.div_lt_upper_bound; lia]. }
      pose proof (Len_nonneg f (x / 2)) as HL.
      rewrite Hp, Hl. split.
      * cbn [parseDigits]. f_equal.
        replace (1 + Len f (x / 2)) with (Z.succ (Len f (x / 2))) by lia.
        rewrite Z.pow_succ_r by done.
        pose proof (Z.div_mod x 2 ltac:(lia)) as Hdm.
        rewrite Zmod_odd in Hdm.
        destruct (Z.odd x); cbn [Ascii.eqb]; cbn; lia.
      * cbn [String.length]. lia.
Qed.

Lemma zeroPad_spec n s :
  parseDigits 0 (zeroPad n s) = parseDigits 0 s
  ∧ String.length (zeroPad n s) = (n + String.length s)%nat.
Proof.
  induction n as [|n [IH1 IH2]]; [done|].
  cbn [zeroPad parseDigits String.length]. split; [exact IH1|lia].
Qed.

(** The digits that [String] prints for a Code of nonzero [Size] write the
    number [Bits] in binary, and there are [Size] of them, or as many as
    [Bits] needs when that is more. *)
Theorem Code_String_spec hc :
  0 < Size hc → 0 ≤ Bits hc < 2 ^ 32 →
  parseDigits 0 (Code_String hc) = Bits hc
  ∧ Z.of_nat (String.length (Code_String hc))
    = Z.max (Size hc) (Len 32 (Bits hc)).
Proof.
  intros Hs Hb. unfold Code_String. rewrite bool_decide_eq_false_2 by lia.
  destruct (binaryDigits_spec 32 (Bits hc) EmptyString 0 ltac:(lia)) as [Hp Hl].
  cbn [parseDigits String.length] in Hp, Hl.
  destruct (zeroPad_spec
              (Z.to_nat (Size hc)
               - String.length (binaryDigits 32 (Bits hc) EmptyString))
              (binaryDigits 32 (Bits hc) EmptyString)) as [Hzp Hzl].
  cbn zeta. rewrite Hzp, Hzl, Hp, Hl.
  pose proof (Len_nonneg 32 (Bits hc)). split; lia.
Qed.

Lemma Code_String_spec_witness :
  parseDigits 0 (Code_String (MakeCode 5 6)) = Bits (MakeCode 5 6)
  ∧ Z.of_nat (String.length (Code_String (MakeCode 5 6)))
    = Z.max (Size (MakeCode 5 6)) (Len 32 (Bits (MakeCode 5 6))).
Proof. apply (Code_String_spec (MakeCode 5 6)); cbn; lia. Defined.

(** * The orders of the sorts and of the heap *)

(** [byCode.Less] and [bySize.Less] are strict total orders: irreflexive,
    transitive, and one of [Less a b], [Less b a] holds for different
    entries. *)
Theorem Less_strict_total :
  ((∀ a, byCode_Less a a = false)
   ∧ (∀ a b c, byCode_Less a b = true → byCode_Less b c = true →
               byCode_Less a c = true)
   ∧ (∀ a b, a ≠ b → byCode_Less a b = true ∨ byCode_Less b a = true))
  ∧ ((∀ a, bySize_Less a a = false)
     ∧ (∀ a b c, bySize_Less a b = true → bySize_Less b c = true →
                 bySize_Less a c = true)
     ∧ (∀ a b, a ≠ b → bySize_Less a b = true ∨ bySize_Less b a = true)).
Proof.
  split; (split; [|split]).
  - intros a. unfold byCode_Less. rewrite bool_decide_eq_false_2 by tauto.
    apply bool_decide_eq_false_2. lia.
  - intros a b c. unfold byCode_Less.
    repeat case_bool_decide; try done; intros _ _; lia.
  - intros [sa ba] [sb bb] Hne. unfold byCode_Less. cbn [Size Bits].
    assert (sa ≠ sb ∨ ba ≠ bb) by (destruct (decide (sa = sb)); [right|left]; congruence).
    repeat case_bool_decide; try (by left); try (by right); lia.
  - intros a. unfold bySize_Less. rewrite bool_decide_eq_false_2 by tauto.
    apply bool_decide_eq_false_2. lia.
  - intros a b c. unfold bySize_Less.
    repeat case_bool_decide; try done; intros _ _; lia.
  - intros [ya sa] [yb sb] Hne. unfold bySize_Less. cbn [ss_size ss_symbol].
    assert (sa ≠ sb ∨ ya ≠ yb) by (destruct (decide (sa = sb)); [right|left]; congruence).
    repeat case_bool_decide; try (by left); try (by right); lia.
Qed.

(** [freqHeap.Less] orders the nodes by frequency; nodes of equal frequency
    are ordered by [uint32(symbol)], which puts every natural symbol before
    every synthetic one.  On symbols of the type [int32] it is a strict
    total order. *)
Theorem freqHeap_Less_order :
  (∀ a, freqHeap_Less a a = false)
  ∧ (∀ a b c, freqHeap_Less a b = true → freqHeap_Less b c = true →
              freqHeap_Less a c = true)
  ∧ (∀ a b, MinInt32 ≤ sf_symbol a ≤ MaxInt32 →
            MinInt32 ≤ sf_symbol b ≤ MaxInt32 → a ≠ b →
            freqHeap_Less a b = true ∨ freqHeap_Less b a = true)
  ∧ (∀ a b, sf_freq a = sf_freq b →
            0 ≤ sf_symbol a ≤ MaxInt32 → MinInt32 ≤ sf_symbol b < 0 →
            freqHeap_Less a b = true).
Proof.
  assert (∀ s, 0 ≤ s ≤ MaxInt32 → u32 s = s) as Hnat.
  { intros s Hs. unfold MaxInt32 in Hs. apply u32_small. lia. }
  assert (∀ s, MinInt32 ≤ s < 0 → u32 s = s + 2 ^ 32) as Hsyn.
  { intros s Hs. unfold MinInt32 in Hs. unfold u32. symmetry.
    apply Z.mod_unique_pos with (q := -1); lia. }
  split; [|split; [|split]].
  - intros a. unfold freqHeap_Less. rewrite bool_decide_eq_false_2 by tauto.
    apply bool_decide_eq_false_2. lia.
  - intros a b c. unfold freqHeap_Less.
    repeat case_bool_decide; try done; intros _ _; lia.
  - intros [ya fa] [yb fb] Ha Hb Hne. unfold freqHeap_Less.
    cbn [sf_symbol sf_freq] in *.
    assert (fa ≠ fb ∨ ya ≠ yb)
      by (destruct (decide (fa = fb)); [right|left]; congruence).
    assert (u32 ya = u32 yb → ya = yb) as Hinj.
    { unfold MinInt32, MaxInt32 in *.
      destruct (decide (0 ≤ ya)); destruct (decide (0 ≤ yb));
        rewrite ?(Hnat ya), ?(Hnat yb), ?(Hsyn ya), ?(Hsyn yb)
          by (unfold MinInt32, MaxInt32; lia); lia. }
    repeat case_bool_decide; try (by left); try (by right); lia.
  - intros a b Hf Ha Hb. unfold freqHeap_Less.
    rewrite bool_decide_eq_false_2 by tauto.
    apply bool_decide_eq_true_2. rewrite Hnat, Hsyn by done.
    unfold MaxInt32 in Ha. unfold MinInt32 in Hb. lia.
Qed.

(** * The heap of [firstPass] keeps its entries *)

Lemma hSwap_Permutation h i j :
  (i < length h)%nat → (j < length h)%nat → hSwap h i j ≡ₚ h.
Proof.
  intros Hi Hj. unfold hSwap.
  apply Permutation_insert_swap; by apply list_lookup_lookup_total_lt.
Qed.

Lemma heap_down_Permutation fuel : ∀ h i n,
  (n ≤ length h)%nat → heap_down fuel h i n ≡ₚ h.
Proof.
  induction fuel as [|f IH]; intros h i n Hn; [done|].
  cbn [heap_down]. case_bool_decide as Hj1; [done|].
  set (j := if bool_decide (2 * i + 1 + 1 < n)%nat
                 && hLess h (2 * i + 1 + 1) (2 * i + 1)
            then (2 * i + 1 + 1)%nat else (2 * i + 1)%nat).
  assert (j < n)%nat as Hj.
  { unfold j. destruct (bool_decide (2 * i + 1 + 1 < n)%nat) eqn:Hb; cbn [andb].
    - apply bool_decide_eq_true in Hb. destruct (hLess _ _ _); lia.
    - lia. }
  destruct (hLess h j i); cbn [negb]; [|done].
  assert (hSwap h i j ≡ₚ h) as Hs by (apply hSwap_Permutation; lia).
  rewrite IH; [done|]. by rewrite (Permutation_length Hs).
Qed.

Lemma heap_up_Permutation fuel : ∀ h j,
  (j < length h)%nat → heap_up fuel h j ≡ₚ h.
Proof.
  induction fuel as [|f IH]; intros h j Hj; [done|].
  cbn [heap_up].
  assert ((j - 1) / 2 ≤ j)%nat as Hi.
  { transitivity (j - 1)%nat; [|lia]. apply Nat.Div0.div_le_upper_bound. lia. }
  destruct (bool_decide ((j - 1) / 2 = j)%nat || negb (hLess h j ((j - 1) / 2)));
    [done|].
  assert (hSwap h ((j - 1) / 2) j ≡ₚ h) as Hs by (apply hSwap_Permutation; lia).
  rewrite IH; [done|]. rewrite (Permutation_length Hs). lia.
Qed.

Lemma heap_InitLoop_Permutation k : ∀ h n,
  (n ≤ length h)%nat → heap_InitLoop k h n ≡ₚ h.
Proof.
  induction k as [|k IH]; intros h n Hn; [done|].
  cbn [heap_InitLoop].
  pose proof (heap_down_Permutation n h k n Hn) as Hd.
  rewrite IH; [done|]. by rewrite (Permutation_length Hd).
Qed.

Lemma heap_Init_Permutation h : heap_Init h ≡ₚ h.
Proof. unfold heap_Init. by apply heap_InitLoop_Permutation. Qed.

Lemma heap_Push_Permutation h x : heap_Push h x ≡ₚ x :: h.
Proof.
  unfold heap_Push. rewrite heap_up_Permutation.
  - by rewrite Permutation_app_comm.
  - rewrite length_app. cbn [length]. lia.
Qed.

Lemma heap_Pop_Permutation h :
  h ≠ [] → ∃ x h', heap_Pop h = Ok (x, h') ∧ h ≡ₚ x :: h'.
Proof.
  intros Hne. unfold heap_Pop.
  destruct (length h) as [|n] eqn:Hlen; [by destruct h|].
  assert (hSwap h 0 n ≡ₚ h) as Hs by (apply hSwap_Permutation; lia).
  assert (heap_down n (hSwap h 0 n) 0 n ≡ₚ h) as Hd.
  { rewrite heap_down_Permutation; [done|].
    rewrite (Permutation_length Hs). lia. }
  set (h2 := heap_down n (hSwap h 0 n) 0 n) in *.
  assert (length h2 = S n) as Hl2 by (by rewrite (Permutation_length Hd)).
  destruct (h2 !! n) as [x|] eqn:Hx;
    [|apply lookup_ge_None in Hx; lia].
  exists x, (take n h2). split.
  - unfold index. rewrite bool_decide_eq_true_2 by lia.
    by rewrite Nat2Z.id, Hx.
  - rewrite <- Hd. rewrite <- (take_drop_middle h2 n x Hx) at 1.
    rewrite drop_ge by lia. by rewrite Permutation_app_comm.
Qed.

(** * The tree that [firstPass] builds *)

Lemma isTree_app syn x t : isTree syn t → isTree (syn ++ [x]) t.
Proof.
  induction t as [s|s l IHl r IHr]; [done|].
  cbn [isTree]. intros (Hs & Hlk & Hl & Hr).
  split; [done|]. split; [by apply lookup_app_l_Some|]. split; auto.
Qed.

Lemma fmap_Permutation_cons_inv {A B} (f : A → B) l x k :
  f <$> l ≡ₚ x :: k → ∃ y l', l ≡ₚ y :: l' ∧ f y = x ∧ f <$> l' ≡ₚ k.
Proof.
  intros Hp.
  assert (x ∈ f <$> l) as Hin by (rewrite Hp; by left).
  apply list_elem_of_fmap in Hin as (y & -> & Hy).
  apply elem_of_Permutation in Hy as (l' & Hl').
  exists y, l'. split; [done|]. split; [done|].
  rewrite Hl' in Hp. cbn [fmap list_fmap] in Hp.
  by apply Permutation_cons_inv in Hp.
Qed.

(** The merge loop runs to the end, and leaves one tree over all the
    symbols. *)
Lemma mergeLoop_spec syms n : ∀ h syn forest,
  length h = S n → forestInv syms h syn forest →
  Z.of_nat (length syn + n) < 2 ^ 31 →
  ∃ h' syn' forest',
    mergeLoop n h syn (MinInt32 + Z.of_nat (length syn)) = Ok (h', syn')
    ∧ length h' = 1%nat ∧ forestInv syms h' syn' forest'
    ∧ length syn' = (length syn + n)%nat.
Proof.
  induction n as [|n IH]; intros h syn forest Hlen Hinv Hsmall.
  - exists h, syn, forest. cbn [mergeLoop]. by rewrite Nat.add_0_r.
  - destruct Hinv as (Htrees & Hroots & Hleaves & Hint).
    destruct (heap_Pop_Permutation h) as (a & h1 & Hpa & Hha);
      [by destruct h|].
    assert (length h1 = S n) as Hl1.
    { apply Permutation_length in Hha. cbn [length] in Hha. lia. }
    destruct (heap_Pop_Permutation h1) as (b & h2 & Hpb & Hhb);
      [by destruct h1|].
    assert (length h2 = n) as Hl2.
    { apply Permutation_length in Hhb. cbn [length] in Hhb. lia. }
    cbn [mergeLoop]. rewrite Hpa. cbn [mbind result_bind]. rewrite Hpb.
    cbn [mbind result_bind].
    set (next := MinInt32 + Z.of_nat (length syn)).
    set (new := mkSF next (freqSum (sf_freq a) (sf_freq b))).
    set (syn1 := syn ++ [mkSyn (sf_symbol a) (sf_symbol b)]).
    rewrite Hha, Hhb in Hroots. cbn [fmap list_fmap] in Hroots.
    destruct (fmap_Permutation_cons_inv root forest _ _ Hroots)
      as (ta & f1 & Hf & Hra & Hroots1).
    destruct (fmap_Permutation_cons_inv root f1 _ _ Hroots1)
      as (tb & f2 & Hf1 & Hrb & Hroots2).
    assert (forest ≡ₚ ta :: tb :: f2) as Hforest by (by rewrite Hf, Hf1).
    rewrite Hforest in Htrees, Hleaves, Hint.
    apply Forall_cons in Htrees as [Hta Htrees].
    apply Forall_cons in Htrees as [Htb Htrees].
    assert (length syn1 = S (length syn)) as Hsyn1
      by (unfold syn1; rewrite length_app; cbn [length]; lia).
    replace (next + 1) with (MinInt32 + Z.of_nat (length syn1))
      by (unfold next; lia).
    destruct (IH (heap_Push h2 new) syn1 (Node next ta tb :: f2))
      as (h' & syn' & forest' & Hrun & Hl' & Hinv' & Hlsyn).
    + rewrite (Permutation_length (heap_Push_Permutation h2 new)).
      cbn [length]. lia.
    + split; [|split; [|split]].
      * apply Forall_cons. split.
        -- cbn [isTree]. unfold next, MinInt32 in *. split; [lia|].
           split.
           ++ replace (Z.to_nat (- 2 ^ 31 + Z.of_nat (length syn) - - 2 ^ 31))
                with (length syn) by lia.
              unfold syn1. rewrite lookup_app_r, Nat.sub_diag by lia.
              cbn. by rewrite Hra, Hrb.
           ++ split; by apply isTree_app.
        -- eapply Forall_impl; [exact Htrees|]. intros t. apply isTree_app.
      * rewrite heap_Push_Permutation. cbn [fmap list_fmap root sf_symbol new].
        by rewrite Hroots2.
      * rewrite <- Hleaves. cbn [mbind list_bind leaves]. by rewrite <- app_assoc.
      * rewrite Hsyn1, <- Hint. cbn [mbind list_bind internals length].
        rewrite !length_app. cbn [length]. rewrite !length_app. lia.
    + lia.
    + exists h', syn', forest'. split; [exact Hrun|]. split; [done|].
      split; [done|]. lia.
Qed.

(** * The walk of [firstPass] over the tree *)

Lemma processChild_leaf tw s :
  0 ≤ s → processChild tw s = leafStep tw (s, stackLen tw).
Proof.
  intros Hs. unfold processChild, leafStep.
  by rewrite bool_decide_eq_false_2 by lia.
Qed.

Lemma processChild_push tw s :
  s < 0 → processChild tw s = Ok (stackPush tw s).
Proof. intros Hs. unfold processChild. by rewrite bool_decide_eq_true_2. Qed.

Lemma leafStep_withStack st tw p :
  leafStep (withStack st tw) p = (tw' ← leafStep tw p; Ok (withStack st tw')).
Proof.
  unfold leafStep, withStack. cbn [tw_codes tw_hasMinMax tw_minSize tw_maxSize tw_stack].
  destruct (setSize _ _ _) as [codes| |]; cbn [mbind result_bind]; [|done|done].
  by destruct (_ : Z * Z) as [mn mx].
Qed.

Lemma forM_leafStep_withStack st l : ∀ tw,
  forM leafStep l (withStack st tw)
  = (tw' ← forM leafStep l tw; Ok (withStack st tw')).
Proof.
  induction l as [|p l IH]; intros tw; [done|].
  cbn [forM]. rewrite leafStep_withStack.
  destruct (leafStep tw p) as [tw1| |]; cbn [mbind result_bind]; [|done|done].
  apply IH.
Qed.

Lemma leafStep_stack tw p tw' :
  leafStep tw p = Ok tw' → tw_stack tw' = tw_stack tw.
Proof.
  unfold leafStep. intros H. apply bind_Ok in H as (codes & _ & H).
  destruct (_ : Z * Z) as [mn mx]. by injection H as <-.
Qed.

Lemma forM_leafStep_stack l : ∀ tw tw',
  forM leafStep l tw = Ok tw' → tw_stack tw' = tw_stack tw.
Proof.
  induction l as [|p l IH]; intros tw tw' H.
  - by injection H as <-.
  - cbn [forM] in H. apply bind_Ok in H as (tw1 & H1 & H).
    rewrite (IH _ _ H). by apply leafStep_stack in H1.
Qed.

Lemma withStack_id tw : withStack (tw_stack tw) tw = tw.
Proof. by destruct tw. Qed.

(** One iteration of the loop, by the state of the item on top. *)
Lemma walkLoop_top f syn tw st s x :
  tw_stack tw = st ++ [mkItem s x] →
  walkLoop (S f) syn tw
  = let tw1 := withStack (st ++ [mkItem s (u8 (x + 1))]) tw in
    match
      (if bool_decide (x = 0) then
         c ← leftChild syn (mkItem s x); processChild tw1 c
       else if bool_decide (x = 1) then
         c ← rightChild syn (mkItem s x); processChild tw1 c
       else if bool_decide (x = 2) then Ok (stackPop tw1)
       else Ok tw1)
    with
    | Ok tw => walkLoop f syn tw
    | Err e => WalkPanic (PanicErr e)
    | Panic p => WalkPanic p
    end.
Proof.
  intros Hst. cbn [walkLoop]. unfold stackLen. rewrite Hst, length_app.
  cbn [length]. rewrite bool_decide_eq_false_2 by lia.
  replace (Z.of_nat (length st + 1) - 1) with (Z.of_nat (length st)) by lia.
  unfold index. rewrite bool_decide_eq_true_2 by lia.
  rewrite Nat2Z.id, lookup_app_r, Nat.sub_diag by lia.
  cbn [lookup list_lookup mbind result_bind it_x it_s].
  unfold store.
  assert (bool_decide (0 ≤ Z.of_nat (length st)
                       < Z.of_nat (length (st ++ [mkItem s x]))) = true)
    as -> by (apply bool_decide_eq_true_2; rewrite length_app;
              cbn [length]; lia).
  cbn [mbind result_bind]. rewrite Nat2Z.id.
  rewrite insert_app_r_alt, Nat.sub_diag by lia. cbn [insert list_insert].
  done.
Qed.

Lemma walkLoop_left f syn tw st s a b tw' :
  tw_stack tw = st ++ [mkItem s 0] → MinInt32 ≤ s →
  syn !! Z.to_nat (s - MinInt32) = Some (mkSyn a b) →
  processChild (withStack (st ++ [mkItem s 1]) tw) a = Ok tw' →
  walkLoop (S f) syn tw = walkLoop f syn tw'.
Proof.
  intros Hst Hs Hlk Hp. rewrite (walkLoop_top f syn tw st s 0 Hst). cbn zeta.
  rewrite bool_decide_eq_true_2 by done.
  unfold leftChild, index. cbn [it_s]. rewrite bool_decide_eq_true_2 by lia.
  rewrite Hlk. cbn [mbind result_bind syn_left].
  change (u8 (0 + 1)) with 1. by rewrite Hp.
Qed.

Lemma walkLoop_right f syn tw st s a b tw' :
  tw_stack tw = st ++ [mkItem s 1] → MinInt32 ≤ s →
  syn !! Z.to_nat (s - MinInt32) = Some (mkSyn a b) →
  processChild (withStack (st ++ [mkItem s 2]) tw) b = Ok tw' →
  walkLoop (S f) syn tw = walkLoop f syn tw'.
Proof.
  intros Hst Hs Hlk Hp. rewrite (walkLoop_top f syn tw st s 1 Hst). cbn zeta.
  rewrite bool_decide_eq_false_2 by done.
  rewrite bool_decide_eq_true_2 by done.
  unfold rightChild, index. cbn [it_s]. rewrite bool_decide_eq_true_2 by lia.
  rewrite Hlk. cbn [mbind result_bind syn_right].
  change (u8 (1 + 1)) with 2. by rewrite Hp.
Qed.

Lemma walkLoop_pop f syn tw st s :
  tw_stack tw = st ++ [mkItem s 2] →
  walkLoop (S f) syn tw = walkLoop f syn (withStack st tw).
Proof.
  intros Hst. rewrite (walkLoop_top f syn tw st s 2 Hst). cbn zeta.
  rewrite !bool_decide_eq_false_2 by done.
  rewrite bool_decide_eq_true_2 by done.
  unfold stackPop, withStack. cbn [tw_stack tw_codes tw_hasMinMax tw_minSize tw_maxSize].
  rewrite length_app. cbn [length].
  replace (length st + 1 - 1)%nat with (length st) by lia.
  by rewrite take_app_length.
Qed.

(** The walk below a child: the loop sets the sizes of the leaves of the
    subtree, from left to right, and comes back to the stack it started
    from, in three iterations for every inner node. *)
Lemma walkLoop_tree syn t : ∀ tw twF,
  isTree syn t →
  forM leafStep (depths (stackLen tw) t) tw = Ok twF →
  ∃ tw0, processChild tw (root t) = Ok tw0
         ∧ ∀ f, walkLoop (3 * length (internals t) + f) syn tw0
                = walkLoop f syn twF.
Proof.
  induction t as [s|s l IHl r IHr]; intros tw twF Ht Hrun.
  - cbn [isTree] in Ht. cbn [depths forM] in Hrun.
    apply bind_Ok in Hrun as (tw1 & H1 & Hrun). injection Hrun as <-.
    exists tw1. split; [by rewrite processChild_leaf|done].
  - destruct Ht as (Hs & Hlk & Hl & Hr).
    cbn [depths] in Hrun. rewrite forM_app in Hrun.
    apply bind_Ok in Hrun as (twl & Hrunl & Hrunr).
    pose proof (forM_leafStep_stack _ _ _ Hrunl) as Hstl.
    pose proof (forM_leafStep_stack _ _ _ Hrunr) as Hstr.
    set (st := tw_stack tw) in *.
    exists (stackPush tw s). cbn [root].
    split; [apply processChild_push; lia|].
    intros f.
    (* the left child *)
    destruct (IHl (withStack (st ++ [mkItem s 1]) tw)
                  (withStack (st ++ [mkItem s 1]) twl) Hl)
      as (tw0l & Hpl & Hwl).
    { rewrite forM_leafStep_withStack.
      replace (stackLen (withStack (st ++ [mkItem s 1]) tw))
        with (stackLen tw + 1)
        by (unfold stackLen, withStack; cbn [tw_stack]; rewrite length_app;
            cbn [length]; fold st; lia).
      by rewrite Hrunl. }
    (* the right child *)
    destruct (IHr (withStack (st ++ [mkItem s 2]) twl)
                  (withStack (st ++ [mkItem s 2]) twF) Hr)
      as (tw0r & Hpr & Hwr).
    { rewrite forM_leafStep_withStack.
      replace (stackLen (withStack (st ++ [mkItem s 2]) twl))
        with (stackLen tw + 1)
        by (unfold stackLen, withStack; cbn [tw_stack]; rewrite length_app;
            cbn [length]; fold st; lia).
      by rewrite Hrunr. }
    cbn [internals length]. rewrite length_app.
    replace (3 * S (length (internals l) + length (internals r)) + f)%nat
      with (S (3 * length (internals l)
               + S (3 * length (internals r) + S f)))%nat by lia.
    rewrite (walkLoop_left _ syn (stackPush tw s) st s (root l) (root r) tw0l);
      [|done|lia|done|].
    2:{ replace (withStack (st ++ [mkItem s 1]) (stackPush tw s))
          with (withStack (st ++ [mkItem s 1]) tw) by done. exact Hpl. }
    rewrite Hwl.
    rewrite (walkLoop_right _ syn _ st s (root l) (root r) tw0r);
      [|done|lia|done|].
    2:{ replace (withStack (st ++ [mkItem s 2])
                   (withStack (st ++ [mkItem s 1]) twl))
          with (withStack (st ++ [mkItem s 2]) twl) by done. exact Hpr. }
    rewrite Hwr.
    rewrite (walkLoop_pop _ syn _ st s); [|done].
    replace (withStack st (withStack (st ++ [mkItem s 2]) twF))
      with (withStack (tw_stack twF) twF)
      by (unfold withStack; cbn; by rewrite Hstr, Hstl).
    by rewrite withStack_id.
Qed.

(** * The sizes that the walk leaves *)

Lemma setSize_sizedCodes sizes s size :
  0 ≤ s < Z.of_nat (length sizes) →
  setSize (sizedCodes sizes) s size
  = Ok (sizedCodes (<[Z.to_nat s := size]> sizes)).
Proof.
  intros Hs. unfold setSize.
  destruct (sizes !! Z.to_nat s) as [x|] eqn:Hx;
    [|apply lookup_ge_None in Hx; lia].
  assert (index (sizedCodes sizes) s = Ok (MakeCode x 0)) as ->.
  { apply index_Ok. split; [lia|]. unfold sizedCodes.
    by rewrite list_lookup_fmap, Hx. }
  cbn [mbind result_bind Bits]. unfold store.
  rewrite bool_decide_eq_true_2
    by (unfold sizedCodes; rewrite length_fmap; lia).
  unfold sizedCodes. by rewrite list_fmap_insert.
Qed.

Lemma leafStep_Ok tw p sizes :
  tw_codes tw = sizedCodes sizes → 0 ≤ p.1 < Z.of_nat (length sizes) →
  ∃ tw', leafStep tw p = Ok tw'
         ∧ tw_codes tw' = sizedCodes (<[Z.to_nat p.1 := u8 p.2]> sizes).
Proof.
  intros Hcodes Hp. unfold leafStep. rewrite Hcodes.
  rewrite setSize_sizedCodes by done.
  cbn [mbind result_bind].
  match goal with |- context [let '(_, _) := ?e in _] =>
    destruct e as [mn mx] end.
  eexists. split; [reflexivity|done].
Qed.

Lemma forM_leafStep_run D : ∀ tw sizes,
  tw_codes tw = sizedCodes sizes →
  (∀ p, p ∈ D → 0 ≤ p.1 < Z.of_nat (length sizes)) →
  ∃ twF, forM leafStep D tw = Ok twF
         ∧ tw_codes twF = sizedCodes (sizesOf sizes D).
Proof.
  induction D as [|p D IH]; intros tw sizes Hcodes Hr.
  - exists tw. by split.
  - destruct (leafStep_Ok tw p sizes Hcodes) as (tw1 & Hstep & Hc1);
      [apply Hr; by left|].
    cbn [forM]. rewrite Hstep. cbn [mbind result_bind].
    apply IH; [done|]. intros q Hq. rewrite length_insert. apply Hr. by right.
Qed.

Lemma forM_leafStep_minmax D tw twF :
  forM leafStep D tw = Ok twF → tw_hasMinMax tw = false → D ≠ [] →
  (∀ p, p ∈ D → tw_minSize twF ≤ u8 p.2 ≤ tw_maxSize twF)
  ∧ (∃ p, p ∈ D ∧ tw_minSize twF = u8 p.2)
  ∧ (∃ p, p ∈ D ∧ tw_maxSize twF = u8 p.2).
Proof.
  intros Hrun Hfalse Hne.
  pose (I := fun (pre : list (Z * Z)) (s : treeWalk) =>
    (tw_hasMinMax s = false → pre = [])
    ∧ (tw_hasMinMax s = true →
       (∀ p, p ∈ pre → tw_minSize s ≤ u8 p.2 ≤ tw_maxSize s)
       ∧ (∃ p, p ∈ pre ∧ tw_minSize s = u8 p.2)
       ∧ (∃ p, p ∈ pre ∧ tw_maxSize s = u8 p.2))).
  assert (I ([] ++ D) twF) as [H0 H1].
  { apply (forM_inv leafStep I) with (st := tw);
      [|split; [done|by rewrite Hfalse]|done].
    unfold I. clear. intros pre x s s' [H0 H1] Hstep.
    unfold leafStep in Hstep.
    apply bind_Ok in Hstep as (codes & _ & Hstep).
    match type of Hstep with context [let '(_, _) := ?e in _] =>
      destruct e as [mn mx] eqn:Hmnmx end.
    injection Hstep as <-. cbn [tw_hasMinMax tw_minSize tw_maxSize].
    split; [intros [=]|]. intros _.
    destruct (tw_hasMinMax s) eqn:Hh; cbn [negb] in Hmnmx.
    - destruct (H1 eq_refl) as (Ha & (pa & Hpa & Hmin) & (pb & Hpb & Hmax)).
      pose proof (Ha pa Hpa) as Hle. rewrite <- Hmin in Hle.
      assert (mn ≤ tw_minSize s ∧ tw_maxSize s ≤ mx ∧ mn ≤ u8 x.2 ≤ mx
              ∧ (mn = tw_minSize s ∨ mn = u8 x.2)
              ∧ (mx = tw_maxSize s ∨ mx = u8 x.2)) as Hq.
      { repeat case_bool_decide; injection Hmnmx as <- <-;
          repeat split; try lia; auto. }
      destruct Hq as (? & ? & ? & Hmn & Hmx).
      split; [|split].
      + intros p Hp. apply elem_of_app in Hp as [Hp|Hp].
        * specialize (Ha p Hp). lia.
        * apply list_elem_of_singleton in Hp. subst p. lia.
      + destruct Hmn as [->| ->]; [exists pa|exists x];
          (split; [set_solver|done]).
      + destruct Hmx as [->| ->]; [exists pb|exists x];
          (split; [set_solver|done]).
    - injection Hmnmx as <- <-. rewrite (H0 eq_refl). cbn [app].
      split; [|split; exists x; (split; [set_solver|done])].
      intros p Hp. apply list_elem_of_singleton in Hp. subst p. lia. }
  cbn [app] in H0, H1.
  destruct (tw_hasMinMax twF) eqn:Hh; [by apply H1|].
  by destruct Hne; apply H0.
Qed.

Lemma sumOf_insert f l i x y :
  l !! i = Some x → sumOf f (<[i := y]> l) = sumOf f l - f x + f y.
Proof.
  revert i. induction l as [|z l IH]; intros i Hi; [done|].
  destruct i as [|i].
  - cbn in Hi. injection Hi as ->.
    change (<[0%nat := y]> (x :: l)) with (y :: l).
    rewrite !sumOf_cons. lia.
  - cbn in Hi. change (<[S i := y]> (z :: l)) with (z :: <[i := y]> l).
    rewrite !sumOf_cons, (IH i Hi). lia.
Qed.

Lemma sizesOf_length D : ∀ sizes, length (sizesOf sizes D) = length sizes.
Proof.
  unfold sizesOf. induction D as [|p D IH]; intros sizes; [done|].
  cbn [foldl]. by rewrite IH, length_insert.
Qed.

Lemma sizesOf_other D : ∀ sizes i,
  (∀ p, p ∈ D → Z.to_nat p.1 ≠ i) → sizesOf sizes D !! i = sizes !! i.
Proof.
  unfold sizesOf. induction D as [|p D IH]; intros sizes i Hi; [done|].
  cbn [foldl]. rewrite IH by (intros q Hq; apply Hi; by right).
  apply list_lookup_insert_ne. apply Hi. by left.
Qed.

Lemma sizesOf_lookup D : ∀ sizes p,
  NoDup D.*1 → (∀ q, q ∈ D → 0 ≤ q.1 < Z.of_nat (length sizes)) →
  p ∈ D → sizesOf sizes D !! Z.to_nat p.1 = Some (u8 p.2).
Proof.
  induction D as [|q D IH]; intros sizes p Hnd Hr Hp;
    [by apply elem_of_nil in Hp|].
  cbn [fmap list_fmap] in Hnd. apply NoDup_cons in Hnd as [Hni Hnd].
  change (sizesOf sizes (q :: D))
    with (sizesOf (<[Z.to_nat q.1 := u8 q.2]> sizes) D).
  apply elem_of_cons in Hp as [->|Hp].
  - rewrite sizesOf_other.
    + apply list_lookup_insert_eq. specialize (Hr q ltac:(by left)). lia.
    + intros r Hrin Heq. apply Hni. apply list_elem_of_fmap. exists r.
      split; [|done].
      pose proof (Hr r ltac:(by right)). pose proof (Hr q ltac:(by left)). lia.
  - apply IH; [done| |done].
    intros r Hrin. rewrite length_insert. apply Hr. by right.
Qed.

(** The code space of the sizes that the walk leaves is the sum over the
    leaves. *)
Lemma sizesOf_codeSpace M D : ∀ sizes,
  NoDup D.*1 →
  (∀ q, q ∈ D → 0 ≤ q.1 ∧ sizes !! Z.to_nat q.1 = Some 0 ∧ 0 < q.2 < 256) →
  codeSpace M (sizesOf sizes D)
  = codeSpace M sizes + sumOf (fun d => 2 ^ (M - d)) D.*2.
Proof.
  induction D as [|q D IH]; intros sizes Hnd Hr.
  { change (codeSpace M sizes = codeSpace M sizes + 0). lia. }
  cbn [fmap list_fmap] in Hnd. apply NoDup_cons in Hnd as [Hni Hnd].
  change (sizesOf sizes (q :: D))
    with (sizesOf (<[Z.to_nat q.1 := u8 q.2]> sizes) D).
  destruct (Hr q ltac:(by left)) as (Hq0 & Hq1 & Hq2).
  rewrite IH; [|done|].
  - unfold codeSpace at 1. rewrite (sumOf_insert _ _ _ 0) by done.
    fold (codeSpace M sizes). cbn [fmap list_fmap]. rewrite sumOf_cons.
    unfold u8. rewrite Z.mod_small by lia.
    rewrite bool_decide_eq_true_2 by done.
    rewrite bool_decide_eq_false_2 by lia. lia.
  - intros r Hrin. destruct (Hr r ltac:(by right)) as (Hr0 & Hr1 & Hr2).
    split; [done|]. split; [|done].
    rewrite list_lookup_insert_ne; [done|].
    intros Heq. apply Hni. apply list_elem_of_fmap. exists r.
    split; [lia|done].
Qed.

Lemma depths_fst t : ∀ L, (depths L t).*1 = leaves t.
Proof.
  induction t as [s|s l IHl r IHr]; intros L; [done|].
  cbn [depths leaves]. by rewrite fmap_app, IHl, IHr.
Qed.

Lemma depths_bounds t : ∀ L p,
  p ∈ depths L t → L ≤ p.2 ≤ L + Z.of_nat (length (internals t)).
Proof.
  induction t as [s|s l IHl r IHr]; intros L p Hp.
  - apply list_elem_of_singleton in Hp. subst p. cbn. lia.
  - cbn [depths] in Hp. cbn [internals length]. rewrite length_app.
    apply elem_of_app in Hp as [Hp|Hp].
    + specialize (IHl _ _ Hp). lia.
    + specialize (IHr _ _ Hp). lia.
Qed.

Lemma depths_nonempty t L : ∃ p, p ∈ depths L t.
Proof.
  revert L. induction t as [s|s l IHl r IHr]; intros L.
  - exists (s, L). by left.
  - destruct (IHl (L + 1)) as (p & Hp). exists p. cbn [depths].
    apply elem_of_app. by left.
Qed.

Lemma leaves_length t : length (leaves t) = S (length (internals t)).
Proof.
  induction t as [s|s l IHl r IHr]; [done|].
  cbn [leaves internals length]. rewrite !length_app. lia.
Qed.

(** The leaves of a binary tree fill the code space: the equality of
    Kraft. *)
Lemma depths_kraft t : ∀ L M,
  (∀ p, p ∈ depths L t → p.2 ≤ M) →
  sumOf (fun d => 2 ^ (M - d)) (depths L t).*2 = 2 ^ (M - L).
Proof.
  induction t as [s|s l IHl r IHr]; intros L M HM.
  - change (2 ^ (M - L) + 0 = 2 ^ (M - L)). lia.
  - cbn [depths]. rewrite fmap_app, sumOf_app.
    rewrite IHl by (intros p Hp; apply HM; cbn [depths]; apply elem_of_app; by left).
    rewrite IHr by (intros p Hp; apply HM; cbn [depths]; apply elem_of_app; by right).
    destruct (depths_nonempty l (L + 1)) as (p & Hp).
    pose proof (depths_bounds _ _ _ Hp) as [Hlo _].
    assert (p.2 ≤ M) by (apply HM; cbn [depths]; apply elem_of_app; by left).
    replace (M - L) with (Z.succ (M - (L + 1))) by lia.
    rewrite Z.pow_succ_r by lia. lia.
Qed.

(** * [firstPass] as a whole *)

Lemma forM_nodesStep freqs : ∀ st,
  forM nodesStep freqs st
  = Ok (mkNodes (ns_symbol st + Z.of_nat (length freqs))
                (ns_nodes st ++ nodesFrom (ns_symbol st) freqs)).
Proof.
  induction freqs as [|f freqs IH]; intros st.
  - cbn. rewrite Z.add_0_r, app_nil_r. by destruct st.
  - assert (nodesStep st f
            = Ok (mkNodes (ns_symbol st + 1)
                    (ns_nodes st
                     ++ if bool_decide (f = 0) then []
                        else [mkSF (ns_symbol st) f]))) as Hstep.
    { unfold nodesStep. destruct (decide (f = 0)) as [Hf|Hf].
      - rewrite bool_decide_eq_false_2 by (intros ?; done).
        rewrite bool_decide_eq_true_2 by done. by rewrite app_nil_r.
      - rewrite bool_decide_eq_true_2 by done.
        by rewrite bool_decide_eq_false_2 by done. }
    cbn [forM nodesFrom]. rewrite Hstep. cbn [mbind result_bind].
    rewrite IH. cbn [ns_symbol ns_nodes length].
    do 2 f_equal; [lia|]. by rewrite <- app_assoc.
Qed.

Lemma nodesFrom_liveItems freqs : ∀ s0,
  sf_symbol <$> nodesFrom s0 freqs = ss_symbol <$> liveItems s0 freqs.
Proof.
  induction freqs as [|f freqs IH]; intros s0; [done|].
  cbn [nodesFrom liveItems]. rewrite !fmap_app, IH.
  by case_bool_decide.
Qed.

Lemma liveItems_length l : ∀ s0, Z.of_nat (length (liveItems s0 l)) = live l.
Proof.
  induction l as [|x l IH]; intros s0; [done|].
  cbn [liveItems]. rewrite length_app, Nat2Z.inj_add, IH.
  unfold live at 2. rewrite sumOf_cons. fold (live l).
  by case_bool_decide.
Qed.

Lemma nodesFrom_length freqs s0 :
  Z.of_nat (length (nodesFrom s0 freqs)) = live freqs.
Proof.
  rewrite <- (liveItems_length freqs s0).
  by rewrite <- (length_fmap sf_symbol), nodesFrom_liveItems, length_fmap.
Qed.

(** [firstPass] returns: the merge loop leaves a tree over the nodes, and
    the walk gives every node the depth of its leaf. *)
Lemma firstPass_spec codes nodes sizes mn mx :
  codes = sizedCodes sizes →
  (2 ≤ length nodes)%nat → Z.of_nat (length nodes) < 2 ^ 31 →
  (∀ nd, nd ∈ nodes → 0 ≤ sf_symbol nd < Z.of_nat (length sizes)) →
  ∃ s l r twF,
    firstPass codes nodes mn mx = WalkDone twF
    ∧ leaves (Node s l r) ≡ₚ sf_symbol <$> nodes
    ∧ forM leafStep (depths 0 (Node s l r)) (mkTree [] codes false mn mx)
      = Ok twF
    ∧ tw_codes twF = sizedCodes (sizesOf sizes (depths 0 (Node s l r))).
Proof.
  intros Hcodes Hn2 Hsmall Hr. unfold firstPass. cbn zeta.
  pose proof (heap_Init_Permutation nodes) as Hh.
  set (h := heap_Init nodes) in *.
  set (syms := sf_symbol <$> nodes).
  assert (length h = S (length h - 1)) as Hlen
    by (rewrite (Permutation_length Hh); lia).
  destruct (mergeLoop_spec syms (length h - 1) h [] (Leaf <$> syms))
    as (h' & syn & forest & Hrun & Hl' & Hinv & Hlsyn).
  { done. }
  { split; [|split; [|split]].
    - apply Forall_fmap, Forall_fmap, Forall_forall. intros nd Hnd. cbn.
      by apply Hr.
    - rewrite <- list_fmap_compose.
      rewrite (list_fmap_ext (root ∘ Leaf) id syms) by done.
      rewrite list_fmap_id. unfold syms. by rewrite Hh.
    - clear. induction syms as [|x syms IH]; [done|].
      cbn [fmap list_fmap mbind list_bind leaves app]. by rewrite IH.
    - clear. induction syms as [|x syms IH]; [done|].
      cbn [fmap list_fmap mbind list_bind internals app]. by rewrite IH. }
  { cbn [length]. rewrite (Permutation_length Hh). lia. }
  change (MinInt32 + Z.of_nat (length (@nil syntheticSymbol))) with (MinInt32 + 0)
    in Hrun.
  rewrite Z.add_0_r in Hrun. rewrite Hrun.
  destruct Hinv as (Htrees & Hroots & Hleaves & Hint).
  destruct (heap_Pop_Permutation h') as (x & h'' & Hpop & Hperm);
    [by destruct h'|].
  rewrite Hpop.
  assert (h'' = []) as ->.
  { apply Permutation_length in Hperm. cbn [length] in Hperm.
    destruct h''; [done|cbn in Hperm; lia]. }
  rewrite Hperm in Hroots. cbn [fmap list_fmap] in Hroots.
  apply Permutation_singleton_r in Hroots.
  destruct forest as [|t [|t' forest]]; try done.
  cbn [fmap list_fmap] in Hroots. injection Hroots as Hroot.
  apply Forall_cons in Htrees as [Ht _].
  cbn [mbind list_bind] in Hleaves, Hint. rewrite app_nil_r in Hleaves, Hint.
  destruct t as [s0|s l r].
  { apply Permutation_length in Hleaves. cbn [leaves length] in Hleaves.
    unfold syms in Hleaves. rewrite length_fmap in Hleaves. lia. }
  exists s, l, r.
  destruct (forM_leafStep_run (depths 0 (Node s l r))
              (mkTree [] codes false mn mx) sizes Hcodes)
    as (twF & HrunF & HcodesF).
  { intros p Hp.
    assert (p.1 ∈ leaves (Node s l r)) as Hin.
    { rewrite <- (depths_fst _ 0). apply list_elem_of_fmap. by exists p. }
    rewrite Hleaves in Hin. unfold syms in Hin.
    apply list_elem_of_fmap in Hin as (nd & -> & Hnd). by apply Hr. }
  exists twF.
  destruct (walkLoop_tree syn (Node s l r) (mkTree [] codes false mn mx) twF
              Ht HrunF) as (tw0 & Hp0 & Hwalk).
  cbn [root] in Hp0, Hroot.
  rewrite processChild_push in Hp0 by (destruct Ht as [[_ ?] _]; done).
  injection Hp0 as <-. rewrite <- Hroot.
  split; [|by repeat split].
  rewrite <- Hint.
  rewrite <- (Nat.add_0_r (3 * length (internals (Node s l r)))).
  rewrite Hwalk.
  pose proof (forM_leafStep_stack _ _ _ HrunF) as Hst. cbn [tw_stack] in Hst.
  destruct twF as [st c hm a b]. cbn [tw_stack] in Hst. subst st.
  reflexivity.
Qed.

(** * [Encoder.Init] on three symbols or more *)

Lemma codeSpace_replicate M n : codeSpace M (replicate n 0) = 0.
Proof.
  unfold codeSpace. apply sumOf_zero. intros x Hx.
  apply elem_of_replicate in Hx as [-> _]. done.
Qed.

(** [Encoder.Init] up to the call of [secondPass]: the sizes that
    [firstPass] has written are the depths of the leaves of a binary tree
    over the symbols of nonzero frequency. *)
Lemma Encoder_Init_run n freqs :
  1 ≤ n ≤ MaxSymbol → Z.of_nat (length freqs) ≤ n → 3 ≤ live freqs ≤ 256 →
  ∃ sizes mn mx,
    length sizes = Z.to_nat n
    ∧ (∀ i x, sizes !! i = Some x →
              0 ≤ x < 256 ∧ (x ≠ 0 ↔ ∃ f, freqs !! i = Some f ∧ f ≠ 0))
    ∧ codeSpace mx sizes = 2 ^ mx
    ∧ mn ∈ sizes ∧ mx ∈ sizes ∧ 0 < mn
    ∧ (∀ x, x ∈ sizes → x ≠ 0 → mn ≤ x ≤ mx)
    ∧ Encoder_Init n freqs
      = match secondPass (sizedCodes sizes) with
        | Ok out => InitDone (mkInitOut (mkEncoder (sp_codes out) mn mx)
                                        (sp_err out))
        | Err e => InitPanic (PanicErr e)
        | Panic p => InitPanic p
        end.
Proof.
  intros Hn Hlen Hlive.
  set (sizes0 := replicate (Z.to_nat n) 0).
  set (nodes := nodesFrom 0 freqs).
  assert (Z.of_nat (length nodes) = live freqs) as Hnl
    by apply nodesFrom_length.
  assert (∀ z, z ∈ sf_symbol <$> nodes ↔
               ∃ i f, freqs !! i = Some f ∧ f ≠ 0 ∧ z = Z.of_nat i) as Hsym.
  { intros z. unfold nodes. rewrite nodesFrom_liveItems. split.
    - intros Hz. apply list_elem_of_fmap in Hz as (it & -> & Hit).
      apply liveItems_elem in Hit as (i & Hi & Hnz & Hs).
      exists i, (ss_size it). split; [done|]. split; [done|lia].
    - intros (i & f & Hi & Hf & ->). apply list_elem_of_fmap.
      exists (mkSS (Z.of_nat i) f). split; [done|].
      apply liveItems_elem. exists i. cbn. split; [done|]. split; [done|lia]. }
  assert (NoDup (sf_symbol <$> nodes)) as Hnd.
  { unfold nodes. rewrite nodesFrom_liveItems. apply liveItems_NoDup. }
  unfold MaxSymbol, MaxInt32 in Hn.
  destruct (firstPass_spec (replicate (Z.to_nat n) (MakeCode 0 0)) nodes
              sizes0 0 0) as (s & l & r & twF & Hfp & Hleaves & HrunF & HcodesF).
  { unfold sizes0, sizedCodes. by rewrite fmap_replicate. }
  { lia. }
  { lia. }
  { intros nd Hnd'.
    assert (sf_symbol nd ∈ sf_symbol <$> nodes) as Hin
      by (apply list_elem_of_fmap; by exists nd).
    apply Hsym in Hin as (i & f & Hi & _ & ->).
    apply lookup_lt_Some in Hi. unfold sizes0. rewrite length_replicate. lia. }
  set (t := Node s l r) in *. set (D := depths 0 t) in *.
  assert (D.*1 ≡ₚ sf_symbol <$> nodes) as HD1
    by (unfold D; by rewrite depths_fst).
  assert (NoDup D.*1) as HndD by (by rewrite HD1).
  assert (∀ p, p ∈ D → 0 ≤ p.1 < Z.of_nat (length sizes0)
                       ∧ 1 ≤ p.2 ≤ 255 ∧ u8 p.2 = p.2) as HDr.
  { intros p Hp.
    assert (p.1 ∈ D.*1) as Hin by (apply list_elem_of_fmap; by exists p).
    rewrite HD1 in Hin. apply Hsym in Hin as (i & f & Hi & _ & Hpi).
    apply lookup_lt_Some in Hi.
    split; [unfold sizes0; rewrite length_replicate; lia|].
    pose proof (depths_bounds t 0 p Hp) as [_ Hup].
    pose proof (leaves_length t) as Hll.
    apply Permutation_length in Hleaves. rewrite length_fmap in Hleaves.
    assert (1 ≤ p.2) as Hlo.
    { unfold D, t in Hp. cbn [depths] in Hp.
      apply elem_of_app in Hp as [Hp|Hp];
        apply depths_bounds in Hp; lia. }
    assert (p.2 ≤ 255) by lia.
    split; [lia|]. unfold u8. apply Z.mod_small. lia. }
  assert (D ≠ []) as HDne.
  { destruct (depths_nonempty t 0) as (p & Hp). fold D in Hp.
    intros HD. rewrite HD in Hp. by apply elem_of_nil in Hp. }
  destruct (forM_leafStep_minmax D _ twF HrunF eq_refl HDne)
    as (Hbounds & (pa & Hpa & Hmin) & (pb & Hpb & Hmax)).
  set (sizes := sizesOf sizes0 D) in *.
  assert (∀ p, p ∈ D → sizes !! Z.to_nat p.1 = Some p.2) as Hlk.
  { intros p Hp. unfold sizes. rewrite (sizesOf_lookup D sizes0 p HndD);
      [|intros q Hq; by apply HDr|done].
    by destruct (HDr p Hp) as (_ & _ & ->). }
  assert (∀ i x, sizes !! i = Some x →
                 (∃ p, p ∈ D ∧ Z.of_nat i = p.1 ∧ x = p.2)
                 ∨ ((Z.of_nat i ∉ D.*1) ∧ x = 0)) as Hchar.
  { intros i x Hi. destruct (decide (Z.of_nat i ∈ D.*1)) as [Hin|Hnin].
    - left. apply list_elem_of_fmap in Hin as (p & Hpi & Hp).
      exists p. split; [done|]. split; [done|].
      pose proof (Hlk p Hp) as Hlkp. rewrite <- Hpi, Nat2Z.id in Hlkp.
      congruence.
    - right. split; [done|]. unfold sizes in Hi. rewrite sizesOf_other in Hi.
      + unfold sizes0 in Hi. apply lookup_replicate in Hi as [-> _]. done.
      + intros p Hp Heq. apply Hnin. apply list_elem_of_fmap. exists p.
        split; [|done]. destruct (HDr p Hp) as ((? & _) & _). lia. }
  exists sizes, (tw_minSize twF), (tw_maxSize twF).
  split; [unfold sizes, sizes0; by rewrite sizesOf_length, length_replicate|].
  split.
  { intros i x Hi. destruct (Hchar i x Hi) as [(p & Hp & Hpi & ->)|[Hnin ->]].
    - destruct (HDr p Hp) as (_ & Hr2 & _). split; [lia|].
      split; [intros _|lia].
      assert (p.1 ∈ D.*1) as Hin by (apply list_elem_of_fmap; by exists p).
      rewrite HD1 in Hin. apply Hsym in Hin as (j & f & Hj & Hf & Hpj).
      exists f. split; [|done]. by replace i with j by lia.
    - split; [lia|]. split; [done|]. intros (f & Hf & Hf0). exfalso.
      apply Hnin. rewrite HD1. apply Hsym. by exists i, f. }
  split.
  { unfold sizes. rewrite (sizesOf_codeSpace _ D sizes0 HndD).
    - unfold sizes0. rewrite codeSpace_replicate.
      rewrite (depths_kraft t 0); [rewrite Z.sub_0_r; lia|].
      intros p Hp. destruct (HDr p Hp) as (_ & _ & Hu).
      specialize (Hbounds p Hp). lia.
    - intros q Hq. destruct (HDr q Hq) as ((Hq0 & Hq1) & Hq2 & _).
      split; [done|]. split; [|lia].
      unfold sizes0 in *. rewrite length_replicate in Hq1.
      apply lookup_replicate. split; [done|lia]. }
  split.
  { rewrite Hmin. destruct (HDr pa Hpa) as (_ & _ & ->).
    eapply list_elem_of_lookup_2. by apply Hlk. }
  split.
  { rewrite Hmax. destruct (HDr pb Hpb) as (_ & _ & ->).
    eapply list_elem_of_lookup_2. by apply Hlk. }
  split.
  { rewrite Hmin. destruct (HDr pa Hpa) as (_ & ? & ->). lia. }
  split.
  { intros x Hx Hx0. apply list_elem_of_lookup in Hx as (i & Hi).
    destruct (Hchar i x Hi) as [(p & Hp & _ & ->)|[_ ->]]; [|done].
    destruct (HDr p Hp) as (_ & _ & Hu). specialize (Hbounds p Hp). lia. }
  unfold Encoder_Init.
  rewrite !bool_decide_eq_true_2 by (unfold MaxSymbol, MaxInt32; lia).
  cbn [negb]. rewrite forM_nodesStep. cbn [ns_nodes ns_symbol app].
  fold nodes. rewrite u32_small by lia.
  rewrite bool_decide_eq_false_2 by lia.
  rewrite Hfp, HcodesF. fold sizes.
  by destruct (secondPass (sizedCodes sizes)).
Qed.

Lemma secondPass_too_long sizes :
  Forall (fun x => 0 ≤ x) sizes → ¬ Forall (fun x => x ≤ maxBitsPerCode) sizes →
  ∃ x, x ∈ sizes ∧ x > maxBitsPerCode
       ∧ secondPass (sizedCodes sizes)
         = Ok (mkSP (sizedCodes sizes)
                    (Some (ErrInvalidLength x maxBitsPerCode))).
Proof.
  intros Hnn Hnot.
  destruct (Forall_or_first (fun x => 0 ≤ x ≤ maxBitsPerCode) sizes)
    as [Hall|(l1 & x & l2 & Heq & H1 & Hx)].
  { destruct Hnot. eapply Forall_impl; [exact Hall|]. intros y Hy. cbn in Hy. lia. }
  assert (x ∈ sizes) as Hin by (rewrite Heq; set_solver).
  assert (x > maxBitsPerCode) as Hgt.
  { rewrite Forall_forall in Hnn. specialize (Hnn x Hin). lia. }
  exists x. split; [done|]. split; [done|].
  unfold secondPass. rewrite Heq at 1. unfold sizedCodes at 1.
  rewrite fmap_app, fmap_cons.
  rewrite forM_collectStep_Err; [done| |done].
  apply Forall_fmap. by eapply Forall_impl.
Qed.

(** With three symbols of nonzero frequency or more, and 256 at most,
    [Encoder.Init] returns; the lengths it has given are nonzero exactly
    for the symbols of nonzero frequency and fill the code space: they
    consume [2^MaxSize] exactly.  [MinSize] and [MaxSize] are the least and
    the greatest nonzero length. *)
Theorem Encoder_Init_lengths n freqs :
  1 ≤ n ≤ MaxSymbol → Z.of_nat (length freqs) ≤ n → 3 ≤ live freqs ≤ 256 →
  ∃ e err,
    NewEncoder n freqs = InitDone (mkInitOut e err)
    ∧ Encoder_NumSymbols e = n
    ∧ (∀ i x, Encoder_SizeBySymbol e !! i = Some x →
              x ≠ 0 ↔ ∃ f, freqs !! i = Some f ∧ f ≠ 0)
    ∧ codeSpace (Encoder_MaxSize e) (Encoder_SizeBySymbol e)
      = 2 ^ Encoder_MaxSize e
    ∧ Encoder_MinSize e ∈ Encoder_SizeBySymbol e
    ∧ Encoder_MaxSize e ∈ Encoder_SizeBySymbol e
    ∧ 0 < Encoder_MinSize e
    ∧ ∀ x, x ∈ Encoder_SizeBySymbol e → x ≠ 0 →
           Encoder_MinSize e ≤ x ≤ Encoder_MaxSize e.
Proof.
  intros Hn Hlen Hlive.
  destruct (Encoder_Init_run n freqs Hn Hlen Hlive)
    as (sizes & mn & mx & Hsl & Hchar & Hk & Hmn & Hmx & Hmn0 & Hb & Heq).
  assert (Forall (fun x => 0 ≤ x) sizes) as Hnn.
  { apply Forall_forall. intros x Hx.
    apply list_elem_of_lookup in Hx as (i & Hi). by destruct (Hchar i x Hi) as [[? _] _]. }
  assert (∃ out, secondPass (sizedCodes sizes) = Ok out
                 ∧ Size <$> sp_codes out = sizes) as (out & Hsp & Hsz).
  { destruct (decide (Forall (fun x => x ≤ maxBitsPerCode) sizes)) as [Hall|Hnot].
    - destruct (secondPass_run (sizedCodes sizes)) as (out & Hsp & Hsz & _).
      + unfold sizedCodes. apply Forall_fmap, Forall_forall. intros x Hx. cbn.
        rewrite Forall_forall in Hall, Hnn. split; [by apply Hnn|by apply Hall].
      + rewrite fmap_Size_sizedCodes. apply sortedItems_nonempty.
        apply (live_pos sizes mn); [done|lia].
      + exists out. split; [done|]. by rewrite Hsz, fmap_Size_sizedCodes.
    - destruct (secondPass_too_long sizes Hnn Hnot) as (x & _ & _ & Hsp).
      eexists. split; [exact Hsp|]. apply fmap_Size_sizedCodes. }
  rewrite Hsp in Heq. unfold NewEncoder.
  eexists _, _. split; [exact Heq|].
  unfold Encoder_NumSymbols, Encoder_SizeBySymbol, Encoder_MinSize,
    Encoder_MaxSize. cbn [e_codes e_minSize e_maxSize].
  rewrite Hsz. split.
  { rewrite <- (length_fmap Size), Hsz, Hsl. lia. }
  split; [intros i x Hi; by apply Hchar|]. done.
Qed.

Lemma Encoder_Init_lengths_witness :
  ∃ e err,
    NewEncoder 5 [5; 0; 1; 1] = InitDone (mkInitOut e err)
    ∧ Encoder_NumSymbols e = 5
    ∧ (∀ i x, Encoder_SizeBySymbol e !! i = Some x →
              x ≠ 0 ↔ ∃ f, [5; 0; 1; 1] !! i = Some f ∧ f ≠ 0)
    ∧ codeSpace (Encoder_MaxSize e) (Encoder_SizeBySymbol e)
      = 2 ^ Encoder_MaxSize e
    ∧ Encoder_MinSize e ∈ Encoder_SizeBySymbol e
    ∧ Encoder_MaxSize e ∈ Encoder_SizeBySymbol e
    ∧ 0 < Encoder_MinSize e
    ∧ ∀ x, x ∈ Encoder_SizeBySymbol e → x ≠ 0 →
           Encoder_MinSize e ≤ x ≤ Encoder_MaxSize e.
Proof.
  apply (Encoder_Init_lengths 5 [5; 0; 1; 1]).
  - unfold MaxSymbol, MaxInt32. lia.
  - cbn. lia.
  - vm_compute. split; discriminate.
Defined.

(** When [firstPass] has given no length above [maxBitsPerCode],
    [secondPass] reports no error, and the Encoder that [Init] returns is
    the one that [InitFromSizes] builds from its lengths: its codes are
    the canonical codes. *)
Theorem Encoder_Init_canonical n freqs e err :
  1 ≤ n ≤ MaxSymbol → Z.of_nat (length freqs) ≤ n → 3 ≤ live freqs ≤ 256 →
  Encoder_Init n freqs = InitDone (mkInitOut e err) →
  Encoder_MaxSize e ≤ maxBitsPerCode →
  err = None ∧ Encoder_InitFromSizes (Encoder_SizeBySymbol e) = Ok e.
Proof.
  intros Hn Hlen Hlive Hinit Hmax.
  destruct (Encoder_Init_run n freqs Hn Hlen Hlive)
    as (sizes & mn & mx & Hsl & Hchar & Hk & Hmn & Hmx & Hmn0 & Hb & Heq).
  assert (∀ x, x ∈ sizes → 0 ≤ x ≤ mx) as Hr.
  { intros x Hx. destruct (decide (x = 0)) as [->|Hx0]; [|by specialize (Hb x Hx Hx0); lia].
    specialize (Hb mx Hmx). lia. }
  rewrite Hinit in Heq.
  destruct (secondPass (sizedCodes sizes)) as [out| |] eqn:Hsp; try done.
  injection Heq as -> ->.
  unfold Encoder_MaxSize in Hmax. cbn [e_maxSize] in Hmax.
  assert (Forall (fun x => 0 ≤ x ≤ maxBitsPerCode) sizes) as Hall.
  { apply Forall_forall. intros x Hx. specialize (Hr x Hx). lia. }
  assert (0 < live sizes) as Hpos by (apply (live_pos sizes mn); [done|lia]).
  assert (allFit [] (sortedItems sizes)) as Hfit
    by (apply (allFit_codeSpace mx); [lia|done]).
  destruct (secondPass_run (sizedCodes sizes)) as (out' & Hsp' & Hsz & Herr & Hout).
  { unfold sizedCodes. apply Forall_fmap. by eapply Forall_impl. }
  { rewrite fmap_Size_sizedCodes. by apply sortedItems_nonempty. }
  rewrite Hsp in Hsp'. injection Hsp' as <-.
  rewrite fmap_Size_sizedCodes in Hsz, Herr, Hout.
  assert (sp_err out = None) as Hnone by (by apply Herr).
  split; [done|].
  unfold Encoder_SizeBySymbol. cbn [e_codes]. rewrite Hsz.
  unfold Encoder_InitFromSizes.
  destruct (forM_sizesStep_sizes sizes) as (st & Hrun & Hcodes).
  rewrite Hrun. cbn [mbind result_bind]. rewrite Hcodes, Hsp.
  cbn [mbind result_bind]. rewrite Hnone.
  destruct (forM_sizesStep_minmax _ _ _ Hrun Hpos)
    as (Ha & Hb1 & Hc1 & Hd1 & He1).
  assert (mn ≤ mx) as Hle by (specialize (Hb mn Hmn); lia).
  assert (sz_minSize st = mn ∧ sz_maxSize st = mx) as [-> ->].
  { pose proof (Ha mn Hmn ltac:(lia)). pose proof (Hb _ Hb1 Hd1).
    pose proof (Ha mx Hmx ltac:(lia)). pose proof (Hb _ Hc1 He1). lia. }
  done.
Qed.

Lemma Encoder_Init_canonical_witness :
  ∃ e err, Encoder_Init 5 [5; 0; 1; 1] = InitDone (mkInitOut e err)
           ∧ err = None
           ∧ Encoder_InitFromSizes (Encoder_SizeBySymbol e) = Ok e.
Proof.
  eexists _, _. split; [vm_compute; reflexivity|].
  apply (Encoder_Init_canonical 5 [5; 0; 1; 1]).
  - unfold MaxSymbol, MaxInt32. lia.
  - cbn. lia.
  - vm_compute. split; discriminate.
  - vm_compute. reflexivity.
  - vm_compute. discriminate.
Defined.



(** * [Encoder.Init] on two symbols or fewer *)

Lemma live_cons x l :
  live (x :: l) = (if bool_decide (x = 0) then 0 else 1) + live l.
Proof. done. Qed.

Lemma forM_smallStep freqs : ∀ (s0 : nat) k codes,
  (s0 + length freqs ≤ length codes)%nat → 0 ≤ k → k + live freqs < 2 ^ 32 →
  ∃ codes',
    forM smallStep (nodesFrom (Z.of_nat s0) freqs) (k, codes)
    = Ok (k + live freqs, codes')
    ∧ length codes' = length codes
    ∧ ∀ i, codes' !! i
           = if bool_decide (s0 ≤ i)%nat then
               match freqs !! (i - s0)%nat with
               | Some f =>
                   if bool_decide (f = 0) then codes !! i
                   else Some (MakeCode 1 (k + live (take (i - s0) freqs)))
               | None => codes !! i
               end
             else codes !! i.
Proof.
  induction freqs as [|f fs IH]; intros s0 k codes Hlen Hk Hsmall.
  - exists codes. cbn [nodesFrom forM]. change (live []) with 0.
    rewrite Z.add_0_r. split; [done|]. split; [done|].
    intros i. rewrite lookup_nil. by case_bool_decide.
  - cbn [length] in Hlen. rewrite live_cons in Hsmall.
    pose proof (live_nonneg fs) as Hfs.
    cbn [nodesFrom].
    replace (Z.of_nat s0 + 1) with (Z.of_nat (S s0)) by lia.
    destruct (decide (f = 0)) as [->|Hf].
    + rewrite bool_decide_eq_true_2 in Hsmall |- * by done. cbn [app].
      destruct (IH (S s0) k codes) as (codes' & Hrun & Hl & Hlk);
        [lia|done|lia|].
      exists codes'. rewrite live_cons, bool_decide_eq_true_2 by done.
      split; [by rewrite Hrun|]. split; [done|].
      intros i. rewrite Hlk.
      destruct (decide (s0 ≤ i)%nat) as [Hle|Hgt];
        [|by rewrite !bool_decide_eq_false_2 by lia].
      rewrite (bool_decide_eq_true_2 (s0 ≤ i)%nat) by done.
      destruct (decide (i = s0)) as [->|Hne].
      * rewrite bool_decide_eq_false_2 by lia. rewrite Nat.sub_diag. cbn.
        by rewrite bool_decide_eq_true_2.
      * rewrite bool_decide_eq_true_2 by lia.
        replace (i - s0)%nat with (S (i - S s0)) by lia. cbn [lookup list_lookup take].
        rewrite live_cons, bool_decide_eq_true_2 by done. done.
    + rewrite bool_decide_eq_false_2 in Hsmall |- * by done. cbn [app forM].
      assert (smallStep (k, codes) (mkSF (Z.of_nat s0) f)
              = Ok (k + 1, <[s0 := MakeCode 1 k]> codes)) as Hstep.
      { unfold smallStep, store. cbn [fst snd sf_symbol].
        rewrite bool_decide_eq_true_2 by lia. cbn [mbind result_bind].
        rewrite Nat2Z.id, u32_small by lia. done. }
      rewrite Hstep. cbn [mbind result_bind].
      destruct (IH (S s0) (k + 1) (<[s0 := MakeCode 1 k]> codes))
        as (codes' & Hrun & Hl & Hlk);
        [rewrite length_insert; lia|lia|lia|].
      exists codes'. rewrite live_cons, bool_decide_eq_false_2 by done.
      split; [rewrite Hrun; do 2 f_equal; lia|].
      split; [by rewrite Hl, length_insert|].
      intros i. rewrite Hlk.
      destruct (decide (s0 ≤ i)%nat) as [Hle|Hgt].
      2:{ rewrite !bool_decide_eq_false_2 by lia.
          apply list_lookup_insert_ne. lia. }
      rewrite (bool_decide_eq_true_2 (s0 ≤ i)%nat) by done.
      destruct (decide (i = s0)) as [->|Hne].
      * rewrite bool_decide_eq_false_2 by lia. rewrite Nat.sub_diag. cbn.
        rewrite bool_decide_eq_false_2 by done.
        rewrite list_lookup_insert_eq by lia. change (live []) with 0.
        by rewrite Z.add_0_r.
      * rewrite bool_decide_eq_true_2 by lia.
        replace (i - s0)%nat with (S (i - S s0)) by lia.
        cbn [lookup list_lookup take].
        rewrite live_cons, bool_decide_eq_false_2 by done.
        rewrite list_lookup_insert_ne by lia.
        destruct (fs !! (i - S s0)%nat) as [g|]; [|done].
        case_bool_decide; [done|]. do 2 f_equal. lia.
Qed.

(** With two symbols of nonzero frequency or fewer, [Encoder.Init] calls
    neither pass: it returns an Encoder with [MinSize = MaxSize = 1], in
    which the symbols of nonzero frequency have the one-bit codes 0 and 1,
    in the order of the symbols, and every other symbol has the zero
    Code. *)
Theorem Encoder_Init_few n freqs :
  1 ≤ n ≤ MaxSymbol → Z.of_nat (length freqs) ≤ n → live freqs ≤ 2 →
  ∃ e, NewEncoder n freqs = InitDone (mkInitOut e None)
       ∧ Encoder_MinSize e = 1 ∧ Encoder_MaxSize e = 1
       ∧ Encoder_NumSymbols e = n
       ∧ ∀ i, (i < Z.to_nat n)%nat →
              Encoder_Encode e (Z.of_nat i)
              = Ok (match freqs !! i with
                    | Some f => if bool_decide (f = 0) then MakeCode 0 0
                                else MakeCode 1 (live (take i freqs))
                    | None => MakeCode 0 0
                    end).
Proof.
  intros Hn Hlen Hlive. pose proof (live_nonneg freqs) as Hl0.
  unfold NewEncoder, Encoder_Init.
  rewrite !bool_decide_eq_true_2 by lia. cbn [negb].
  rewrite forM_nodesStep. cbn [ns_nodes ns_symbol app].
  rewrite nodesFrom_length, u32_small by lia.
  rewrite bool_decide_eq_true_2 by done.
  destruct (forM_smallStep freqs 0 0
              (replicate (Z.to_nat n) (MakeCode 0 0)))
    as (codes' & Hrun & Hl & Hlk);
    [rewrite length_replicate; lia|done|lia|].
  change (Z.of_nat 0) with 0 in Hrun. rewrite Hrun.
  eexists. split; [reflexivity|].
  unfold Encoder_MinSize, Encoder_MaxSize, Encoder_NumSymbols, Encoder_Encode.
  cbn [e_codes e_minSize e_maxSize].
  split; [done|]. split; [done|].
  split; [rewrite Hl, length_replicate; lia|].
  intros i Hi. apply index_Ok. split; [lia|].
  rewrite Nat2Z.id, Hlk, bool_decide_eq_true_2, Nat.sub_0_r by lia.
  rewrite lookup_replicate_2 by done.
  destruct (freqs !! i) as [f|]; [|done]. case_bool_decide; [done|].
  by rewrite Z.add_0_l.
Qed.

Lemma Encoder_Init_few_witness :
  ∃ e, NewEncoder 4 [0; 7; 0; 9] = InitDone (mkInitOut e None)
       ∧ Encoder_MinSize e = 1 ∧ Encoder_MaxSize e = 1
       ∧ Encoder_NumSymbols e = 4
       ∧ ∀ i, (i < Z.to_nat 4)%nat →
              Encoder_Encode e (Z.of_nat i)
              = Ok (match [0; 7; 0; 9] !! i with
                    | Some f => if bool_decide (f = 0) then MakeCode 0 0
                                else MakeCode 1 (live (take i [0; 7; 0; 9]))
                    | None => MakeCode 0 0
                    end).
Proof.
  apply (Encoder_Init_few 4 [0; 7; 0; 9]).
  - unfold MaxSymbol, MaxInt32. lia.
  - cbn. lia.
  - vm_compute. discriminate.
Defined.

Lemma roundtrip_live_witness :
  ∃ d, Decoder_Init [2; 0; 2; 1] = Ok d
       ∧ ∃ e, Decoder_Encoder d = Ok e
              ∧ Encoder_InitFromSizes [2; 0; 2; 1] = Ok e
              ∧ Encoder_SizeBySymbol e = [2; 0; 2; 1]
              ∧ Encoder_Decoder e = Ok d
              ∧ Decoder_SizeBySymbol d = [2; 0; 2; 1].
Proof.
  eexists. split; [vm_compute; reflexivity|].
  apply (roundtrip_live [2; 0; 2; 1]);
    [reflexivity|vm_compute; reflexivity|reflexivity].
Defined.

(** * The order of the heap of [firstPass] *)

Lemma u32_range x : 0 ≤ u32 x < 2 ^ 32.
Proof. unfold u32. apply Z.mod_pos_bound. lia. Qed.

Lemma freqHeap_Less_key a b :
  freqHeap_Less a b = true ↔ keyOf a < keyOf b.
Proof.
  unfold freqHeap_Less, keyOf.
  pose proof (u32_range (sf_symbol a)). pose proof (u32_range (sf_symbol b)).
  case_bool_decide as Hf.
  - rewrite bool_decide_eq_true. lia.
  - rewrite Hf, bool_decide_eq_true. lia.
Qed.

Lemma hLess_key h i j :
  hLess h i j = true ↔ keyOf (h !!! i) < keyOf (h !!! j).
Proof. apply freqHeap_Less_key. Qed.

Lemma hLess_key_false h i j :
  hLess h i j = false ↔ keyOf (h !!! j) ≤ keyOf (h !!! i).
Proof.
  pose proof (hLess_key h i j) as H. destruct (hLess h i j).
  - split; [done|]. intros Hle. assert (true = true) as Ht by done.
    apply H in Ht. lia.
  - split; [|done]. intros _.
    destruct (decide (keyOf (h !!! i) < keyOf (h !!! j))) as [Hlt|]; [|lia].
    by apply H in Hlt.
Qed.

Lemma hSwap_lookup h i j k :
  (i < length h)%nat → (j < length h)%nat →
  hSwap h i j !!! k
  = if decide (k = j) then h !!! i
    else if decide (k = i) then h !!! j else h !!! k.
Proof.
  intros Hi Hj. unfold hSwap.
  destruct (decide (k = j)) as [->|Hkj].
  - apply list_lookup_total_insert_eq. by rewrite length_insert.
  - rewrite list_lookup_total_insert_ne by done.
    destruct (decide (k = i)) as [->|Hki].
    + by apply list_lookup_total_insert_eq.
    + by apply list_lookup_total_insert_ne.
Qed.

Lemma parent_eq (c : nat) :
  (0 < c)%nat →
  (c = 2 * ((c - 1) / 2) + 1 ∨ c = 2 * ((c - 1) / 2) + 2)%nat.
Proof.
  intros Hc. pose proof (Nat.div_mod_eq (c - 1) 2) as H.
  pose proof (Nat.mod_upper_bound (c - 1) 2 ltac:(lia)). lia.
Qed.

Lemma parent_child (c i : nat) :
  (c = 2 * i + 1 ∨ c = 2 * i + 2)%nat → ((c - 1) / 2 = i)%nat.
Proof.
  intros [-> | ->].
  - replace (2 * i + 1 - 1)%nat with (i * 2)%nat by lia. apply Nat.div_mul. lia.
  - replace (2 * i + 2 - 1)%nat with (1 + i * 2)%nat by lia.
    by rewrite Nat.div_add by lia.
Qed.

Lemma holeDown_done lo n h i :
  holeDown lo n h i →
  (∀ c, (0 < c < n)%nat → ((c - 1) / 2)%nat = i →
        keyOf (h !!! i) ≤ keyOf (h !!! c)) →
  heapFrom lo n h.
Proof.
  intros [H1 _] Hi c Hc Hlo.
  destruct (decide (((c - 1) / 2)%nat = i)) as [Heq|Hne].
  - rewrite Heq. by apply Hi.
  - by apply H1.
Qed.

(** [down] restores the order below the entry it starts from, and leaves
    the entries from [n] on where they are. *)
Lemma heap_down_heap lo n fuel : ∀ h i,
  (n ≤ length h)%nat → (lo ≤ i)%nat → (n - i ≤ fuel)%nat →
  holeDown lo n h i →
  heapFrom lo n (heap_down fuel h i n)
  ∧ ∀ k, (n ≤ k)%nat → heap_down fuel h i n !!! k = h !!! k.
Proof.
  induction fuel as [|f IH]; intros h i Hn Hlo Hfuel Hhole.
  - cbn [heap_down]. split; [|done].
    apply (holeDown_done lo n h i Hhole). intros c Hc Hp.
    pose proof (parent_eq c ltac:(lia)). lia.
  - cbn [heap_down]. case_bool_decide as Hj1.
    + split; [|done].
      apply (holeDown_done lo n h i Hhole). intros c Hc Hp.
      pose proof (parent_eq c ltac:(lia)). lia.
    + set (j1 := (2 * i + 1)%nat) in *. set (j2 := (j1 + 1)%nat).
      set (j := if bool_decide (j2 < n)%nat && hLess h j2 j1 then j2 else j1).
      assert ((j = j1 ∨ j = j2) ∧ (j < n)%nat
              ∧ ∀ c, (0 < c < n)%nat → ((c - 1) / 2)%nat = i →
                     keyOf (h !!! j) ≤ keyOf (h !!! c)) as (Hjj & Hjn & Hmin).
      { unfold j. destruct (bool_decide (j2 < n)%nat) eqn:Hb; cbn [andb].
        - apply bool_decide_eq_true in Hb.
          destruct (hLess h j2 j1) eqn:HL.
          + apply hLess_key in HL. split; [by right|]. split; [done|].
            intros c Hc Hp. pose proof (parent_eq c ltac:(lia)) as Hpc.
            rewrite Hp in Hpc. destruct Hpc as [->| ->].
            * fold j1. lia.
            * replace (2 * i + 2)%nat with j2 by (unfold j2, j1; lia). lia.
          + apply hLess_key_false in HL. split; [by left|]. split; [lia|].
            intros c Hc Hp. pose proof (parent_eq c ltac:(lia)) as Hpc.
            rewrite Hp in Hpc. destruct Hpc as [->| ->].
            * fold j1. lia.
            * replace (2 * i + 2)%nat with j2 by (unfold j2, j1; lia). lia.
        - apply bool_decide_eq_false in Hb. split; [by left|]. split; [lia|].
          intros c Hc Hp. pose proof (parent_eq c ltac:(lia)) as Hpc.
          rewrite Hp in Hpc. destruct Hpc as [->| ->].
          + fold j1. lia.
          + unfold j2, j1 in Hb. lia. }
      clearbody j.
      assert (((j - 1) / 2)%nat = i) as Hpj
        by (apply parent_child; unfold j2, j1 in Hjj; lia).
      assert (i < j)%nat as Hij by (unfold j2, j1 in Hjj; lia).
      destruct (hLess h j i) eqn:HL; cbn [negb].
      2:{ apply hLess_key_false in HL. split; [|done].
          apply (holeDown_done lo n h i Hhole). intros c Hc Hp.
          specialize (Hmin c Hc Hp). lia. }
      apply hLess_key in HL.
      assert (∀ k, hSwap h i j !!! k
                   = if decide (k = j) then h !!! i
                     else if decide (k = i) then h !!! j else h !!! k) as Hsw
        by (intros k; apply hSwap_lookup; lia).
      destruct (IH (hSwap h i j) j) as [Hheap Hrest].
      * rewrite (Permutation_length (hSwap_Permutation h i j ltac:(lia) ltac:(lia))).
        done.
      * lia.
      * lia.
      * destruct Hhole as [H1 H2]. split.
        -- intros c Hc Hlop Hpne. rewrite !Hsw.
           destruct (decide (((c - 1) / 2)%nat = j)) as [|_]; [done|].
           destruct (decide (((c - 1) / 2)%nat = i)) as [Hpi|Hpi].
           ++ destruct (decide (c = j)) as [->|Hcj]; [lia|].
              destruct (decide (c = i)) as [->|Hci].
              { pose proof (parent_eq i ltac:(lia)). lia. }
              by apply Hmin.
           ++ destruct (decide (c = j)) as [->|Hcj]; [congruence|].
              destruct (decide (c = i)) as [->|Hci].
              ** apply (H2 ltac:(lia) Hlop j); [lia|done].
              ** by apply H1.
        -- intros Hj0 Hlop c Hc Hpc. rewrite Hpj, !Hsw.
           destruct (decide (i = j)) as [|_]; [lia|].
           destruct (decide (i = i)) as [_|]; [|done].
           assert (j < c)%nat by (pose proof (parent_eq c ltac:(lia)); lia).
           destruct (decide (c = j)) as [|_]; [lia|].
           destruct (decide (c = i)) as [|_]; [lia|].
           rewrite <- Hpc. apply H1; [done|lia|lia].
      * split; [done|]. intros k Hk. rewrite Hrest by done. rewrite Hsw.
        destruct (decide (k = j)) as [|_]; [lia|].
        destruct (decide (k = i)) as [|_]; [lia|]. done.
Qed.

Lemma holeUp_done n h j :
  holeUp n h j →
  ((0 < j < n)%nat →
   keyOf (h !!! ((j - 1) / 2)%nat) ≤ keyOf (h !!! j)) →
  heapFrom 0 n h.
Proof.
  intros [H1 _] Hj c Hc _.
  destruct (decide (c = j)) as [->|Hne]; [by apply Hj|by apply H1].
Qed.

(** [up] restores the order above the entry it starts from. *)
Lemma heap_up_heap n fuel : ∀ h j,
  (n ≤ length h)%nat → (j < n)%nat → (j ≤ fuel)%nat → holeUp n h j →
  heapFrom 0 n (heap_up fuel h j).
Proof.
  induction fuel as [|f IH]; intros h j Hn Hj Hfuel Hhole.
  - cbn [heap_up]. apply (holeUp_done n h j Hhole). lia.
  - cbn [heap_up]. set (i := ((j - 1) / 2)%nat).
    case_bool_decide as Hij; cbn [orb].
    { apply (holeUp_done n h j Hhole). intros Hj0.
      pose proof (parent_eq j ltac:(lia)). fold i in H. lia. }
    destruct (hLess h j i) eqn:HL; cbn [negb].
    2:{ apply hLess_key_false in HL. apply (holeUp_done n h j Hhole).
        intros _. exact HL. }
    apply hLess_key in HL.
    assert (0 < j)%nat as Hj0 by (destruct j; [by destruct Hij|lia]).
    pose proof (parent_eq j Hj0) as Hpj. fold i in Hpj.
    assert (i < j)%nat as Hlt by lia.
    assert (∀ k, hSwap h i j !!! k
                 = if decide (k = j) then h !!! i
                   else if decide (k = i) then h !!! j else h !!! k) as Hsw
      by (intros k; apply hSwap_lookup; lia).
    apply IH.
    + by rewrite (Permutation_length
                    (hSwap_Permutation h i j ltac:(lia) ltac:(lia))).
    + lia.
    + lia.
    + destruct Hhole as [H1 H2]. split.
      * intros c Hc Hci. rewrite !Hsw.
        destruct (decide (c = i)) as [|_]; [done|].
        destruct (decide (c = j)) as [->|Hcj].
        -- fold i. destruct (decide (i = j)) as [|_]; [lia|].
           destruct (decide (i = i)) as [_|]; [lia|done].
        -- destruct (decide (((c - 1) / 2)%nat = j)) as [Hpc|Hpc].
           ++ by apply (H2 Hj0 c).
           ++ destruct (decide (((c - 1) / 2)%nat = i)) as [Hpi|Hpi].
              ** specialize (H1 c Hc Hcj). rewrite Hpi in H1. lia.
              ** by apply H1.
      * intros Hi0 c Hc Hpc. rewrite !Hsw.
        pose proof (parent_eq i Hi0) as Hpi.
        destruct (decide (((i - 1) / 2)%nat = j)) as [|_]; [lia|].
        destruct (decide (((i - 1) / 2)%nat = i)) as [|_]; [lia|].
        assert (keyOf (h !!! ((i - 1) / 2)%nat) ≤ keyOf (h !!! i)) as Hgp
          by (apply H1; lia).
        destruct (decide (c = j)) as [->|Hcj]; [done|].
        destruct (decide (c = i)) as [->|Hci].
        { pose proof (parent_eq i Hi0). lia. }
        specialize (H1 c Hc Hcj). rewrite Hpc in H1. lia.
Qed.

Lemma heap_InitLoop_heap n k : ∀ h,
  (n ≤ length h)%nat → heapFrom k n h → heapFrom 0 n (heap_InitLoop k h n).
Proof.
  induction k as [|i IH]; intros h Hn Hheap; [done|].
  cbn [heap_InitLoop].
  destruct (heap_down_heap i n n h i Hn ltac:(lia) ltac:(lia)) as [Hd _].
  { split.
    - intros c Hc Hlo Hne. apply Hheap; [done|lia].
    - intros Hi0 Hlo. pose proof (parent_eq i Hi0). lia. }
  apply IH; [|done].
  by rewrite (Permutation_length (heap_down_Permutation n h i n Hn)).
Qed.

Lemma heap_Init_isHeap h : isHeap (heap_Init h).
Proof.
  unfold isHeap. rewrite (Permutation_length (heap_Init_Permutation h)).
  unfold heap_Init. apply heap_InitLoop_heap; [done|].
  intros c Hc Hlo. exfalso.
  pose proof (parent_eq c ltac:(lia)).
  pose proof (Nat.div_mod_eq (length h) 2).
  pose proof (Nat.mod_upper_bound (length h) 2 ltac:(lia)). lia.
Qed.

Lemma heap_Push_isHeap h x : isHeap h → isHeap (heap_Push h x).
Proof.
  intros Hheap. unfold isHeap.
  rewrite (Permutation_length (heap_Push_Permutation h x)).
  unfold heap_Push. rewrite length_app. cbn [length].
  replace (length h + 1 - 1)%nat with (length h) by lia.
  replace (S (length h)) with (length h + 1)%nat by lia.
  apply heap_up_heap.
  - rewrite length_app. cbn [length]. lia.
  - lia.
  - lia.
  - split.
    + intros c Hc Hne.
      pose proof (parent_eq c ltac:(lia)).
      rewrite !lookup_total_app_l by lia. apply Hheap; lia.
    + intros Hj0 c Hc Hp. pose proof (parent_eq c ltac:(lia)). lia.
Qed.

Lemma isHeap_root h k :
  isHeap h → (k < length h)%nat → keyOf (h !!! 0%nat) ≤ keyOf (h !!! k).
Proof.
  intros Hheap. induction k as [k IH] using lt_wf_ind. intros Hk.
  destruct (decide (k = 0)%nat) as [->|Hk0]; [done|].
  pose proof (parent_eq k ltac:(lia)) as Hp.
  specialize (IH ((k - 1) / 2)%nat ltac:(lia) ltac:(lia)).
  specialize (Hheap k ltac:(lia) ltac:(lia)). lia.
Qed.

(** [heap.Pop] on a heap returns a least entry and leaves a heap of the
    others. *)
Lemma heap_Pop_least h :
  isHeap h → h ≠ [] →
  ∃ x h', heap_Pop h = Ok (x, h') ∧ h ≡ₚ x :: h' ∧ isHeap h'
          ∧ ∀ y, y ∈ h → keyOf x ≤ keyOf y.
Proof.
  intros Hheap Hne.
  destruct (heap_Pop_Permutation h Hne) as (x & h' & Hpop & Hperm).
  exists x, h'. split; [done|]. split; [done|].
  unfold heap_Pop in Hpop.
  destruct (length h) as [|n] eqn:Hlen; [done|].
  assert (∀ k, hSwap h 0 n !!! k
               = if decide (k = n) then h !!! 0%nat
                 else if decide (k = 0)%nat then h !!! n else h !!! k) as Hsw
    by (intros k; apply hSwap_lookup; lia).
  assert (length (hSwap h 0 n) = S n) as Hl1
    by (by rewrite (Permutation_length
                      (hSwap_Permutation h 0 n ltac:(lia) ltac:(lia)))).
  destruct (heap_down_heap 0 n n (hSwap h 0 n) 0 ltac:(lia) ltac:(lia)
              ltac:(lia)) as [Hd Hrest].
  { split; [|lia]. intros c Hc _ Hp. rewrite !Hsw.
    pose proof (parent_eq c ltac:(lia)).
    destruct (decide (((c - 1) / 2)%nat = n)) as [|_]; [lia|].
    destruct (decide (((c - 1) / 2)%nat = 0)%nat) as [|_]; [done|].
    destruct (decide (c = n)) as [|_]; [lia|].
    destruct (decide (c = 0)%nat) as [|_]; [lia|].
    apply Hheap; lia. }
  set (h2 := heap_down n (hSwap h 0 n) 0 n) in *.
  assert (length h2 = S n) as Hl2.
  { unfold h2. rewrite (Permutation_length
                          (heap_down_Permutation n (hSwap h 0 n) 0 n ltac:(lia))). done. }
  apply bind_Ok in Hpop as (x' & Hidx & Hpop). injection Hpop as -> <-.
  apply index_Ok in Hidx as [_ Hidx]. rewrite Nat2Z.id in Hidx.
  apply list_lookup_total_correct in Hidx.
  rewrite Hrest, Hsw in Hidx by lia.
  destruct (decide (n = n)) as [_|]; [|done]. subst x.
  split.
  - unfold isHeap. rewrite length_take, Hl2, Nat.min_l by lia.
    intros c Hc Hlo. pose proof (parent_eq c ltac:(lia)).
    rewrite !lookup_total_take_lt by lia. by apply Hd.
  - intros y Hy. apply list_elem_of_lookup in Hy as (k & Hk).
    pose proof (lookup_lt_Some _ _ _ Hk).
    apply list_lookup_total_correct in Hk. rewrite <- Hk.
    apply isHeap_root; [done|lia].
Qed.

(** [heap.Init] puts the nodes in heap order and keeps them all. *)
Theorem heap_Init_heap h :
  heap_Init h ≡ₚ h ∧ isHeap (heap_Init h)
  ∧ ∀ y, y ∈ h →
         freqHeap_Less y (heap_Init h !!! 0%nat) = false.
Proof.
  split; [apply heap_Init_Permutation|]. split; [apply heap_Init_isHeap|].
  intros y Hy. rewrite <- (heap_Init_Permutation h) in Hy.
  apply list_elem_of_lookup in Hy as (k & Hk).
  pose proof (lookup_lt_Some _ _ _ Hk).
  apply list_lookup_total_correct in Hk. rewrite <- Hk.
  pose proof (isHeap_root _ k (heap_Init_isHeap h) ltac:(done)) as Hle.
  destruct (freqHeap_Less _ _) eqn:HL; [|done].
  apply freqHeap_Less_key in HL. lia.
Qed.

(** When the slice is in heap order and holds two nodes or more, an
    iteration of the merge loop of [firstPass] takes two least nodes off
    the heap, first [a], then [b], appends the synthetic symbol with the
    children [a] and [b], and pushes the node of that symbol with the
    saturated sum of the two frequencies: the slice then holds that node
    and the nodes that were left, and is in heap order again. *)
Theorem mergeLoop_least m h syn next :
  isHeap h → (2 ≤ length h)%nat →
  ∃ a b h2,
    h ≡ₚ a :: b :: h2
    ∧ (∀ y, y ∈ h → freqHeap_Less y a = false)
    ∧ (∀ y, y ∈ b :: h2 → freqHeap_Less y b = false)
    ∧ heap_Push h2 (mkSF next (freqSum (sf_freq a) (sf_freq b)))
      ≡ₚ mkSF next (freqSum (sf_freq a) (sf_freq b)) :: h2
    ∧ isHeap (heap_Push h2 (mkSF next (freqSum (sf_freq a) (sf_freq b))))
    ∧ mergeLoop 1 h syn next
      = Ok (heap_Push h2 (mkSF next (freqSum (sf_freq a) (sf_freq b))),
            syn ++ [mkSyn (sf_symbol a) (sf_symbol b)])
    ∧ mergeLoop (S m) h syn next
      = mergeLoop m
          (heap_Push h2 (mkSF next (freqSum (sf_freq a) (sf_freq b))))
          (syn ++ [mkSyn (sf_symbol a) (sf_symbol b)]) (next + 1).
Proof.
  intros Hheap Hlen.
  destruct (heap_Pop_least h Hheap) as (a & h1 & Hpa & Hperm1 & Hheap1 & Hmin1);
    [intros ->; cbn in Hlen; lia|].
  destruct (heap_Pop_least h1 Hheap1)
    as (b & h2 & Hpb & Hperm2 & Hheap2 & Hmin2).
  { intros ->. apply Permutation_length in Hperm1. cbn in Hperm1. lia. }
  assert (∀ x y, keyOf x ≤ keyOf y → freqHeap_Less y x = false) as Hle.
  { intros x y Hxy. destruct (freqHeap_Less y x) eqn:HL; [|done].
    apply freqHeap_Less_key in HL. lia. }
  exists a, b, h2. split; [by rewrite Hperm1, Hperm2|].
  split; [intros y Hy; by apply Hle, Hmin1|].
  split; [intros y Hy; apply Hle, Hmin2; by rewrite Hperm2|].
  split; [apply heap_Push_Permutation|].
  split; [by apply heap_Push_isHeap|].
  split; cbn [mergeLoop]; rewrite Hpa; cbn [mbind result_bind]; rewrite Hpb;
    done.
Qed.

Lemma mergeLoop_least_witness :
  ∃ a b h2,
    heap_Init [mkSF 0 5; mkSF 1 2; mkSF 2 2] ≡ₚ a :: b :: h2
    ∧ (∀ y, y ∈ heap_Init [mkSF 0 5; mkSF 1 2; mkSF 2 2] →
            freqHeap_Less y a = false)
    ∧ (∀ y, y ∈ b :: h2 → freqHeap_Less y b = false)
    ∧ heap_Push h2 (mkSF MinInt32 (freqSum (sf_freq a) (sf_freq b)))
      ≡ₚ mkSF MinInt32 (freqSum (sf_freq a) (sf_freq b)) :: h2
    ∧ isHeap (heap_Push h2 (mkSF MinInt32 (freqSum (sf_freq a) (sf_freq b))))
    ∧ mergeLoop 1 (heap_Init [mkSF 0 5; mkSF 1 2; mkSF 2 2]) [] MinInt32
      = Ok (heap_Push h2 (mkSF MinInt32 (freqSum (sf_freq a) (sf_freq b))),
            [] ++ [mkSyn (sf_symbol a) (sf_symbol b)])
    ∧ mergeLoop 1 (heap_Init [mkSF 0 5; mkSF 1 2; mkSF 2 2]) [] MinInt32
      = mergeLoop 0
          (heap_Push h2 (mkSF MinInt32 (freqSum (sf_freq a) (sf_freq b))))
          ([] ++ [mkSyn (sf_symbol a) (sf_symbol b)]) (MinInt32 + 1).
Proof.
  apply (mergeLoop_least 0 (heap_Init [mkSF 0 5; mkSF 1 2; mkSF 2 2])
           [] MinInt32).
  - apply heap_Init_isHeap.
  - vm_compute. lia.
Defined.
